(** * A shallow embedding of the RAG ingestion and query workflows

    Sources embedded: [main.py] (the two workflow functions
    [rag_ingest_pdf] and [rag_query_pdf]), [data_loder.py]
    ([load_and_chunk_pdf], [embed_texts]), [vectore_db.py]
    ([QdrantStorage]) and, of [streamlit_app.py], the query guard of the
    page and [wait_for_output].

    Python values are modelled as follows: [str] is a [string] holding the
    UTF-8 bytes of the text, [int] is [Z], a list is a [list], a [dict] used
    as a map is a [gmap], a [set] is a [gset].  A raised exception is the
    left injection of a sum; every call that leaves the process (embedding
    provider, vector engine, generative model) is recorded in a trace. *)

From Stdlib Require Import ZArith Lia List Ascii String.
From Stdlib Require Import DecimalString DecimalNat.
From stdpp Require Import base option list gmap strings.

(* [set_solver] clears hypotheses by name as it goes. *)
#[local] Set Warnings "-clear-no-such-hyp".

Local Open Scope Z_scope.

(** ** Bytes of a string *)

Definition byte_of_ascii (a : ascii) : Z := Z.of_N (N_of_ascii a).

(** [name.encode("utf-8")] for a string already held as UTF-8 bytes. *)
Definition utf8 (s : string) : list Z := map byte_of_ascii (list_ascii_of_string s).

(** ** SHA-1 (FIPS 180-4), as [hashlib.sha1(...).digest()] computes it *)

Module Sha1.

Definition wrap32 (x : Z) : Z := x mod 2 ^ 32.

Definition rotl (n x : Z) : Z :=
  wrap32 (Z.lor (Z.shiftl x n) (Z.shiftr x (32 - n))).

Definition add32 (x y : Z) : Z := wrap32 (x + y).

(** Big-endian encoding of [x] on [n] bytes. *)
Fixpoint be_bytes (n : nat) (x : Z) : list Z :=
  match n with
  | O => []
  | S n' => (x / 256 ^ Z.of_nat n') mod 256 :: be_bytes n' x
  end.

(** Big-endian decoding, [int.from_bytes(bs, "big")]. *)
Definition from_be (bs : list Z) : Z :=
  fold_left (fun acc b => acc * 256 + b) bs 0.

Definition pad (msg : list Z) : list Z :=
  let len := Z.of_nat (length msg) in
  msg ++ [128] ++ repeat 0 (Z.to_nat ((55 - len) mod 64)) ++ be_bytes 8 (8 * len).

Fixpoint chunks_of {A} (fuel n : nat) (l : list A) : list (list A) :=
  match fuel with
  | O => []
  | S fuel' =>
      match l with
      | [] => []
      | _ => firstn n l :: chunks_of fuel' n (skipn n l)
      end
  end.

Definition words_of_block (block : list Z) : list Z :=
  map from_be (chunks_of 16 4 block).

(** Message schedule; [rw] holds the words computed so far, latest first. *)
Fixpoint expand (n : nat) (rw : list Z) : list Z :=
  match n with
  | O => rw
  | S n' =>
      let w := rotl 1 (Z.lxor (Z.lxor (Z.lxor (nth 2 rw 0) (nth 7 rw 0))
                                       (nth 13 rw 0)) (nth 15 rw 0)) in
      expand n' (w :: rw)
  end.

Definition schedule (block : list Z) : list Z :=
  rev (expand 64 (rev (words_of_block block))).

Definition f (t b c d : Z) : Z :=
  if t <? 20 then Z.lor (Z.land b c) (Z.land (wrap32 (Z.lnot b)) d)
  else if t <? 40 then Z.lxor (Z.lxor b c) d
  else if t <? 60 then Z.lor (Z.lor (Z.land b c) (Z.land b d)) (Z.land c d)
  else Z.lxor (Z.lxor b c) d.

Definition K (t : Z) : Z :=
  if t <? 20 then 0x5a827999
  else if t <? 40 then 0x6ed9eba1
  else if t <? 60 then 0x8f1bbcdc
  else 0xca62c1d6.

Record state := State { ha : Z; hb : Z; hc : Z; hd : Z; he : Z }.

Definition init : state :=
  State 0x67452301 0xefcdab89 0x98badcfe 0x10325476 0xc3d2e1f0.

Definition round (s : state) (tw : Z * Z) : state :=
  let '(t, w) := tw in
  let temp := add32 (add32 (add32 (add32 (rotl 5 (ha s)) (f t (hb s) (hc s) (hd s)))
                                  (he s)) w) (K t) in
  State temp (ha s) (rotl 30 (hb s)) (hc s) (hd s).

Definition compress (h : state) (block : list Z) : state :=
  let ws := schedule block in
  let ts := map Z.of_nat (seq 0 80) in
  let s := fold_left round (combine ts ws) h in
  State (add32 (ha h) (ha s)) (add32 (hb h) (hb s)) (add32 (hc h) (hc s))
        (add32 (hd h) (hd s)) (add32 (he h) (he s)).

Definition digest (msg : list Z) : list Z :=
  let padded := pad msg in
  let h := fold_left compress (chunks_of (length padded) 64 padded) init in
  flat_map (be_bytes 4) [ha h; hb h; hc h; hd h; he h].

End Sha1.

(** ** [uuid.uuid5] and [str(UUID)] (CPython [Lib/uuid.py], RFC 4122) *)

Module Uuid.

(** A [UUID] object is its 128-bit [int] attribute. *)
Definition UUID := Z.

Definition NAMESPACE_DNS : UUID := 0x6ba7b8109dad11d180b400c04fd430c8.
Definition NAMESPACE_URL : UUID := 0x6ba7b8119dad11d180b400c04fd430c8.

(** [UUID.bytes] *)
Definition bytes (u : UUID) : list Z := Sha1.be_bytes 16 u.

(** [UUID(bytes=b, version=v)]: variant and version bits are forced. *)
Definition of_bytes (b : list Z) (version : Z) : UUID :=
  let i := Sha1.from_be b in
  let i := Z.land i (Z.lnot (Z.shiftl 0xc000 48)) in
  let i := Z.lor i (Z.shiftl 0x8000 48) in
  let i := Z.land i (Z.lnot (Z.shiftl 0xf000 64)) in
  Z.lor i (Z.shiftl version 76).

Definition uuid5 (namespace : UUID) (name : string) : UUID :=
  let hash := Sha1.digest (bytes namespace ++ utf8 name) in
  of_bytes (firstn 16 hash) 5.

Definition hex_digit (d : Z) : ascii :=
  if d <? 10 then ascii_of_N (Z.to_N (48 + d)) else ascii_of_N (Z.to_N (87 + d)).

(** ['%032x' % i], for [0 <= i < 2^128]. *)
Fixpoint hex (n : nat) (i : Z) : list ascii :=
  match n with
  | O => []
  | S n' => hex_digit ((i / 16 ^ Z.of_nat n') mod 16) :: hex n' i
  end.

(** [str(u)]: the 8-4-4-4-12 rendering. *)
Definition str (u : UUID) : string :=
  let h := hex 32 u in
  let dash := "-"%char in
  string_of_list_ascii
    (firstn 8 h ++ dash :: firstn 4 (skipn 8 h) ++ dash :: firstn 4 (skipn 12 h)
       ++ dash :: firstn 4 (skipn 16 h) ++ dash :: skipn 20 h).

End Uuid.

(** ** Identity scheme: the id expression of [upsert_step] *)

(** [str(i)] for a list index [i]. *)
Definition str_of_nat (i : nat) : string := NilEmpty.string_of_uint (Nat.to_uint i).

(** [f"{source_id}:{i}"] *)
Definition id_name (source_id : string) (i : nat) : string :=
  source_id +:+ ":" +:+ str_of_nat i.

(** [str(uuid.uuid5(uuid.NAMESPACE_URL, f"{source_id}:{i}"))] *)
Definition deriveId (source_id : string) (i : nat) : string :=
  Uuid.str (Uuid.uuid5 Uuid.NAMESPACE_URL (id_name source_id i)).

(** ** Python helpers *)

Definition len {A} (l : list A) : Z := Z.of_nat (length l).

Definition nl : string := String "010"%char EmptyString.

(** [sep.join(parts)] *)
Fixpoint join (sep : string) (parts : list string) : string :=
  match parts with
  | [] => ""
  | [p] => p
  | p :: rest => p +:+ sep +:+ join sep rest
  end.

(** *** Characters and [str.strip()]

    A text is held as its UTF-8 bytes, and [str.strip()] works on code
    points, so the bytes are first grouped into characters. *)

(** A continuation byte of UTF-8, [10xxxxxx]. *)
Definition is_cont (a : ascii) : bool :=
  let n := N_of_ascii a in ((128 <=? n) && (n <? 192))%N.

Definition starts_cont (c : list ascii) : bool :=
  match c with
  | a :: _ => is_cont a
  | [] => false
  end.

(** The characters of a text, each as its UTF-8 bytes: a byte joins the
    character that follows it when that one begins with a continuation
    byte, and stands alone otherwise. *)
Fixpoint characters (l : list ascii) : list (list ascii) :=
  match l with
  | [] => []
  | a :: l' =>
      match characters l' with
      | c :: cs => if starts_cont c then (a :: c) :: cs else [a] :: c :: cs
      | [] => [[a]]
      end
  end.

(** The code points [str.isspace()] holds of, which are those
    [str.strip()] removes. *)
Definition WHITESPACE : list Z :=
  [0x9; 0xa; 0xb; 0xc; 0xd; 0x1c; 0x1d; 0x1e; 0x1f; 0x20; 0x85; 0xa0; 0x1680;
   0x2000; 0x2001; 0x2002; 0x2003; 0x2004; 0x2005; 0x2006; 0x2007; 0x2008;
   0x2009; 0x200a; 0x2028; 0x2029; 0x202f; 0x205f; 0x3000].

Definition byte (n : Z) : ascii := ascii_of_N (Z.to_N n).

(** UTF-8 of a code point below 0x10000 that is not a surrogate. *)
Definition utf8_char (c : Z) : list ascii :=
  if c <? 0x80 then [byte c]
  else if c <? 0x800 then [byte (0xc0 + c / 0x40); byte (0x80 + c mod 0x40)]
  else [byte (0xe0 + c / 0x1000); byte (0x80 + c / 0x40 mod 0x40); byte (0x80 + c mod 0x40)].

(** Is the character whitespace? *)
Definition is_space (c : list ascii) : bool :=
  bool_decide (c ∈ utf8_char <$> WHITESPACE).

Fixpoint lstrip (l : list (list ascii)) : list (list ascii) :=
  match l with
  | c :: l' => if is_space c then lstrip l' else l
  | [] => []
  end.

Definition str_strip (s : string) : string :=
  string_of_list_ascii
    (concat (rev (lstrip (rev (lstrip (characters (list_ascii_of_string s))))))).

(** [str.lower()] within ASCII.  The program only compares the result
    with [".pdf"]; no character outside ASCII lower-cases to one of
    [.], [p], [d], [f], so the comparison comes out as in Python. *)
Definition lower_ascii (a : ascii) : ascii :=
  let n := N_of_ascii a in
  if ((65 <=? n) && (n <=? 90))%N then ascii_of_N (n + 32) else a.

Definition str_lower (s : string) : string :=
  string_of_list_ascii (map lower_ascii (list_ascii_of_string s)).

(** Normalisation of one slice bound against a length [n]. *)
Definition clamp (k n : Z) : Z := if k <? 0 then Z.max 0 (k + n) else Z.min k n.

(** [l[i:j]] *)
Definition py_slice {A} (l : list A) (i j : Z) : list A :=
  let a := clamp i (len l) in
  let b := clamp j (len l) in
  take (Z.to_nat (b - a)) (drop (Z.to_nat a) l).

(** Number of elements of [range(start, stop, step)], [step <> 0]. *)
Definition range_len (start stop step : Z) : nat :=
  if 0 <? step then Z.to_nat ((stop - start + step - 1) / step)
  else Z.to_nat ((start - stop - step - 1) / (- step)).

(** ** Exceptions *)

Inductive EngineFault :=
| Unreachable
| AlreadyExists (collection : string)
| NotFound (collection : string)
| BadRequest (detail : string).

Inductive Exn :=
| ValueError (msg : string)
| RuntimeError (msg : string)
| KeyError (key : string)
| IndexError (msg : string)
| FileNotFoundError (msg : string)
| OSError (msg : string)              (* raised inside pathlib *)
| ProviderError (detail : string)     (* raised inside the OpenAI client *)
| ReaderError (detail : string)       (* raised inside the PDF reader *)
| EngineError (fault : EngineFault).  (* raised inside the Qdrant client *)

(** The spec's names for the validation failures of [embed_texts]. *)
Definition InvalidInput : Exn := ValueError "embed_texts received empty input".
Definition CountMismatch : Exn := RuntimeError "Embedding count mismatch".
Definition DimensionMismatch : Exn := RuntimeError "Embedding dimension mismatch".
Definition MissingQuestion : Exn := ValueError "Missing question".
Definition StoreUnreachable : Exn := EngineError Unreachable.

(** ** The vector engine *)

Inductive Distance := COSINE | EUCLID | DOT | MANHATTAN.

Record VectorParams := mkVectorParams { size : Z; distance : Distance }.

Section Model.

(** Vector components are Python floats; this program never inspects
    them, so their type is left open. *)
Context {float : Type}.

Local Abbreviation Vec := (list float).

Record PointStruct := mkPoint {
  ps_id : string;
  ps_vector : Vec;
  ps_payload : option (gmap string string);
}.

Record ScoredPoint := mkScored {
  sp_id : string;
  sp_score : float;
  sp_payload : option (gmap string string);
}.

Record Collection := mkCollection {
  config : VectorParams;
  points : gmap string (Vec * option (gmap string string));
}.

Record Engine := mkEngine {
  reachable : bool;
  collections : gmap string Collection;
}.

(** *** Calls that leave the process *)

Inductive Call :=
| EmbeddingsCreate (model : string) (input : list string)
| GetCollections
| CollectionExists (name : string)
| CreateCollection (name : string) (vectors_config : VectorParams)
| Upsert (name : string) (pts : list PointStruct)
| QueryPoints (name : string) (query : Vec) (limit : Z)
| ResponsesCreate (model input : string) (max_output_tokens : Z).

Record World := mkWorld {
  engine : Engine;
  trace : list Call;
}.

(** *** Collaborators outside the model

    Each provider answers as a function of the calls made so far and of
    the request, which covers any stateful provider. *)

Record Services := mkServices {
  (* [[item.embedding for item in client.embeddings.create(...).data]] *)
  embeddings_create : list Call -> string -> list string -> Exn + list Vec;
  (* [openai_client.responses.create(...).output_text] *)
  responses_create : list Call -> string -> string -> Z -> Exn + string;
  (* the engine's ordering of a collection by similarity to a query *)
  ranked : Vec -> gmap string (Vec * option (gmap string string)) -> list ScoredPoint;
  (* [str(Path(path).expanduser().resolve())], or what [expanduser] or
     [resolve] raises *)
  path_resolve : string -> Exn + string;
  (* [pdf_path.exists()], or the error of the file system it lets through *)
  path_exists : string -> Exn + bool;
  (* [pdf_path.suffix] *)
  path_suffix : string -> string;
  (* [[d.text for d in PDFReader().load_data(file=p)]] *)
  pdf_load_data : string -> Exn + list string;
  (* [SentenceSplitter(chunk_size=1000, chunk_overlap=200).split_text] *)
  split_text : string -> list string;
}.

(** *** State and exception monad *)

Definition M (A : Type) : Type := World -> World * (Exn + A).

Definition ret {A} (a : A) : M A := fun w => (w, inr a).

Definition raise {A} (e : Exn) : M A := fun w => (w, inl e).

(** The answer of a collaborator that is asked without a recorded call. *)
Definition answer_of {A} (r : Exn + A) : M A := fun w => (w, r).

Definition bind {A B} (m : M A) (k : A -> M B) : M B :=
  fun w => match m w with
           | (w', inl e) => (w', inl e)
           | (w', inr a) => k a w'
           end.

Definition log (c : Call) (w : World) : World :=
  mkWorld (engine w) (trace w ++ [c]).

End Model.

Arguments PointStruct : clear implicits.
Arguments ScoredPoint : clear implicits.
Arguments Collection : clear implicits.
Arguments Engine : clear implicits.
Arguments Call : clear implicits.
Arguments World : clear implicits.
Arguments Services : clear implicits.
Arguments M : clear implicits.

Declare Scope py_scope.
Delimit Scope py_scope with py.
Notation "x <- m ;; k" := (bind m (fun x => k))
  (at level 100, m at next level, right associativity) : py_scope.
Notation "m ;;; k" := (bind m (fun _ => k))
  (at level 100, right associativity) : py_scope.
Local Open Scope py_scope.

(** ** The program *)

Definition EMBED_MODEL : string := "text-embedding-3-large".
Definition EMBED_DIM : Z := 3072.

(** The answer returned when retrieval finds nothing; the bytes are those
    of the literal in [main.py]. *)
Definition FALLBACK_ANSWER : string := "I donâ€™t know based on the provided context.".

(** [{"contexts": ..., "sources": ...}] *)
Record SearchResult := mkSearchResult {
  contexts : list string;
  sources : list string;
}.

(** [{"answer": ..., "sources": ..., "num_contexts": ...}] *)
Record QueryAnswer := mkQueryAnswer {
  answer : string;
  qa_sources : list string;
  num_contexts : Z;
}.

(** [ctx.event.data] of the two triggers, with the fields typed as the
    trigger interface declares them; [None] is an absent key. *)
Record IngestEvent := mkIngestEvent {
  ev_pdf_path : option string;
  ev_source_id : option string;
}.

Record QueryEvent := mkQueryEvent {
  ev_question : option string;
  ev_top_k : option Z;
}.

(** [{"source_id": ..., "chunks": ...}] *)
Record ChunkData := mkChunkData {
  cd_source_id : string;
  cd_chunks : list string;
}.

(** The handle built by [QdrantStorage.__init__]; [self.client] is the
    connection to the engine of the world.  The world has the one engine
    the process is configured for, and the url of a handle names it: the
    model does not follow clients built for several urls at once. *)
Record QdrantStorage := mkStorage {
  client_url : string;
  collection : string;
}.

Section Program.

Context {float : Type} (svc : Services float).

Local Abbreviation M := (M float).
Local Abbreviation Vec := (list float).

(** *** Python sequences inside the monad *)

(** [l[i]] for [0 <= i] *)
Definition py_index {A} (l : list A) (i : nat) : M A :=
  match l !! i with
  | Some x => ret x
  | None => raise (IndexError "list index out of range")
  end.

(** [range(start, stop, step)] *)
Definition py_range (start stop step : Z) : M (list Z) :=
  if step =? 0 then raise (ValueError "range() arg 3 must not be zero")
  else ret ((fun k => start + Z.of_nat k * step) <$> seq 0 (range_len start stop step)).

(** A [for] loop threading the variables it updates. *)
Fixpoint for_each {A S} (xs : list A) (body : S -> A -> M S) (s : S) : M S :=
  match xs with
  | [] => ret s
  | x :: xs' => s' <- body s x ;; for_each xs' body s'
  end.

(** A list comprehension whose element expression may raise. *)
Fixpoint comprehension {A B} (xs : list A) (elt : A -> M B) : M (list B) :=
  match xs with
  | [] => ret []
  | x :: xs' => y <- elt x ;; ys <- comprehension xs' elt ;; ret (y :: ys)
  end.

(** *** data_loder.py *)

Definition load_and_chunk_pdf (path : string) : M (list string) :=
  pdf_path <- answer_of (path_resolve svc path) ;;
  found <- answer_of (path_exists svc pdf_path) ;;
  if negb found then
    raise (FileNotFoundError ("PDF not found: " +:+ pdf_path))
  else if negb (String.eqb (str_lower (path_suffix svc pdf_path)) ".pdf") then
    raise (ValueError ("Not a PDF file: " +:+ pdf_path))
  else
    match pdf_load_data svc pdf_path with
    | inl e => raise e
    | inr docs =>
        let texts :=
          str_strip <$>
            filter (fun d => d ≠ "" ∧ str_strip d ≠ "") docs in
        match texts with
        | [] => raise (ValueError "No extractable text found in PDF")
        | _ =>
            let chunks := fold_left (fun chunks text => chunks ++ split_text svc text) texts [] in
            match chunks with
            | [] => raise (ValueError "Chunking produced no text")
            | _ => ret chunks
            end
        end
    end.

(** [client.embeddings.create(model=..., input=batch)], reduced to the
    embeddings of [response.data]. *)
Definition client_embeddings_create (model : string) (input : list string) : M (list Vec) :=
  fun w => (log (EmbeddingsCreate model input) w,
            embeddings_create svc (trace w) model input).

Definition embed_texts (texts : list string) (batch_size : Z) : M (list Vec) :=
  match texts with
  | [] => raise (ValueError "embed_texts received empty input")
  | _ =>
      starts <- py_range 0 (len texts) batch_size ;;
      all_embeddings <-
        for_each starts
          (fun all_embeddings i =>
             let batch := py_slice texts i (i + batch_size) in
             data <- client_embeddings_create EMBED_MODEL batch ;;
             ret (all_embeddings ++ data))
          [] ;;
      if negb (len all_embeddings =? len texts) then
        raise (RuntimeError "Embedding count mismatch")
      else
        first <- py_index all_embeddings 0 ;;
        if negb (len first =? EMBED_DIM) then
          raise (RuntimeError "Embedding dimension mismatch")
        else ret all_embeddings
  end.

(** *** The Qdrant client *)

(** Modelled from the spec: the engine behind [qdrant_client], which is
    not part of the repository.  A call is recorded, then answered by the
    engine; an engine that cannot be reached fails every call (section
    4.3, "fails fast ... if not" reachable). *)
Definition engine_call {A} (c : Call float)
    (op : Engine float -> Exn + (Engine float * A)) : M A :=
  fun w =>
    let w' := log c w in
    if reachable (engine w) then
      match op (engine w) with
      | inl e => (w', inl e)
      | inr (e', a) => (mkWorld e' (trace w'), inr a)
      end
    else (w', inl (EngineError Unreachable)).

(** Modelled from the spec: [client.get_collections()], the names of the
    collections of the engine. *)
Definition client_get_collections : M (list string) :=
  engine_call GetCollections
    (fun e => inr (e, elements (dom (collections e)))).

(** Modelled from the spec: [client.collection_exists(collection_name=...)],
    the existence check of section 6. *)
Definition client_collection_exists (name : string) : M bool :=
  engine_call (CollectionExists name)
    (fun e => inr (e, bool_decide (is_Some (collections e !! name)))).

(** Modelled from the spec: [client.create_collection(...)], creation of a
    named, empty collection; section 4.3 has the engine answer "already
    exists" when the name is taken. *)
Definition client_create_collection (name : string) (cfg : VectorParams) : M unit :=
  engine_call (CreateCollection name cfg)
    (fun e =>
       match collections e !! name with
       | Some _ => inl (EngineError (AlreadyExists name))
       | None =>
           inr (mkEngine (reachable e)
                  (<[name := mkCollection cfg ∅]> (collections e)), tt)
       end).

(** The texts the engine takes as a UUID: 32 hexadecimal digits, the
    hyphenated form, or the hyphenated form after ["urn:uuid:"]. *)
Definition is_hex_digit (a : ascii) : bool :=
  let n := N_of_ascii a in
  ((48 <=? n) && (n <=? 57) || (97 <=? n) && (n <=? 102) || (65 <=? n) && (n <=? 70))%N.

Definition simple_uuid (l : list ascii) : bool :=
  (length l =? 32)%nat && forallb is_hex_digit l.

Definition hyphenated_uuid (l : list ascii) : bool :=
  (length l =? 36)%nat
  && forallb (fun ia : nat * ascii =>
                if bool_decide (ia.1 ∈ [8; 13; 18; 23]%nat)
                then bool_decide (ia.2 = "-"%char) else is_hex_digit ia.2)
             (imap pair l).

(** Modelled from the spec: the ids the engine takes for a point.  The
    engine documents unsigned integers and UUIDs; the program sends
    texts only. *)
Definition is_point_id (id : string) : bool :=
  let l := list_ascii_of_string id in
  simple_uuid l || hyphenated_uuid l
  || bool_decide (take 9 l = list_ascii_of_string "urn:uuid:") && hyphenated_uuid (drop 9 l).

(** Modelled from the spec: what the engine requires of the points of an
    upsert: at least one point, every id a point id, and every vector of
    the size of the collection (section 3: "length == EMBED_DIM for every
    vector ever stored or queried; violation is a fatal validation
    error"). *)
Definition points_accepted (c : Collection float) (pts : list (PointStruct float)) : bool :=
  match pts with
  | [] => false
  | _ => forallb (fun p => is_point_id (ps_id p) && (len (ps_vector p) =? size (config c))) pts
  end.

(** Modelled from the spec: the write of one point, "an insert-or-overwrite
    operation keyed by identifier" (glossary, Upsert). *)
Definition write_point (pts : gmap string (Vec * option (gmap string string)))
    (p : PointStruct float) : gmap string (Vec * option (gmap string string)) :=
  <[ps_id p := (ps_vector p, ps_payload p)]> pts.

(** Modelled from the spec: [client.upsert(collection_name=..., points=...)],
    which "writes or overwrites each point by id" (section 4.3), in the
    order given; a request the engine does not accept is refused as a
    whole and writes nothing. *)
Definition client_upsert (name : string) (pts : list (PointStruct float)) : M unit :=
  engine_call (Upsert name pts)
    (fun e =>
       match collections e !! name with
       | None => inl (EngineError (NotFound name))
       | Some c =>
           if negb (points_accepted c pts) then inl (EngineError (BadRequest "points"))
           else
             let c' := mkCollection (config c) (fold_left write_point pts (points c)) in
             inr (mkEngine (reachable e) (<[name := c']> (collections e)), tt)
       end).

(** Modelled from the spec: [client.query_points(..., limit=..., with_payload=True)],
    which "returns up to topK nearest points" (section 4.3): the first
    [limit] points of the engine's ranking of the collection; a limit
    below one is refused, and so is a query vector that has not the size
    of the collection (section 3). *)
Definition client_query_points (name : string) (query : Vec) (limit : Z)
    : M (list (ScoredPoint float)) :=
  engine_call (QueryPoints name query limit)
    (fun e =>
       match collections e !! name with
       | None => inl (EngineError (NotFound name))
       | Some c =>
           if limit <? 1 then inl (EngineError (BadRequest "limit"))
           else if negb (len query =? size (config c))
           then inl (EngineError (BadRequest "vector"))
           else inr (e, take (Z.to_nat limit) (ranked svc query (points c)))
       end).

(** *** vectore_db.py *)

Definition QdrantStorage_init (url collection : string) (dim : Z) : M QdrantStorage :=
  let self := mkStorage url collection in
  (* fail fast if qdrant is unreachable *)
  client_get_collections ;;;
  found <- client_collection_exists collection ;;
  (if negb found then
     client_create_collection collection (mkVectorParams dim COSINE)
   else ret tt) ;;;
  ret self.

(** [QdrantStorage()] *)
Definition QdrantStorage_default : M QdrantStorage :=
  QdrantStorage_init "http://localhost:6333" "docs" 3072.

Definition QdrantStorage_upsert (self : QdrantStorage)
    (ids : list string) (vectors : list Vec) (payloads : list (gmap string string))
    : M unit :=
  pts <- comprehension (seq 0 (length ids))
           (fun i =>
              id <- py_index ids i ;;
              vector <- py_index vectors i ;;
              payload <- py_index payloads i ;;
              ret (mkPoint id vector (Some payload))) ;;
  client_upsert (collection self) pts.

(** One iteration of the loop of [search]. *)
Definition search_visit (acc : list string * gset string) (point : ScoredPoint float)
    : list string * gset string :=
  let '(contexts, sources) := acc in
  let payload := default ∅ (sp_payload point) in
  let contexts :=
    match payload !! "text" with
    | Some text => if bool_decide (text ≠ "") then contexts ++ [text] else contexts
    | None => contexts
    end in
  let sources :=
    match payload !! "source" with
    | Some source => if bool_decide (source ≠ "") then sources ∪ {[source]} else sources
    | None => sources
    end in
  (contexts, sources).

Definition QdrantStorage_search (self : QdrantStorage) (query_vector : Vec) (top_k : Z)
    : M SearchResult :=
  response <- client_query_points (collection self) query_vector top_k ;;
  let '(contexts, sources) := fold_left search_visit response ([], ∅) in
  ret (mkSearchResult contexts (elements sources)).

(** *** main.py: ingestion *)

Definition load_step (data : IngestEvent) : M ChunkData :=
  match ev_pdf_path data with
  | None => raise (KeyError "pdf_path")
  | Some pdf_path =>
      let source_id := default pdf_path (ev_source_id data) in
      chunks <- load_and_chunk_pdf pdf_path ;;
      ret (mkChunkData source_id chunks)
  end.

Definition upsert_step (data : ChunkData) : M Z :=
  let chunks := cd_chunks data in
  let source_id := cd_source_id data in
  vectors <- embed_texts chunks 100 ;;
  let ids := (fun i => deriveId source_id i) <$> seq 0 (length chunks) in
  payloads <- comprehension (seq 0 (length chunks))
                (fun i =>
                   chunk <- py_index chunks i ;;
                   ret ({[ "text" := chunk; "source" := source_id ]} : gmap string string)) ;;
  store <- QdrantStorage_default ;;
  QdrantStorage_upsert store ids vectors payloads ;;;
  ret (len chunks).

(** [step.run(name, fn)] runs [fn] and hands back its result. *)
Definition step_run {A} (name : string) (fn : M A) : M A := fn.

Definition rag_ingest_pdf (data : IngestEvent) : M Z :=
  chunk_result <- step_run "load-and-chunk" (load_step data) ;;
  step_run "embed-and-upsert" (upsert_step chunk_result).

(** *** main.py: query *)

Definition search_step (question : string) (top_k : Z) : M SearchResult :=
  vecs <- embed_texts [question] 100 ;;
  vector <- py_index vecs 0 ;;
  store <- QdrantStorage_default ;;
  QdrantStorage_search store vector top_k.

Definition client_responses_create (model input : string) (max_output_tokens : Z) : M string :=
  fun w => (log (ResponsesCreate model input max_output_tokens) w,
            responses_create svc (trace w) model input max_output_tokens).

Definition rag_query_pdf (data : QueryEvent) : M QueryAnswer :=
  match ev_question data with
  | None => raise (ValueError "Missing question")
  | Some "" => raise (ValueError "Missing question")
  | Some question =>
      let top_k := default 5 (ev_top_k data) in
      search_result <- step_run "embed-and-search" (search_step question top_k) ;;
      match contexts search_result with
      | [] => ret (mkQueryAnswer FALLBACK_ANSWER [] 0)
      | _ =>
          let context_block := join (nl +:+ nl) (contexts search_result) in
          let prompt :=
            "Answer ONLY using the context below." +:+ nl +:+ nl
            +:+ "Context:" +:+ nl +:+ context_block +:+ nl +:+ nl
            +:+ "Question: " +:+ question in
          output_text <-
            client_responses_create "gpt-4o-mini"
              ("SYSTEM:" +:+ nl
               +:+ "Use ONLY the provided context. "
               +:+ "If the answer is not present, say you don't know." +:+ nl +:+ nl
               +:+ "USER:" +:+ nl +:+ prompt)
              512 ;;
          let answer := str_strip output_text in
          ret (mkQueryAnswer answer (sources search_result)
                 (len (contexts search_result)))
      end
  end.

End Program.

(** ** Vocabulary of the statements *)




(** The batches the loop of [embed_texts] cuts [texts] into. *)
Definition batch_starts (n batch_size : Z) : list Z :=
  (fun k => 0 + Z.of_nat k * batch_size) <$> seq 0 (range_len 0 n batch_size).

Definition batches_of {A} (texts : list A) (batch_size : Z) : list (list A) :=
  (fun i => py_slice texts i (i + batch_size)) <$> batch_starts (len texts) batch_size.

Section Vocabulary.

Context {float : Type} (svc : Services float).

(** The provider's answers to [batches] sent one after the other, the
    first one after the calls [tr]. *)
Fixpoint responses (tr : list (Call float)) (batches : list (list string))
    : list (Exn + list (list float)) :=
  match batches with
  | [] => []
  | b :: rest =>
      embeddings_create svc tr EMBED_MODEL b
        :: responses (tr ++ [EmbeddingsCreate EMBED_MODEL b]) rest
  end.

(** The loop of [embed_texts] over its batches. *)
Definition embed_loop (batches : list (list string)) (acc : list (list float))
    : M float (list (list float)) :=
  for_each batches
    (fun all_embeddings batch =>
       data <- client_embeddings_create svc EMBED_MODEL batch ;;
       ret (all_embeddings ++ data))
    acc.

(** The checks of [embed_texts] after its loop. *)
Definition validate (texts : list string) (all_embeddings : list (list float))
    : M float (list (list float)) :=
  if negb (len all_embeddings =? len texts) then raise CountMismatch
  else
    first <- py_index all_embeddings 0 ;;
    if negb (len first =? EMBED_DIM) then raise DimensionMismatch
    else ret all_embeddings.

(** The calls made between two worlds of one run. *)
Definition new_calls (w w' : World float) : list (Call float) :=
  drop (length (trace w)) (trace w').

Definition is_embedding_call (c : Call float) : bool :=
  match c with EmbeddingsCreate _ _ => true | _ => false end.

Definition is_upsert_call (c : Call float) : bool :=
  match c with Upsert _ _ => true | _ => false end.

Definition is_generate_call (c : Call float) : bool :=
  match c with ResponsesCreate _ _ _ => true | _ => false end.

(** [__init__] of [QdrantStorage] while another client of the same engine
    acts between the existence check and the creation call; whatever
    the other client gets back is its own business. *)
Definition QdrantStorage_init_interleaved {A} (other : M float A)
    (url collection : string) (dim : Z) : M float QdrantStorage :=
  let self := mkStorage url collection in
  client_get_collections ;;;
  found <- client_collection_exists collection ;;
  (fun w => ((other w).1, inr tt)) ;;;
  (if negb found then
     client_create_collection collection (mkVectorParams dim COSINE)
   else ret tt) ;;;
  ret self.

(** A computation that neither calls out nor touches the engine. *)
Definition pure {A} (m : M float A) (g : Exn + A) : Prop := forall w, m w = (w, g).

(** The ids and payloads [upsert_step] computes for its chunks. *)
Definition chunk_ids (data : ChunkData) : list string :=
  (fun i => deriveId (cd_source_id data) i) <$> seq 0 (length (cd_chunks data)).

Definition chunk_payloads (data : ChunkData) : list (gmap string string) :=
  (fun chunk => {[ "text" := chunk; "source" := cd_source_id data ]}) <$> cd_chunks data.

(** Every call a computation makes satisfies [P]. *)
Definition calls_only {A} (P : Call float -> Prop) (m : M float A) : Prop :=
  forall w w' r, m w = (w', r) ->
    exists cs, trace w' = trace w ++ cs /\ Forall P cs.

Definition no_generate (c : Call float) : Prop := is_generate_call c = false.


(** A payload field that [search] keeps: set and not empty. *)
Definition kept_field (key : string) (p : ScoredPoint float) : option string :=
  match default ∅ (sp_payload p) !! key with
  | Some v => if bool_decide (v ≠ "") then Some v else None
  | None => None
  end.

(** The point [upsert] builds at one index. *)
Definition point_at (ids : list string) (vectors : list (list float))
    (payloads : list (gmap string string)) (i : nat) : option (PointStruct float) :=
  id ← ids !! i; vector ← vectors !! i; payload ← payloads !! i;
  Some (mkPoint id vector (Some payload)).

(** The element expression of the comprehension of [upsert]. *)
Definition upsert_elt (ids : list string) (vectors : list (list float))
    (payloads : list (gmap string string)) (i : nat)
    : M float (PointStruct float) :=
  id <- py_index ids i ;;
  vector <- py_index vectors i ;;
  payload <- py_index payloads i ;;
  ret (mkPoint id vector (Some payload)).

(** The points [upsert] sends when its arguments are long enough. *)
Definition zip_points (ids : list string) (vectors : list (list float))
    (payloads : list (gmap string string)) : list (PointStruct float) :=
  zip_with (fun id vp => mkPoint id vp.1 (Some vp.2)) ids (zip vectors payloads).

(** Successive keyed writes into a map, later ones overwriting. *)
Definition writes {V} (l : list (string * V)) (m : gmap string V) : gmap string V :=
  fold_left (fun m kv => <[kv.1 := kv.2]> m) l m.

Definition point_entry (p : PointStruct float)
    : string * (list float * option (gmap string string)) :=
  (ps_id p, (ps_vector p, ps_payload p)).

Definition point_label (p : PointStruct float) : string * option (gmap string string) :=
  (ps_id p, ps_payload p).

(** The points stored in a collection of the engine. *)
Definition stored (w : World float) (name : string)
    : gmap string (list float * option (gmap string string)) :=
  match collections (engine w) !! name with
  | Some c => points c
  | None => ∅
  end.

End Vocabulary.

(** ** Sample collaborators

    Concrete providers and worlds on which the statements below are
    exercised; vector components are integers here. *)

Definition sample_ranked (query : list Z)
    (pts : gmap string (list Z * option (gmap string string))) : list (ScoredPoint Z) :=
  (fun '(id, (_, payload)) => mkScored id 0 payload) <$> map_to_list pts.

(** A provider answering every text with a vector of [dim] zeros. *)
Definition uniform_provider (dim : nat) : Services Z := {|
  embeddings_create := fun _ _ batch => inr ((fun _ => repeat 0 dim) <$> batch);
  responses_create := fun _ _ _ _ => inr "An answer. ";
  ranked := sample_ranked;
  path_resolve := fun p => inr p;
  path_exists := fun _ => inr true;
  path_suffix := fun _ => ".PDF";
  pdf_load_data := fun _ => inr [" alpha info "; ""; "beta info"];
  split_text := fun t => [t];
|}.

(** A provider whose first vector of a batch has the configured length
    and whose other vectors have length one. *)
Definition ragged_provider : Services Z := {|
  embeddings_create := fun _ _ batch =>
    inr (imap (fun i _ => match i with O => repeat 0 3072 | _ => [0] end) batch);
  responses_create := fun _ _ _ _ => inr "An answer. ";
  ranked := sample_ranked;
  path_resolve := fun p => inr p;
  path_exists := fun _ => inr true;
  path_suffix := fun _ => ".pdf";
  pdf_load_data := fun _ => inr ["alpha info"; "beta info"];
  split_text := fun t => [t];
|}.

(** A provider dropping the last vector of every batch. *)
Definition lossy_provider : Services Z := {|
  embeddings_create := fun _ _ batch =>
    inr ((fun _ => repeat 0 3072) <$> take (length batch - 1) batch);
  responses_create := fun _ _ _ _ => inr "An answer. ";
  ranked := sample_ranked;
  path_resolve := fun p => inr p;
  path_exists := fun _ => inr true;
  path_suffix := fun _ => ".pdf";
  pdf_load_data := fun _ => inr ["alpha info"; "beta info"];
  split_text := fun t => [t];
|}.

(** A reachable engine holding nothing, and no call made yet. *)
Definition world0 : World Z := mkWorld (mkEngine true ∅) [].

(** The event of an ingestion whose caller passes an empty source id. *)
Definition ingest_unnamed : IngestEvent := mkIngestEvent (Some "notes.pdf") (Some "").

(** The world after that ingestion into the empty engine. *)
Definition world_unnamed : World Z :=
  (rag_ingest_pdf (uniform_provider 3072) ingest_unnamed world0).1.

Definition default_store : QdrantStorage := mkStorage "http://localhost:6333" "docs".

(** A query against the empty engine. *)
Definition query_alpha : QueryEvent := mkQueryEvent (Some "What is alpha?") None.

(** An ingestion of a two-page document under the source id ["doc1"]. *)
Definition ingest_doc1 : IngestEvent := mkIngestEvent (Some "doc1.pdf") (Some "doc1").

(** ** Vocabulary for the rest of the program *)

(** A text made of whitespace characters only (the empty text included). *)
Definition blank (s : string) : Prop :=
  Forall (fun c => is_space c = true) (characters (list_ascii_of_string s)).

(** No whitespace at the head of a list of characters. *)
Definition head_clear (l : list (list ascii)) : Prop :=
  match l with
  | [] => True
  | c :: _ => is_space c = false
  end.

(** A text with no whitespace character at either end. *)
Definition trimmed (s : string) : Prop :=
  head_clear (characters (list_ascii_of_string s))
  /\ head_clear (rev (characters (list_ascii_of_string s))).

(** Character groups as [characters] makes them: none is empty, all
    bytes but the first of a group are continuation bytes, and every
    group but the first begins with a byte that is not one. *)
Definition grouped (cs : list (list ascii)) : Prop :=
  Forall (fun c => c <> [] /\ forallb is_cont (tail c) = true) cs
  /\ Forall (fun c => starts_cont c = false) (tail cs).

(** U+00A0, the no-break space, and U+3000, the ideographic space. *)
Definition nbsp : string := String "194" (String "160" EmptyString).
Definition wide_space : string := String "227" (String "128" (String "128" EmptyString)).

(** A provider whose pages and answers carry whitespace outside ASCII. *)
Definition padded_provider : Services Z := {|
  embeddings_create := fun _ _ batch => inr ((fun _ => repeat 0 3072) <$> batch);
  responses_create := fun _ _ _ _ => inr (nbsp +:+ "An answer." +:+ wide_space +:+ nl);
  ranked := sample_ranked;
  path_resolve := fun p => inr ("/data/" +:+ p);
  path_exists := fun _ => inr true;
  path_suffix := fun _ => ".Pdf";
  pdf_load_data := fun _ => inr [nbsp +:+ " alpha info "; nbsp; "beta info" +:+ wide_space; ""];
  split_text := fun t => [t];
|}.

(** A scanned document: every page comes out blank. *)
Definition scanned_provider : Services Z := {|
  embeddings_create := fun _ _ batch => inr ((fun _ => repeat 0 3072) <$> batch);
  responses_create := fun _ _ _ _ => inr "An answer.";
  ranked := sample_ranked;
  path_resolve := fun p => inr p;
  path_exists := fun _ => inr true;
  path_suffix := fun _ => ".pdf";
  pdf_load_data := fun _ => inr [""; nbsp; " " +:+ wide_space +:+ nl];
  split_text := fun t => [t];
|}.

(** A file system that refuses to look at the path. *)
Definition locked_provider : Services Z := {|
  embeddings_create := fun _ _ batch => inr ((fun _ => repeat 0 3072) <$> batch);
  responses_create := fun _ _ _ _ => inr "An answer.";
  ranked := sample_ranked;
  path_resolve := fun p => inr p;
  path_exists := fun _ => inl (OSError "Permission denied");
  path_suffix := fun _ => ".pdf";
  pdf_load_data := fun _ => inr ["alpha info"];
  split_text := fun t => [t];
|}.

(** The suffixes [load_and_chunk_pdf] lets through. *)
Definition pdf_suffixes : list string :=
  [".pdf"; ".pdF"; ".pDf"; ".pDF"; ".Pdf"; ".PdF"; ".PDf"; ".PDF"].

(** The page texts [load_and_chunk_pdf] hands to the splitter. *)
Definition page_texts (docs : list string) : list string :=
  str_strip <$> filter (fun d => d ≠ "" ∧ str_strip d ≠ "") docs.

(** A provider that answers its first call and raises on every later one. *)
Definition flaky_provider : Services Z := {|
  embeddings_create := fun tr _ batch =>
    match tr with
    | [] => inr ((fun _ => repeat 0 3072) <$> batch)
    | _ => inl (ProviderError "rate limit")
    end;
  responses_create := fun _ _ _ _ => inl (ProviderError "overloaded");
  ranked := sample_ranked;
  path_resolve := fun p => inr p;
  path_exists := fun _ => inr true;
  path_suffix := fun _ => ".pdf";
  pdf_load_data := fun _ => inr ["alpha info"; "beta info"];
  split_text := fun t => [t];
|}.

(** The text [rag_query_pdf] sends to the generative model. *)
Definition synthesis_input (contexts : list string) (question : string) : string :=
  "SYSTEM:" +:+ nl
  +:+ "Use ONLY the provided context. "
  +:+ "If the answer is not present, say you don't know." +:+ nl +:+ nl
  +:+ "USER:" +:+ nl
  +:+ ("Answer ONLY using the context below." +:+ nl +:+ nl
       +:+ "Context:" +:+ nl +:+ join (nl +:+ nl) contexts +:+ nl +:+ nl
       +:+ "Question: " +:+ question).

(** The calls of [QdrantStorage()] against an engine that has, or has
    not, the ["docs"] collection. *)
Definition default_open_calls {float} (w : World float) : list (Call float) :=
  [GetCollections; CollectionExists "docs"]
  ++ match collections (engine w) !! "docs" with
     | Some _ => []
     | None => [CreateCollection "docs" (mkVectorParams 3072 COSINE)]
     end.

(** The engine once [QdrantStorage()] has been constructed against it. *)
Definition with_docs {float} (e : Engine float) : Engine float :=
  match collections e !! "docs" with
  | Some _ => e
  | None =>
      mkEngine (reachable e)
        (<["docs" := mkCollection (mkVectorParams 3072 COSINE) ∅]> (collections e))
  end.

(** The world after the ingestion of ["doc1"] into the empty engine. *)
Definition world_doc1 : World Z :=
  (rag_ingest_pdf (uniform_provider 3072) ingest_doc1 world0).1.

(** The digits of a lower-case hexadecimal rendering. *)
Definition hex_chars : list ascii := list_ascii_of_string "0123456789abcdef".

(** ** streamlit_app.py *)

(** The errors of the page's helpers: an exception of the request made
    by [fetch_runs], the [RuntimeError] of a failed run and the
    [TimeoutError] of the deadline. *)
Inductive UiExn :=
  | RequestError (msg : string)
  | UiRuntimeError (msg : string)
  | TimeoutError (msg : string).

(** [if submit and user_question.strip(): send_query_event(user_question.strip(), int(top_k))]:
    the event the page sends for a submitted form, if any.  [top_k] is the
    integer of the slider. *)
Definition ui_query_event (submit : bool) (user_question : string) (top_k : Z)
    : option QueryEvent :=
  if submit && negb (String.eqb (str_strip user_question) "")
  then Some (mkQueryEvent (Some (str_strip user_question)) (Some top_k))
  else None.

Definition STATUS_DONE : list string := ["Completed"; "Succeeded"; "Success"; "Finished"].
Definition STATUS_FAILED : list string := ["Failed"; "Cancelled"].

(** [status in (...)] for a status that is a text or [None]. *)
Definition status_in (status : option string) (l : list string) : bool :=
  match status with
  | Some s => bool_decide (s ∈ l)
  | None => false
  end.

(** [status or last_status] *)
Definition status_or (status last_status : option string) : option string :=
  match status with
  | None | Some "" => last_status
  | Some s => Some s
  end.

(** [f"{last_status}"] *)
Definition py_str_opt (s : option string) : string := default "None" s.

Definition timeout_message (last_status : option string) : string :=
  "Timed out waiting for result (last status: " +:+ py_str_opt last_status +:+ ")".

Definition failure_message (status : option string) : string :=
  "Inngest run failed: " +:+ py_str_opt status.

Section Page.

(** The JSON values of a run's output, with Python's truth test and the
    empty dict. *)
Context {J : Type}.
Variable truthy : J -> bool.
Variable empty_dict : J.

(** One entry of the run list: [run.get("status")] and
    [run.get("output")], [None] for a missing key. *)
Record Run := mkRun {
  run_status : option string;
  run_output : option J;
}.

(** What one turn of the polling loop observes: the answer of
    [fetch_runs] and, if the turn gets that far, whether
    [time.time() - start > timeout_s] holds. *)
Record Poll := mkPoll {
  fetched : string + list Run;
  late : bool;
}.

(** [run.get("output") or {}] *)
Definition output_or_empty (run : Run) : J :=
  match run_output run with
  | Some out => if truthy out then out else empty_dict
  | None => empty_dict
  end.

(** The [while True] loop of [wait_for_output] over the observations of
    its turns; [None] when the loop is still running after them. *)
Fixpoint wait_loop (polls : list Poll) (last_status : option string) : option (UiExn + J) :=
  match polls with
  | [] => None
  | p :: polls' =>
      match fetched p with
      | inl e => Some (inl (RequestError e))
      | inr [] =>
          if late p then Some (inl (TimeoutError (timeout_message last_status)))
          else wait_loop polls' last_status
      | inr (run :: _) =>
          let status := run_status run in
          let last_status := status_or status last_status in
          if status_in status STATUS_DONE then Some (inr (output_or_empty run))
          else if status_in status STATUS_FAILED
          then Some (inl (UiRuntimeError (failure_message status)))
          else if late p then Some (inl (TimeoutError (timeout_message last_status)))
          else wait_loop polls' last_status
      end
  end.

Definition wait_for_output (polls : list Poll) : option (UiExn + J) :=
  wait_loop polls None.

(** A turn that decides nothing: the request went through and the first
    run, if there is one, has a status outside both lists. *)
Definition waiting (p : Poll) : bool :=
  match fetched p with
  | inl _ => false
  | inr [] => true
  | inr (run :: _) =>
      negb (status_in (run_status run) STATUS_DONE)
      && negb (status_in (run_status run) STATUS_FAILED)
  end.

(** A turn after which the loop sleeps and goes round again. *)
Definition pending (p : Poll) : bool := waiting p && negb (late p).

(** The status the loop remembers after a turn. *)
Definition seen (last_status : option string) (p : Poll) : option string :=
  match fetched p with
  | inr (run :: _) => status_or (run_status run) last_status
  | _ => last_status
  end.

Definition last_seen (polls : list Poll) (last_status : option string) : option string :=
  fold_left seen polls last_status.

End Page.

(** * Properties *)

(** ** Test vectors for the hash and the id rendering *)

Example sha1_abc :
  Sha1.digest (utf8 "abc") =
  Sha1.be_bytes 20 0xa9993e364706816aba3e25717850c26c9cd0d89d.
Proof. vm_compute. reflexivity. Qed.

Example uuid5_python_org :
  Uuid.str (Uuid.uuid5 Uuid.NAMESPACE_DNS "python.org") = "886313e1-3b8a-5372-9b90-0c9aee199e5d".
Proof. vm_compute. reflexivity. Qed.

Example deriveId_doc1_0 : deriveId "doc1" 0 = "ac3bc37d-f169-5f73-842f-b277e90123ad".
Proof. vm_compute. reflexivity. Qed.

Example deriveId_doc1_1 : deriveId "doc1" 1 = "2102f41f-82a4-5909-a638-d8a95138cf65".
Proof. vm_compute. reflexivity. Qed.

Example utf8_char_vectors :
  utf8_char <$> [0x20; 0x85; 0xa0; 0x1680; 0x2009; 0x3000]
  = list_ascii_of_string <$>
      [" "; String "194" (String "133" EmptyString); nbsp;
       String "225" (String "154" (String "128" EmptyString));
       String "226" (String "128" (String "137" EmptyString)); wide_space].
Proof. vm_compute. reflexivity. Qed.

Example str_strip_margins :
  str_strip (nbsp +:+ nl +:+ " alpha" +:+ nbsp +:+ "info " +:+ wide_space +:+ nl)
  = "alpha" +:+ nbsp +:+ "info".
Proof. vm_compute. reflexivity. Qed.

(** ** The identity scheme *)

Section Identity.









(** *** The hashed name determines the pair *)


Lemma chars_inj (a b : string) :
  list_ascii_of_string a = list_ascii_of_string b -> a = b.
Proof.
  intros H. rewrite <- (string_of_list_ascii_of_string a),
    <- (string_of_list_ascii_of_string b). by rewrite H.
Qed.





(** *** The rendering of a 128-bit id is injective *)


Lemma hex_length n i : length (Uuid.hex n i) = n.
Proof. induction n; simpl; congruence. Qed.



End Identity.

(** ** Batches *)

Section Batches.

Context {A : Type}.
Implicit Types (l : list A) (bs n : Z).

Lemma fmap_ext_in {B C} (f g : B -> C) (xs : list B) :
  (forall x, x ∈ xs -> f x = g x) -> f <$> xs = g <$> xs.
Proof. intros H. apply Forall_fmap_ext_1, Forall_forall. exact H. Qed.

Lemma py_slice_window l i bs :
  0 <= i <= len l -> 0 < bs ->
  py_slice l i (i + bs) = take (Z.to_nat bs) (drop (Z.to_nat i) l).
Proof.
  unfold py_slice, clamp, len. intros Hi Hb.
  destruct (Z.ltb_spec i 0) as [|_]; [lia|].
  destruct (Z.ltb_spec (i + bs) 0) as [|_]; [lia|].
  rewrite (Z.min_l i) by lia.
  destruct (Z.le_gt_cases (i + bs) (Z.of_nat (length l))) as [Hle|Hgt].
  - rewrite Z.min_l by lia. f_equal. lia.
  - rewrite Z.min_r by lia.
    rewrite !take_ge; [done | | ]; rewrite length_drop; lia.
Qed.

(** Number of batches: the ceiling of [n / bs]. *)
Lemma range_len_ceil n bs :
  0 <= n -> 0 < bs ->
  Z.of_nat (range_len 0 n bs) = (n + bs - 1) / bs /\
  (Z.of_nat (range_len 0 n bs) - 1) * bs < n <= Z.of_nat (range_len 0 n bs) * bs.
Proof.
  intros Hn Hb. unfold range_len.
  destruct (Z.ltb_spec 0 bs) as [_|]; [|lia].
  replace (n - 0 + bs - 1) with (n + bs - 1) by lia.
  assert (Hq : 0 <= (n + bs - 1) / bs) by (apply Z.div_pos; lia).
  rewrite Z2Nat.id by exact Hq. split; [reflexivity|].
  pose proof (Z.div_mod (n + bs - 1) bs ltac:(lia)) as Hdm.
  pose proof (Z.mod_pos_bound (n + bs - 1) bs Hb) as Hm.
  nia.
Qed.

Lemma batches_of_windows l bs :
  0 < bs ->
  batches_of l bs =
  (fun k => take (Z.to_nat bs) (drop (k * Z.to_nat bs) l)) <$> seq 0 (range_len 0 (len l) bs).
Proof.
  intros Hb. unfold batches_of, batch_starts. rewrite <- list_fmap_compose.
  apply fmap_ext_in. intros k Hk. apply elem_of_seq in Hk. simpl.
  pose proof (range_len_ceil (len l) bs ltac:(unfold len; lia) Hb) as [_ [Hlo _]].
  rewrite py_slice_window; [|nia|lia]. do 2 f_equal. lia.
Qed.

Lemma windows_concat (b : nat) : forall (c : nat) l,
  (length l <= c * b)%nat ->
  concat ((fun k => take b (drop (k * b) l)) <$> seq 0 c) = l.
Proof.
  induction c as [|c IH]; intros l Hl.
  - destruct l; [done | simpl in Hl; lia].
  - change (seq 0 (S c)) with (0%nat :: seq 1 c).
    rewrite <- fmap_S_seq, fmap_cons, <- list_fmap_compose. simpl concat.
    rewrite drop_0. transitivity (take b l ++ drop b l); [|apply take_drop].
    f_equal.
    transitivity (concat ((fun k => take b (drop (k * b) (drop b l))) <$> seq 0 c));
      [|apply IH; rewrite length_drop; lia].
    f_equal. apply fmap_ext_in. intros k _. simpl.
    rewrite drop_drop. f_equal; f_equal; lia.
Qed.

(** The batches are consecutive and cover the input in order. *)
Lemma batches_of_concat l bs : 0 < bs -> concat (batches_of l bs) = l.
Proof.
  intros Hb. rewrite batches_of_windows by exact Hb. apply windows_concat.
  pose proof (range_len_ceil (len l) bs ltac:(unfold len; lia) Hb) as [_ [_ Hhi]].
  unfold len in Hhi. apply Nat2Z.inj_le. rewrite Nat2Z.inj_mul, Z2Nat.id by lia. exact Hhi.
Qed.

Lemma batches_of_sizes l bs :
  0 < bs -> Forall (fun b => 0 < len b <= bs) (batches_of l bs).
Proof.
  intros Hb. rewrite batches_of_windows by exact Hb.
  apply Forall_fmap, Forall_forall. intros k Hk. apply elem_of_seq in Hk. simpl.
  pose proof (range_len_ceil (len l) bs ltac:(unfold len; lia) Hb) as [_ [Hlo _]].
  unfold len in *. rewrite length_take, length_drop. nia.
Qed.

(** Every batch but the last is full; the last holds the remainder. *)
Lemma batches_of_lengths l bs :
  0 < bs ->
  len <$> batches_of l bs =
  (fun k => Z.min bs (len l - Z.of_nat k * bs)) <$> seq 0 (range_len 0 (len l) bs).
Proof.
  intros Hb. rewrite batches_of_windows by exact Hb. rewrite <- list_fmap_compose.
  apply fmap_ext_in. intros k Hk. apply elem_of_seq in Hk. simpl.
  pose proof (range_len_ceil (len l) bs ltac:(unfold len; lia) Hb) as [_ [Hlo _]].
  unfold len in *. rewrite length_take, length_drop. nia.
Qed.

Lemma batches_of_count l bs :
  0 < bs ->
  len (batches_of l bs) = (len l + bs - 1) / bs /\
  (len (batches_of l bs) - 1) * bs < len l <= len (batches_of l bs) * bs.
Proof.
  intros Hb.
  assert (Hc : len (batches_of l bs) = Z.of_nat (range_len 0 (len l) bs)).
  { unfold batches_of, batch_starts, len at 1. by rewrite !length_fmap, length_seq. }
  rewrite Hc. apply range_len_ceil; [unfold len; lia | exact Hb].
Qed.

End Batches.

(** ** The embedder *)

Section Embedder.

Context {float : Type} (svc : Services float).

Local Abbreviation M := (M float).
Local Abbreviation Vec := (list float).

Lemma bind_run {A B} (m : M A) (k : A -> M B) w w1 a :
  m w = (w1, inr a) -> bind m k w = k a w1.
Proof. unfold bind. by intros ->. Qed.

Lemma bind_fail {A B} (m : M A) (k : A -> M B) w w1 e :
  m w = (w1, inl e) -> bind m k w = (w1, inl e).
Proof. unfold bind. by intros ->. Qed.

Lemma bind_ext {A B} (m m' : M A) (k k' : A -> M B) w :
  m w = m' w -> (forall a w1, k a w1 = k' a w1) -> bind m k w = bind m' k' w.
Proof. unfold bind. intros -> Hk. destruct (m' w) as [w1 [e|a]]; [reflexivity | apply Hk]. Qed.

Lemma for_each_fmap {A B S} (g : A -> B) (xs : list A) (body : S -> B -> M S) s w :
  for_each (g <$> xs) body s w = for_each xs (fun s x => body s (g x)) s w.
Proof.
  revert s w. induction xs as [|x xs IH]; intros s w; simpl; [reflexivity|].
  unfold bind. destruct (body s (g x) w) as [w1 [e|s1]]; [reflexivity | apply IH].
Qed.

Lemma embed_texts_unfold texts batch_size w :
  texts <> [] -> batch_size <> 0 ->
  embed_texts svc texts batch_size w =
  bind (embed_loop svc (batches_of texts batch_size) []) (validate texts) w.
Proof.
  intros Ht Hb. unfold embed_texts. destruct texts as [|t texts]; [done|].
  unfold py_range. destruct (Z.eqb_spec batch_size 0) as [|_]; [done|].
  unfold bind at 1. unfold ret at 1. unfold embed_loop, batches_of.
  fold (batch_starts (len (t :: texts)) batch_size).
  apply bind_ext; [|reflexivity].
  symmetry. apply for_each_fmap.
Qed.

Lemma embed_loop_ok batches : forall acc w datas,
  responses svc (trace w) batches = inr <$> datas ->
  embed_loop svc batches acc w =
  (mkWorld (engine w) (trace w ++ (EmbeddingsCreate EMBED_MODEL <$> batches)),
   inr (acc ++ concat datas)).
Proof.
  induction batches as [|b batches IH]; intros acc w datas Hr.
  - destruct datas; [|done]. simpl. rewrite !app_nil_r. by destruct w.
  - destruct datas as [|d datas]; [done|]. simpl in Hr. injection Hr as Hd Hr.
    unfold embed_loop. simpl. unfold bind at 1. unfold bind at 1.
    unfold client_embeddings_create at 1. rewrite Hd. unfold ret at 1.
    fold (embed_loop svc batches (acc ++ d)).
    rewrite (IH (acc ++ d) (log (EmbeddingsCreate EMBED_MODEL b) w) datas Hr).
    simpl. by rewrite <- !app_assoc.
Qed.

Lemma embed_loop_inv batches : forall acc w w' r,
  embed_loop svc batches acc w = (w', r) ->
  engine w' = engine w /\
  match r with
  | inr vs =>
      trace w' = trace w ++ (EmbeddingsCreate EMBED_MODEL <$> batches) /\
      exists datas, responses svc (trace w) batches = inr <$> datas /\
                    vs = acc ++ concat datas
  | inl e =>
      exists n datas,
        (n < length batches)%nat /\
        trace w' = trace w ++ (EmbeddingsCreate EMBED_MODEL <$> take (S n) batches) /\
        responses svc (trace w) (take (S n) batches) = (inr <$> datas) ++ [inl e]
  end.
Proof.
  induction batches as [|b batches IH]; intros acc w w' r Hrun.
  - simpl in Hrun. injection Hrun as <- <-. split; [done|].
    split; [by rewrite app_nil_r|]. exists []. by rewrite app_nil_r.
  - unfold embed_loop in Hrun. simpl in Hrun. unfold bind at 1 in Hrun.
    unfold bind at 1 in Hrun. unfold client_embeddings_create at 1 in Hrun.
    destruct (embeddings_create svc (trace w) EMBED_MODEL b) as [e|d] eqn:Hd.
    + injection Hrun as <- <-. split; [done|].
      exists 0%nat, []. simpl. rewrite Hd. split; [lia|]. done.
    + unfold ret at 1 in Hrun. fold (embed_loop svc batches (acc ++ d)) in Hrun.
      apply IH in Hrun as [He Hr]. split; [exact He|].
      destruct r as [e|vs].
      * destruct Hr as (n & datas & Hn & Htr & Hresp).
        exists (S n), (d :: datas). split; [simpl; lia|]. split.
        -- rewrite Htr. simpl. by rewrite <- app_assoc.
        -- change (take (S (S n)) (b :: batches)) with (b :: take (S n) batches).
           simpl responses. rewrite Hd. simpl in Hresp. rewrite Hresp. done.
      * destruct Hr as (Htr & datas & Hresp & ->). split.
        -- rewrite Htr. simpl. by rewrite <- app_assoc.
        -- exists (d :: datas). simpl. rewrite Hd. simpl in Hresp. rewrite Hresp.
           split; [done|]. by rewrite <- app_assoc.
Qed.

Lemma validate_run (texts : list string) (all_embeddings : list Vec) (w : World float) :
  validate texts all_embeddings w =
  (w, if negb (len all_embeddings =? len texts) then inl CountMismatch
      else match all_embeddings with
           | [] => inl (IndexError "list index out of range")
           | first :: _ =>
               if negb (len first =? EMBED_DIM) then inl DimensionMismatch
               else inr all_embeddings
           end).
Proof.
  unfold validate. destruct (negb (len all_embeddings =? len texts)); [reflexivity|].
  destruct all_embeddings as [|first rest]; [reflexivity|].
  unfold bind, py_index. simpl.
  destruct (negb (len first =? EMBED_DIM)); reflexivity.
Qed.

Lemma new_calls_app (w w' : World float) calls :
  trace w' = trace w ++ calls -> new_calls w w' = calls.
Proof. unfold new_calls. intros ->. by rewrite drop_app_length. Qed.

(** Whatever [embed_texts] does, it leaves the engine alone and calls
    the provider on an initial run of the batches, in order. *)
Lemma embed_texts_calls texts batch_size w w' r :
  embed_texts svc texts batch_size w = (w', r) ->
  engine w' = engine w /\
  exists n, trace w' = trace w ++ (EmbeddingsCreate EMBED_MODEL <$> take n (batches_of texts batch_size)).
Proof.
  intros Hrun. destruct texts as [|t texts].
  { injection Hrun as <- <-. split; [done|]. exists 0%nat. by rewrite app_nil_r. }
  destruct (decide (batch_size = 0)) as [->|Hb].
  { injection Hrun as <- <-. split; [done|]. exists 0%nat. by rewrite app_nil_r. }
  rewrite embed_texts_unfold in Hrun by done.
  unfold bind in Hrun.
  destruct (embed_loop svc (batches_of (t :: texts) batch_size) [] w) as [w1 [e|vs]] eqn:Hloop;
    apply embed_loop_inv in Hloop as [He Hr].
  - injection Hrun as <- <-. split; [done|].
    destruct Hr as (n & datas & _ & Htr & _). by exists (S n).
  - rewrite validate_run in Hrun. injection Hrun as <- <-. split; [done|].
    destruct Hr as [Htr _]. exists (length (batches_of (t :: texts) batch_size)).
    by rewrite take_ge.
Qed.

(** A run of [embed_texts] in which every provider call returned. *)
Lemma embed_texts_answered texts batch_size w datas :
  texts <> [] -> batch_size <> 0 ->
  responses svc (trace w) (batches_of texts batch_size) = inr <$> datas ->
  embed_texts svc texts batch_size w =
  validate texts (concat datas)
    (mkWorld (engine w)
       (trace w ++ (EmbeddingsCreate EMBED_MODEL <$> batches_of texts batch_size))).
Proof.
  intros Ht Hb Hresp. rewrite embed_texts_unfold by done.
  erewrite bind_run; [reflexivity|].
  apply (embed_loop_ok (batches_of texts batch_size) [] w datas Hresp).
Qed.

Lemma embed_texts_returns texts batch_size w w' vs :
  embed_texts svc texts batch_size w = (w', inr vs) ->
  texts <> [] /\ batch_size <> 0 /\
  trace w' = trace w ++ (EmbeddingsCreate EMBED_MODEL <$> batches_of texts batch_size) /\
  engine w' = engine w /\
  len vs = len texts /\
  (exists first rest, vs = first :: rest /\ len first = EMBED_DIM) /\
  exists datas, responses svc (trace w) (batches_of texts batch_size) = inr <$> datas /\
                vs = concat datas.
Proof.
  intros Hrun. destruct texts as [|t texts]; [discriminate Hrun|].
  destruct (decide (batch_size = 0)) as [->|Hb]; [discriminate Hrun|].
  split; [done|]. split; [done|].
  rewrite embed_texts_unfold in Hrun by done. unfold bind in Hrun.
  destruct (embed_loop svc (batches_of (t :: texts) batch_size) [] w) as [w1 [e|all]] eqn:Hloop;
    [discriminate Hrun|].
  apply embed_loop_inv in Hloop as [He (Htr & datas & Hresp & ->)].
  rewrite validate_run in Hrun. simpl app in Hrun.
  destruct (Z.eqb_spec (len (concat datas)) (len (t :: texts))) as [Hlen|]; [|discriminate Hrun].
  simpl negb in Hrun. cbv iota in Hrun.
  destruct (concat datas) as [|first rest] eqn:Hc; [discriminate Hrun|].
  destruct (Z.eqb_spec (len first) EMBED_DIM) as [Hdim|]; [|discriminate Hrun].
  injection Hrun as <- <-.
  repeat split; try done; eauto.
Qed.

End Embedder.

(** ** Claims about the embedder *)

Section EmbedderClaims.

Context {float : Type} (svc : Services float).

(** C4 (batch boundary correctness).  For a non-empty [texts] and a
    positive [batch_size] the batches are consecutive pieces of [texts]
    that concatenate back to it, each holding between one and
    [batch_size] texts, and there are ceil(len(texts) / batch_size) of
    them.  A run of [embed_texts] calls the provider on an initial run
    of these batches, in order; when it returns it has made exactly one
    call per batch and its result is the concatenation of the answers
    in batch order, and it does return whenever the answers pass its
    checks.  With 250 texts and batch size 100 the batches have sizes
    100, 100 and 50. *)
Theorem embed_texts_batches (texts : list string) (batch_size : Z) (w : World float) :
  texts <> [] -> 0 < batch_size ->
  concat (batches_of texts batch_size) = texts /\
  Forall (fun b => 0 < len b <= batch_size) (batches_of texts batch_size) /\
  len (batches_of texts batch_size) = (len texts + batch_size - 1) / batch_size /\
  (len (batches_of texts batch_size) - 1) * batch_size < len texts
    <= len (batches_of texts batch_size) * batch_size /\
  (forall w' r, embed_texts svc texts batch_size w = (w', r) ->
     exists n, new_calls w w' =
               EmbeddingsCreate EMBED_MODEL <$> take n (batches_of texts batch_size)) /\
  (forall w' vs, embed_texts svc texts batch_size w = (w', inr vs) ->
     new_calls w w' = EmbeddingsCreate EMBED_MODEL <$> batches_of texts batch_size /\
     len vs = len texts /\
     exists datas,
       responses svc (trace w) (batches_of texts batch_size) = inr <$> datas /\
       vs = concat datas) /\
  (forall datas first rest,
     responses svc (trace w) (batches_of texts batch_size) = inr <$> datas ->
     len (concat datas) = len texts ->
     concat datas = first :: rest -> len first = EMBED_DIM ->
     exists w', embed_texts svc texts batch_size w = (w', inr (concat datas))) /\
  (len texts = 250 -> batch_size = 100 ->
     len <$> batches_of texts batch_size = [100; 100; 50]).
Proof.
  intros Ht Hb.
  split; [by apply batches_of_concat|].
  split; [by apply batches_of_sizes|].
  split; [by apply batches_of_count|].
  split; [by apply batches_of_count|].
  split; [|split; [|split]].
  - intros w' r Hrun. apply embed_texts_calls in Hrun as [_ [n Htr]].
    exists n. by apply new_calls_app.
  - intros w' vs Hrun. apply embed_texts_returns in Hrun as (_ & _ & Htr & _ & Hl & _ & Hd).
    split; [by apply new_calls_app | split; [exact Hl | exact Hd]].
  - intros datas first rest Hresp Hlen Hc Hdim.
    eexists. rewrite (embed_texts_answered svc texts batch_size w datas) by (done || lia).
    rewrite validate_run, Hlen, Z.eqb_refl. simpl negb. cbv iota.
    rewrite Hc, Hdim, Z.eqb_refl. reflexivity.
  - intros Hn ->. rewrite batches_of_lengths by lia. rewrite Hn. reflexivity.
Qed.

(** C7 (input validation and count guarantee).  [embed_texts] on the
    empty list raises the empty-input error without calling the
    provider; a run that returns yields exactly len(texts) vectors; and
    when every provider call of a run on a non-empty list returned but
    the vectors received do not number len(texts), the run raises the
    count-mismatch error. *)
Theorem embed_texts_validation (texts : list string) (batch_size : Z) (w w' : World float)
    (r : Exn + list (list float)) :
  embed_texts svc texts batch_size w = (w', r) ->
  (texts = [] -> r = inl InvalidInput /\ w' = w) /\
  (forall vs, r = inr vs -> texts <> [] /\ len vs = len texts) /\
  (forall datas,
     texts <> [] -> batch_size <> 0 ->
     responses svc (trace w) (batches_of texts batch_size) = inr <$> datas ->
     len (concat datas) <> len texts ->
     r = inl CountMismatch).
Proof.
  intros Hrun. split; [|split].
  - intros ->. by injection Hrun as <- <-.
  - intros vs ->. by apply embed_texts_returns in Hrun as (? & _ & _ & _ & ? & _).
  - intros datas Ht Hb Hresp Hlen.
    rewrite (embed_texts_answered svc texts batch_size w datas) in Hrun by done.
    rewrite validate_run in Hrun.
    destruct (Z.eqb_spec (len (concat datas)) (len texts)) as [|_]; [done|].
    by injection Hrun as _ <-.
Qed.

End EmbedderClaims.

(** The run of the spec's example: 250 texts, batch size 100, a provider
    answering every text with one vector of the configured length. *)
Example embed_texts_250 :
  let run := embed_texts (uniform_provider 3072) (repeat "chunk" 250) 100 world0 in
  (fun c => match c with EmbeddingsCreate _ input => len input | _ => 0 end) <$> trace run.1
  = [100; 100; 50] /\
  match run.2 with inr vs => len vs | inl _ => -1 end = 250.
Proof. vm_compute. split; reflexivity. Qed.

Lemma embed_texts_batches_witness :
  len <$> batches_of (repeat "chunk" 250) 100 = [100; 100; 50].
Proof.
  refine (proj2 (proj2 (proj2 (proj2 (proj2 (proj2 (proj2
    (embed_texts_batches (uniform_provider 3072) (repeat "chunk" 250) 100 world0 _ _)))))))
    _ _).
  - discriminate.
  - lia.
  - reflexivity.
  - reflexivity.
Defined.

Lemma embed_texts_validation_witness :
  (embed_texts lossy_provider ["a"; "b"; "c"] 2 world0).2 = inl CountMismatch.
Proof.
  refine (proj2 (proj2
    (embed_texts_validation lossy_provider ["a"; "b"; "c"] 2 world0 _ _ _))
    [[repeat 0 3072]; []] _ _ _ _).
  - apply surjective_pairing.
  - discriminate.
  - lia.
  - reflexivity.
  - vm_compute. discriminate.
Defined.

(** ** Running the monad *)

Section Runs.

Context {float : Type} (svc : Services float).

Local Abbreviation M := (M float).

Lemma bind_inv {A B} (m : M A) (k : A -> M B) w w' r :
  bind m k w = (w', r) ->
  (exists e, m w = (w', inl e) /\ r = inl e) \/
  (exists w1 a, m w = (w1, inr a) /\ k a w1 = (w', r)).
Proof.
  unfold bind. destruct (m w) as [w1 [e|a]]; intros H.
  - injection H as <- <-. left. eauto.
  - right. eauto.
Qed.

Lemma pure_ret {A} (a : A) : pure (ret a : M A) (inr a).
Proof. by intros w. Qed.

Lemma pure_py_index {A} (l : list A) i :
  pure (py_index l i : M A)
       (match l !! i with Some x => inr x | None => inl (IndexError "list index out of range") end).
Proof. intros w. unfold py_index. by destruct (l !! i). Qed.

Lemma comprehension_ok {A B} (elt : A -> M B) (f : A -> B) xs :
  (forall x, x ∈ xs -> pure (elt x) (inr (f x))) ->
  pure (comprehension xs elt) (inr (f <$> xs)).
Proof.
  induction xs as [|x xs IH]; intros H w; simpl; [reflexivity|].
  unfold bind at 1. rewrite (H x) by left.
  unfold bind at 1. rewrite IH; [reflexivity|].
  intros y Hy. apply H. by right.
Qed.

Lemma comprehension_fail {A B} (elt : A -> M B) (e : Exn) xs :
  (forall x, x ∈ xs -> pure (elt x) (inl e) \/ exists y, pure (elt x) (inr y)) ->
  (exists x, x ∈ xs /\ pure (elt x) (inl e)) ->
  pure (comprehension xs elt) (inl e).
Proof.
  induction xs as [|x xs IH]; intros H [x0 [Hin Hx0]] w.
  - by apply elem_of_nil in Hin.
  - simpl. unfold bind at 1.
    destruct (H x ltac:(left)) as [Hx|[y Hx]]; rewrite Hx; [reflexivity|].
    unfold bind at 1. rewrite IH; [reflexivity | |].
    + intros z Hz. apply H. by right.
    + apply elem_of_cons in Hin as [->|Hin].
      * pose proof (Hx0 w) as E0. rewrite (Hx w) in E0. discriminate E0.
      * eauto.
Qed.

(** *** The engine *)

Lemma engine_call_down {A} c (op : Engine float -> Exn + (Engine float * A)) w :
  reachable (engine w) = false ->
  engine_call c op w = (log c w, inl StoreUnreachable).
Proof. unfold engine_call. by intros ->. Qed.

Lemma engine_call_up {A} c (op : Engine float -> Exn + (Engine float * A)) w :
  reachable (engine w) = true ->
  engine_call c op w =
  match op (engine w) with
  | inl e => (log c w, inl e)
  | inr (e', a) => (mkWorld e' (trace w ++ [c]), inr a)
  end.
Proof. unfold engine_call. intros ->. by destruct (op (engine w)) as [|[]]. Qed.

(** The three outcomes of [QdrantStorage.__init__]. *)
Lemma init_unreachable url name dim (w : World float) :
  reachable (engine w) = false ->
  QdrantStorage_init url name dim w = (log GetCollections w, inl StoreUnreachable).
Proof.
  intros H. unfold QdrantStorage_init, bind at 1, client_get_collections.
  by rewrite engine_call_down.
Qed.

Lemma init_present url name dim (w : World float) c :
  reachable (engine w) = true -> collections (engine w) !! name = Some c ->
  QdrantStorage_init url name dim w =
  (mkWorld (engine w) (trace w ++ [GetCollections; CollectionExists name]),
   inr (mkStorage url name)).
Proof.
  intros Hr Hc. unfold QdrantStorage_init, bind, client_get_collections,
    client_collection_exists.
  rewrite engine_call_up by exact Hr. rewrite engine_call_up by exact Hr.
  simpl. rewrite Hc. rewrite bool_decide_eq_true_2 by eauto. simpl.
  unfold ret. rewrite <- app_assoc. by destruct (engine w).
Qed.

Lemma init_absent url name dim (w : World float) :
  reachable (engine w) = true -> collections (engine w) !! name = None ->
  QdrantStorage_init url name dim w =
  (mkWorld (mkEngine true
              (<[name := mkCollection (mkVectorParams dim COSINE) ∅]> (collections (engine w))))
     (trace w ++ [GetCollections; CollectionExists name;
                  CreateCollection name (mkVectorParams dim COSINE)]),
   inr (mkStorage url name)).
Proof.
  intros Hr Hc. unfold QdrantStorage_init, bind, client_get_collections,
    client_collection_exists, client_create_collection.
  rewrite engine_call_up by exact Hr. rewrite engine_call_up by exact Hr.
  simpl. rewrite Hc.
  rewrite bool_decide_eq_false_2 by (intros [? ?]; done). simpl.
  rewrite engine_call_up by (simpl; by destruct (engine w)).
  simpl. destruct (engine w) as [rch cols]; simpl in *. rewrite Hc. simpl.
  unfold ret. rewrite <- !app_assoc. by subst rch.
Qed.

(** *** Building the points of [upsert] *)

Lemma upsert_elt_pure (ids : list string) (vectors : list (list float))
    (payloads : list (gmap string string)) (i : nat) :
  pure (upsert_elt ids vectors payloads i)
       (match point_at ids vectors payloads i with
        | Some p => inr p
        | None => inl (IndexError "list index out of range")
        end).
Proof.
  intros w. unfold upsert_elt, point_at, bind, py_index.
  destruct (ids !! i); simpl; [|reflexivity].
  destruct (vectors !! i); simpl; [|reflexivity].
  destruct (payloads !! i); reflexivity.
Qed.

Lemma zip_points_lookup (ids : list string) (vectors : list (list float))
    (payloads : list (gmap string string)) (i : nat) :
  zip_points ids vectors payloads !! i = point_at ids vectors payloads i.
Proof.
  unfold zip_points, point_at. rewrite !lookup_zip_with.
  destruct (ids !! i); simpl; [|reflexivity].
  destruct (vectors !! i); simpl; [|reflexivity].
  destruct (payloads !! i); reflexivity.
Qed.

Lemma zip_points_length (ids : list string) (vectors : list (list float))
    (payloads : list (gmap string string)) :
  (length ids <= length vectors)%nat -> (length ids <= length payloads)%nat ->
  length (zip_points ids vectors payloads) = length ids.
Proof.
  intros Hv Hp. unfold zip_points. rewrite !length_zip_with. lia.
Qed.

Lemma zip_points_ids (ids : list string) (vectors : list (list float))
    (payloads : list (gmap string string)) :
  (length ids <= length vectors)%nat -> (length ids <= length payloads)%nat ->
  ps_id <$> zip_points ids vectors payloads = ids.
Proof.
  intros Hv Hp. apply list_eq. intros i. rewrite list_lookup_fmap, zip_points_lookup.
  unfold point_at. destruct (ids !! i) eqn:Hi; simpl; [|reflexivity].
  apply lookup_lt_Some in Hi.
  destruct (lookup_lt_is_Some_2 vectors i ltac:(lia)) as [v ->].
  destruct (lookup_lt_is_Some_2 payloads i ltac:(lia)) as [q ->]. reflexivity.
Qed.

Lemma upsert_points_ok (ids : list string) (vectors : list (list float))
    (payloads : list (gmap string string)) :
  (length ids <= length vectors)%nat -> (length ids <= length payloads)%nat ->
  pure (comprehension (seq 0 (length ids)) (upsert_elt ids vectors payloads))
       (inr (zip_points ids vectors payloads)).
Proof.
  intros Hv Hp.
  set (dflt := mkPoint "" [] None : PointStruct float).
  assert (Heq : zip_points ids vectors payloads =
                (fun i => default dflt (point_at ids vectors payloads i))
                  <$> seq 0 (length ids)).
  { apply list_eq. intros i. rewrite list_lookup_fmap, zip_points_lookup.
    destruct (decide (i < length ids)%nat) as [Hi|Hi].
    - rewrite lookup_seq_lt by exact Hi. simpl.
      unfold point_at.
      destruct (lookup_lt_is_Some_2 ids i Hi) as [x ->].
      destruct (lookup_lt_is_Some_2 vectors i ltac:(lia)) as [v ->].
      destruct (lookup_lt_is_Some_2 payloads i ltac:(lia)) as [q ->]. reflexivity.
    - rewrite lookup_seq_ge by lia. simpl. unfold point_at.
      rewrite (lookup_ge_None_2 ids i) by lia. reflexivity. }
  rewrite Heq. apply comprehension_ok. intros i Hi. apply elem_of_seq in Hi.
  intros w. rewrite upsert_elt_pure. unfold point_at.
  destruct (lookup_lt_is_Some_2 ids i ltac:(lia)) as [x ->].
  destruct (lookup_lt_is_Some_2 vectors i ltac:(lia)) as [v ->].
  destruct (lookup_lt_is_Some_2 payloads i ltac:(lia)) as [q ->]. reflexivity.
Qed.

Lemma upsert_points_short (ids : list string) (vectors : list (list float))
    (payloads : list (gmap string string)) :
  (length vectors < length ids)%nat \/ (length payloads < length ids)%nat ->
  pure (comprehension (seq 0 (length ids)) (upsert_elt ids vectors payloads))
       (inl (IndexError "list index out of range")).
Proof.
  intros Hshort. apply comprehension_fail.
  - intros i _. destruct (point_at ids vectors payloads i) as [pt|] eqn:Hp.
    + right. exists pt. intros w. by rewrite upsert_elt_pure, Hp.
    + left. intros w. by rewrite upsert_elt_pure, Hp.
  - exists (length vectors `min` length payloads)%nat. split.
    + apply elem_of_seq. lia.
    + intros w. rewrite upsert_elt_pure. unfold point_at.
      destruct (ids !! _); simpl; [|reflexivity].
      destruct (Nat.le_ge_cases (length vectors) (length payloads)) as [Hle|Hle].
      * rewrite (lookup_ge_None_2 vectors) by lia. reflexivity.
      * destruct (vectors !! _); simpl; [|reflexivity].
        rewrite (lookup_ge_None_2 payloads) by lia. reflexivity.
Qed.

End Runs.

(** ** Claims about the vector store *)

Section StoreClaims.

Context {float : Type} (svc : Services float).

(** C8, as the code has it.  [__init__] asks the engine for its
    collections first and, when the engine cannot be reached, fails with
    that error having made no other call.  Otherwise it checks for the
    named collection: one that exists is taken as it is, one that is
    absent is created empty with the given size and the cosine distance.
    An "already exists" answer to the creation call, as after a lost
    race, is not caught: the constructor fails with it. *)
Theorem store_open (url name : string) (dim : Z) (w : World float) :
  (reachable (engine w) = false ->
   QdrantStorage_init url name dim w = (log GetCollections w, inl StoreUnreachable)) /\
  (forall c, reachable (engine w) = true -> collections (engine w) !! name = Some c ->
   QdrantStorage_init url name dim w =
   (mkWorld (engine w) (trace w ++ [GetCollections; CollectionExists name]),
    inr (mkStorage url name))) /\
  (reachable (engine w) = true -> collections (engine w) !! name = None ->
   QdrantStorage_init url name dim w =
   (mkWorld (mkEngine true
               (<[name := mkCollection (mkVectorParams dim COSINE) ∅]>
                  (collections (engine w))))
      (trace w ++ [GetCollections; CollectionExists name;
                   CreateCollection name (mkVectorParams dim COSINE)]),
    inr (mkStorage url name))) /\
  (forall A (other : M float A),
   reachable (engine w) = true -> collections (engine w) !! name = None ->
   let w1 := (other (mkWorld (engine w)
                       (trace w ++ [GetCollections; CollectionExists name]))).1 in
   reachable (engine w1) = true -> is_Some (collections (engine w1) !! name) ->
   QdrantStorage_init_interleaved other url name dim w =
   (log (CreateCollection name (mkVectorParams dim COSINE)) w1,
    inl (EngineError (AlreadyExists name)))).
Proof.
  split; [apply init_unreachable|].
  split; [intros c; apply init_present|].
  split; [apply init_absent|].
  intros A other Hr Hc w1 Hr1 [c1 Hc1].
  unfold QdrantStorage_init_interleaved, bind, client_get_collections,
    client_collection_exists, client_create_collection.
  rewrite engine_call_up by exact Hr. rewrite engine_call_up by exact Hr.
  simpl. rewrite Hc.
  rewrite bool_decide_eq_false_2 by (intros [? ?]; done). simpl.
  rewrite <- app_assoc. simpl.
  replace {| engine := engine w;
             trace := trace w ++ [GetCollections; CollectionExists name] |}
    with (mkWorld (engine w) (trace w ++ [GetCollections; CollectionExists name]))
    by reflexivity.
  replace ({| reachable := reachable (engine w); collections := collections (engine w) |})
    with (engine w) by (by destruct (engine w)).
  fold w1. rewrite engine_call_up by exact Hr1. by rewrite Hc1.
Qed.

(** C9 (what [upsert] needs of its arguments).  When [vectors] or
    [payloads] is shorter than [ids], [upsert] raises the index error
    and the world is as before: nothing was sent to the engine.  When
    both are at least as long as [ids], the points pair each id with the
    vector and payload at its index and are sent in one upsert call. *)
Theorem upsert_precondition (self : QdrantStorage) (ids : list string)
    (vectors : list (list float)) (payloads : list (gmap string string))
    (w : World float) :
  ((length vectors < length ids)%nat \/ (length payloads < length ids)%nat ->
   QdrantStorage_upsert self ids vectors payloads w =
   (w, inl (IndexError "list index out of range"))) /\
  ((length ids <= length vectors)%nat -> (length ids <= length payloads)%nat ->
   QdrantStorage_upsert self ids vectors payloads w =
   client_upsert (collection self)
     (zip_with (fun id vp => mkPoint id vp.1 (Some vp.2)) ids (zip vectors payloads)) w).
Proof.
  split.
  - intros Hshort. unfold QdrantStorage_upsert.
    erewrite bind_fail; [reflexivity|]. by apply (upsert_points_short ids vectors payloads).
  - intros Hv Hp. unfold QdrantStorage_upsert.
    erewrite bind_run; [reflexivity|]. by apply (upsert_points_ok ids vectors payloads).
Qed.

End StoreClaims.

Lemma store_open_race_counterexample :
  (QdrantStorage_init_interleaved
     (QdrantStorage_init "http://localhost:6333" "docs" 3072)
     "http://localhost:6333" "docs" 3072 world0).2
  = inl (EngineError (AlreadyExists "docs")).
Proof. vm_compute. reflexivity. Qed.

Lemma store_open_witness :
  (QdrantStorage_init "http://localhost:6333" "docs" 3072 world0).2
  = inr (mkStorage "http://localhost:6333" "docs").
Proof.
  rewrite (proj1 (proj2 (proj2 (store_open "http://localhost:6333" "docs" 3072 world0))));
    reflexivity.
Defined.

Lemma upsert_precondition_witness :
  QdrantStorage_upsert (mkStorage "http://localhost:6333" "docs")
    ["id0"; "id1"] [[1; 2]] [∅; ∅] world0
  = (world0, inl (IndexError "list index out of range")).
Proof.
  apply (proj1 (upsert_precondition (mkStorage "http://localhost:6333" "docs")
                  ["id0"; "id1"] [[1; 2]] [∅; ∅] world0)).
  left. simpl. lia.
Defined.

(** ** Which calls a computation makes *)

Section Calls.

Context {float : Type} (svc : Services float).

Local Abbreviation M := (M float).

Implicit Type P : Call float -> Prop.

Lemma calls_only_pure {A} P (m : M A) g : pure m g -> calls_only P m.
Proof.
  intros Hp w w' r Hrun. rewrite Hp in Hrun. injection Hrun as <- _.
  exists []. by rewrite app_nil_r.
Qed.

Lemma calls_only_ret {A} P (a : A) : calls_only P (ret a : M A).
Proof. apply (calls_only_pure P _ (inr a)). by intros w. Qed.

Lemma calls_only_raise {A} P e : calls_only P (raise e : M A).
Proof. apply (calls_only_pure P _ (inl e)). by intros w. Qed.

Lemma calls_only_bind {A B} P (m : M A) (k : A -> M B) :
  calls_only P m -> (forall a, calls_only P (k a)) -> calls_only P (bind m k).
Proof.
  intros Hm Hk w w' r Hrun. apply bind_inv in Hrun as [(e & Hrun & _)|(w1 & a & Hrun & Hrun')].
  - by apply Hm in Hrun.
  - apply Hm in Hrun as (cs & Htr & Hcs). apply Hk in Hrun' as (cs' & Htr' & Hcs').
    exists (cs ++ cs'). rewrite Htr', Htr, <- app_assoc. split; [done|].
    by apply Forall_app.
Qed.

(** One statement of a sequence: [tac] settles the statement, the rest of
    the sequence remains. *)
Ltac calls_seq tac := apply calls_only_bind; [tac | intros ?].

Lemma calls_only_engine_call {A} P c (op : Engine float -> Exn + (Engine float * A)) :
  P c -> calls_only P (engine_call c op).
Proof.
  intros Hc w w' r Hrun. unfold engine_call in Hrun. exists [c].
  split; [|by repeat constructor].
  destruct (reachable (engine w)); [destruct (op (engine w)) as [|[]]|];
    by injection Hrun as <- _.
Qed.

Lemma calls_only_comprehension {A B} P (xs : list A) (elt : A -> M B) :
  (forall x, calls_only P (elt x)) -> calls_only P (comprehension xs elt).
Proof.
  intros H. induction xs as [|x xs IH]; simpl.
  - apply calls_only_ret.
  - apply calls_only_bind; [apply H|]. intros y.
    apply calls_only_bind; [apply IH|]. intros ys. apply calls_only_ret.
Qed.

Lemma calls_only_py_index {A} P (l : list A) i : calls_only P (py_index l i : M A).
Proof. eapply calls_only_pure, pure_py_index. Qed.

Lemma calls_only_embed_texts P texts batch_size :
  (forall batch, P (EmbeddingsCreate EMBED_MODEL batch)) ->
  calls_only P (embed_texts svc texts batch_size).
Proof.
  intros HP w w' r Hrun. apply embed_texts_calls in Hrun as [_ [n Htr]].
  eexists. split; [exact Htr|]. apply Forall_fmap, Forall_forall. intros b _. apply HP.
Qed.

Lemma calls_only_init P url name dim :
  P GetCollections -> P (CollectionExists name) ->
  P (CreateCollection name (mkVectorParams dim COSINE)) ->
  calls_only P (QdrantStorage_init url name dim : M QdrantStorage).
Proof.
  intros H1 H2 H3. unfold QdrantStorage_init.
  calls_seq ltac:(by apply calls_only_engine_call).
  calls_seq ltac:(by apply calls_only_engine_call).
  calls_seq idtac; [|apply calls_only_ret].
  match goal with found : bool |- _ => destruct found end; simpl;
    [apply calls_only_ret | by apply calls_only_engine_call].
Qed.

Lemma calls_only_search P self query top_k :
  P (QueryPoints (collection self) query top_k) ->
  calls_only P (QdrantStorage_search svc self query top_k).
Proof.
  intros H. unfold QdrantStorage_search.
  apply calls_only_bind; [by apply calls_only_engine_call|]. intros response.
  destruct (fold_left search_visit response ([], ∅)). apply calls_only_ret.
Qed.

Lemma calls_only_search_step question top_k :
  calls_only no_generate (search_step svc question top_k).
Proof.
  unfold search_step.
  calls_seq ltac:(by apply calls_only_embed_texts).
  calls_seq ltac:(apply calls_only_py_index).
  calls_seq ltac:(by apply calls_only_init).
  by apply calls_only_search.
Qed.

End Calls.

(** ** Search *)

Section Search.

Context {float : Type} (svc : Services float).

Lemma search_loop (pts : list (ScoredPoint float)) : forall cs (ss : gset string),
  fold_left search_visit pts (cs, ss) =
  (cs ++ omap (kept_field "text") pts,
   ss ∪ list_to_set (omap (kept_field "source") pts)).
Proof.
  induction pts as [|p pts IH]; intros cs ss.
  - simpl. rewrite app_nil_r. f_equal. set_solver.
  - change (fold_left search_visit (p :: pts) (cs, ss))
      with (fold_left search_visit pts (search_visit (cs, ss) p)).
    assert (Hv : search_visit (cs, ss) p =
                 (cs ++ option_list (kept_field "text" p),
                  ss ∪ list_to_set (option_list (kept_field "source" p)))).
    { unfold search_visit, kept_field.
      destruct (default ∅ (sp_payload p) !! "text") as [t|];
        destruct (default ∅ (sp_payload p) !! "source") as [src|];
        repeat case_bool_decide; simpl; rewrite ?app_nil_r; f_equal; set_solver. }
    rewrite Hv, IH. simpl omap.
    destruct (kept_field "text" p), (kept_field "source" p); simpl;
      rewrite <- ?app_assoc, ?app_nil_r; f_equal; set_solver.
Qed.

Lemma omap_length_le {A B} (f : A -> option B) (l : list A) :
  (length (omap f l) <= length l)%nat.
Proof.
  induction l as [|x l IH]; [simpl; lia|].
  change (omap f (x :: l))
    with (match f x with Some y => y :: omap f l | None => omap f l end).
  destruct (f x); simpl; lia.
Qed.

Lemma query_points_inv name query limit (w w' : World float) pts :
  client_query_points svc name query limit w = (w', inr pts) ->
  pts = take (Z.to_nat limit) (ranked svc query (stored w name)) /\
  1 <= limit /\ len pts <= limit /\
  engine w' = engine w /\ trace w' = trace w ++ [QueryPoints name query limit].
Proof.
  unfold client_query_points, engine_call, stored. intros H.
  destruct (reachable (engine w)); [|discriminate H].
  destruct (collections (engine w) !! name) as [c|]; [|discriminate H].
  destruct (Z.ltb_spec limit 1) as [|Hl]; [discriminate H|].
  destruct (negb (len query =? size (config c))); [discriminate H|].
  injection H as <- <-. repeat split; try done.
  unfold len. rewrite length_take. lia.
Qed.

Lemma search_inv self query top_k (w w' : World float) res :
  QdrantStorage_search svc self query top_k w = (w', inr res) ->
  exists matched,
    client_query_points svc (collection self) query top_k w = (w', inr matched) /\
    contexts res = omap (kept_field "text") matched /\
    sources res = elements (list_to_set (omap (kept_field "source") matched) : gset string).
Proof.
  unfold QdrantStorage_search. intros H.
  apply bind_inv in H as [(e & _ & He)|(w1 & matched & Hq & H)]; [discriminate He|].
  rewrite search_loop in H. injection H as <- <-. exists matched.
  split; [exact Hq|]. simpl. split; [reflexivity|]. f_equal. set_solver.
Qed.

(** C6, as the code has it.  A search that returns was answered by the
    engine with the first [top_k] points of its ranking, so at most
    [top_k] matches.  [contexts] lists, in the order of the matches, the
    text of every match whose payload has a non-empty ["text"];
    [sources] has no duplicates and holds exactly the non-empty
    ["source"] values of the matches.  A field that is absent or empty
    is skipped for that field alone. *)
Theorem search_result_shape (self : QdrantStorage) (query : list float) (top_k : Z)
    (w w' : World float) (res : SearchResult) :
  QdrantStorage_search svc self query top_k w = (w', inr res) ->
  exists matched,
    matched = take (Z.to_nat top_k) (ranked svc query (stored w (collection self))) /\
    new_calls w w' = [QueryPoints (collection self) query top_k] /\
    len matched <= top_k /\
    contexts res = omap (kept_field "text") matched /\
    len (contexts res) <= top_k /\
    NoDup (sources res) /\
    (forall s, s ∈ sources res <->
               exists p, p ∈ matched /\ kept_field "source" p = Some s) /\
    (forall t, t ∈ contexts res ->
               exists p, p ∈ matched /\ default ∅ (sp_payload p) !! "text" = Some t) /\
    (forall s, s ∈ sources res ->
               exists p, p ∈ matched /\ default ∅ (sp_payload p) !! "source" = Some s).
Proof.
  intros Hrun. apply search_inv in Hrun as (matched & Hq & Hc & Hs).
  apply query_points_inv in Hq as (Hm & Hk & Hlen & _ & Htr).
  exists matched. split; [exact Hm|]. split; [by apply new_calls_app|].
  split; [exact Hlen|]. split; [exact Hc|].
  assert (Hkept : forall key v (p : ScoredPoint float), kept_field key p = Some v ->
                    default ∅ (sp_payload p) !! key = Some v).
  { intros key v p. unfold kept_field.
    destruct (default ∅ (sp_payload p) !! key) as [x|]; [|done].
    case_bool_decide; congruence. }
  assert (Hsrc : forall s, s ∈ sources res <->
                   exists p, p ∈ matched /\ kept_field "source" p = Some s).
  { intros s. rewrite Hs, elem_of_elements, elem_of_list_to_set, list_elem_of_omap.
    reflexivity. }
  split; [|split; [|split; [exact Hsrc|split]]].
  - rewrite Hc. unfold len in *.
    pose proof (omap_length_le (kept_field "text") matched). lia.
  - rewrite Hs. apply NoDup_elements.
  - intros t Ht. rewrite Hc in Ht. apply list_elem_of_omap in Ht as (p & Hp & Hk').
    exists p. split; [exact Hp | by apply Hkept].
  - intros s Hin. apply Hsrc in Hin as (p & Hp & Hk'). exists p.
    split; [exact Hp | by apply Hkept].
Qed.

End Search.

(** C6 as stated fails: after an ingestion under the empty source id, a
    search matches points whose payload has a ["source"] field, yet
    [sources] comes back empty. *)
Lemma search_sources_counterexample :
  exists matched,
    (client_query_points (uniform_provider 3072) "docs" (repeat 0 3072) 5 world_unnamed).2 = inr matched /\
    (exists p, p ∈ matched /\ default ∅ (sp_payload p) !! "source" = Some "") /\
    (QdrantStorage_search (uniform_provider 3072) default_store (repeat 0 3072) 5 world_unnamed).2
    = inr (mkSearchResult ["alpha info"; "beta info"] []).
Proof.
  eexists. split; [vm_compute; reflexivity|].
  split; [|vm_compute; reflexivity].
  eexists. split; [left|]. vm_compute. reflexivity.
Qed.

Lemma search_result_shape_witness :
  exists matched : list (ScoredPoint Z),
    matched = take (Z.to_nat 5)
                (ranked (uniform_provider 3072) (repeat 0 3072) (stored world_unnamed (collection default_store))) /\
    len matched <= 5.
Proof.
  destruct (search_result_shape (uniform_provider 3072) default_store (repeat 0 3072) 5 world_unnamed
              (QdrantStorage_search (uniform_provider 3072) default_store (repeat 0 3072) 5 world_unnamed).1
              (mkSearchResult ["alpha info"; "beta info"] []))
    as (matched & Hm & _ & Hlen & _).
  - vm_compute. reflexivity.
  - exists matched. split; [exact Hm | exact Hlen].
Defined.

(** ** The query workflow *)

Section Query.

Context {float : Type} (svc : Services float).

(** C10 (question validation).  When the event has no question or an
    empty one, [rag_query_pdf] raises the missing-question error and the
    world is as before: the search step did not run, so neither the
    embedding provider nor the engine was called. *)
Theorem question_validation (data : QueryEvent) (w : World float) :
  ev_question data = None \/ ev_question data = Some "" ->
  rag_query_pdf svc data w = (w, inl MissingQuestion) /\
  new_calls w (rag_query_pdf svc data w).1 = [].
Proof.
  intros [H|H]; unfold rag_query_pdf; rewrite H; simpl;
    (split; [reflexivity|]); unfold new_calls; by rewrite drop_all.
Qed.

(** C3 (empty-context fallback).  When the search step of a query run
    returns no contexts, [rag_query_pdf] returns the fixed answer with
    no sources and a context count of zero, and none of the calls of
    the run goes to the generative model. *)
Theorem empty_context_fallback (data : QueryEvent) (question : string)
    (w w1 : World float) (search_result : SearchResult) :
  ev_question data = Some question -> question <> "" ->
  search_step svc question (default 5 (ev_top_k data)) w = (w1, inr search_result) ->
  contexts search_result = [] ->
  rag_query_pdf svc data w = (w1, inr (mkQueryAnswer FALLBACK_ANSWER [] 0)) /\
  Forall (fun c => is_generate_call c = false) (new_calls w w1).
Proof.
  intros Hq Hne Hsearch Hctx. split.
  - unfold rag_query_pdf. rewrite Hq.
    destruct question as [|a question]; [done|].
    unfold step_run. erewrite bind_run by exact Hsearch. by rewrite Hctx.
  - apply calls_only_search_step in Hsearch as (cs & Htr & Hcs).
    by rewrite (new_calls_app _ _ _ Htr).
Qed.

End Query.

Lemma question_validation_witness :
  rag_query_pdf (uniform_provider 3072) (mkQueryEvent (Some "") (Some 3)) world0
  = (world0, inl MissingQuestion).
Proof.
  apply (question_validation (uniform_provider 3072) (mkQueryEvent (Some "") (Some 3)) world0).
  right. reflexivity.
Defined.

Lemma empty_context_fallback_witness :
  (rag_query_pdf (uniform_provider 3072) query_alpha world0).2
  = inr (mkQueryAnswer FALLBACK_ANSWER [] 0).
Proof.
  rewrite (proj1 (empty_context_fallback (uniform_provider 3072) query_alpha "What is alpha?"
             world0
             (search_step (uniform_provider 3072) "What is alpha?" 5 world0).1
             (mkSearchResult [] []) eq_refl ltac:(discriminate)
             ltac:(vm_compute; reflexivity) eq_refl)).
  reflexivity.
Defined.

(** ** Keyed writes *)

Section Writes.

Context {V : Type}.
Implicit Types (l : list (string * V)) (m : gmap string V).

Lemma writes_cons kv l m : writes (kv :: l) m = writes l (<[kv.1 := kv.2]> m).
Proof. reflexivity. Qed.

Lemma writes_dom l : forall m, dom (writes l m) = dom m ∪ list_to_set l.*1.
Proof.
  induction l as [|kv l IH]; intros m.
  - simpl. set_solver.
  - rewrite writes_cons, IH, dom_insert_L. simpl. set_solver.
Qed.

Lemma writes_lookup_other l k : forall m,
  k ∉ l.*1 -> writes l m !! k = m !! k.
Proof.
  induction l as [|kv l IH]; intros m Hk; [reflexivity|].
  rewrite writes_cons, IH by set_solver. apply lookup_insert_ne. set_solver.
Qed.

Lemma writes_agree l : forall m m',
  (forall k, k ∉ l.*1 -> m !! k = m' !! k) ->
  writes l m = writes l m'.
Proof.
  induction l as [|kv l IH]; intros m m' H.
  - apply map_eq. intros k. apply H. set_solver.
  - rewrite !writes_cons. apply IH. intros k Hk.
    destruct (decide (kv.1 = k)) as [<-|Hne].
    + by rewrite !lookup_insert_eq.
    + rewrite !lookup_insert_ne by done. apply H. set_solver.
Qed.

(** Writing the same entries again changes nothing. *)
Lemma writes_twice l m :
  writes l (writes l m) = writes l m.
Proof. apply writes_agree. intros k Hk. by apply writes_lookup_other. Qed.

End Writes.

(** ** The ingestion workflow *)

Section Ingestion.

Context {float : Type} (svc : Services float).

Local Abbreviation M := (M float).
Local Abbreviation Points := (gmap string (list float * option (gmap string string))).

Lemma fold_write_point (pts : list (PointStruct float)) : forall m : Points,
  fold_left write_point pts m = writes (point_entry <$> pts) m.
Proof. induction pts as [|p pts IH]; intros m; [reflexivity|]. simpl. by rewrite IH. Qed.

Lemma point_entry_keys (pts : list (PointStruct float)) :
  (point_entry <$> pts).*1 = ps_id <$> pts.
Proof. rewrite <- list_fmap_compose. reflexivity. Qed.

Lemma snd_writes (pts : list (PointStruct float)) : forall m : Points,
  snd <$> writes (point_entry <$> pts) m = writes (point_label <$> pts) (snd <$> m).
Proof.
  induction pts as [|p pts IH]; intros m; [reflexivity|].
  rewrite !fmap_cons, !writes_cons, IH. f_equal. simpl. by rewrite fmap_insert.
Qed.

Lemma zip_points_labels (ids : list string) (v1 v2 : list (list float))
    (payloads : list (gmap string string)) :
  (length ids <= length v1)%nat -> (length ids <= length v2)%nat ->
  point_label <$> zip_points ids v1 payloads = point_label <$> zip_points ids v2 payloads.
Proof.
  intros H1 H2. apply list_eq. intros i.
  rewrite !list_lookup_fmap, !zip_points_lookup. unfold point_at.
  destruct (ids !! i) eqn:Hi; simpl; [|reflexivity]. apply lookup_lt_Some in Hi.
  destruct (lookup_lt_is_Some_2 v1 i ltac:(lia)) as [x1 ->].
  destruct (lookup_lt_is_Some_2 v2 i ltac:(lia)) as [x2 ->]. simpl.
  by destruct (payloads !! i).
Qed.

(** The payload comprehension of [upsert_step] cannot fail. *)
Lemma payloads_pure (data : ChunkData) :
  pure (comprehension (seq 0 (length (cd_chunks data)))
          (fun i => chunk <- py_index (cd_chunks data) i ;;
                    ret ({[ "text" := chunk; "source" := cd_source_id data ]}
                         : gmap string string)) : M _)
       (inr (chunk_payloads data)).
Proof.
  set (f := fun i : nat =>
              ({[ "text" := default "" (cd_chunks data !! i);
                  "source" := cd_source_id data ]} : gmap string string)).
  assert (Heq : chunk_payloads data = f <$> seq 0 (length (cd_chunks data))).
  { unfold chunk_payloads. apply list_eq. intros i. rewrite !list_lookup_fmap.
    destruct (cd_chunks data !! i) as [c|] eqn:Hi.
    - rewrite lookup_seq_lt by (by eapply lookup_lt_Some). simpl. unfold f. by rewrite Hi.
    - rewrite lookup_seq_ge by (by apply lookup_ge_None). reflexivity. }
  rewrite Heq. apply comprehension_ok. intros i Hi. apply elem_of_seq in Hi.
  intros w. unfold bind, py_index, f.
  destruct (lookup_lt_is_Some_2 (cd_chunks data) i ltac:(lia)) as [c ->]. reflexivity.
Qed.

Lemma chunk_ids_length data : length (chunk_ids data) = length (cd_chunks data).
Proof. unfold chunk_ids. by rewrite length_fmap, length_seq. Qed.

Lemma chunk_payloads_length data : length (chunk_payloads data) = length (cd_chunks data).
Proof. unfold chunk_payloads. by rewrite length_fmap. Qed.

(** [upsert_step] once [embed_texts] has returned. *)
Lemma upsert_step_embedded data (w w1 : World float) vectors :
  embed_texts svc (cd_chunks data) 100 w = (w1, inr vectors) ->
  upsert_step svc data w =
  (store <- QdrantStorage_default ;;
   client_upsert (collection store)
     (zip_points (chunk_ids data) vectors (chunk_payloads data)) ;;;
   ret (len (cd_chunks data))) w1.
Proof.
  intros He. unfold upsert_step. erewrite bind_run by exact He.
  erewrite bind_run by apply payloads_pure.
  apply embed_texts_returns in He as (_ & _ & _ & _ & Hlen & _).
  apply bind_ext; [reflexivity|]. intros store w2.
  apply bind_ext; [|reflexivity].
  unfold QdrantStorage_upsert. fold (chunk_ids data).
  erewrite bind_run; [reflexivity|].
  replace (upsert_elt (chunk_ids data) vectors (chunk_payloads data))
    with (fun i => upsert_elt (chunk_ids data) vectors (chunk_payloads data) i) by reflexivity.
  apply (upsert_points_ok (chunk_ids data) vectors (chunk_payloads data));
    rewrite chunk_ids_length, ?chunk_payloads_length; unfold len in Hlen; lia.
Qed.

Lemma stored_engine (w w' : World float) name :
  engine w' = engine w -> stored w' name = stored w name.
Proof. unfold stored. by intros ->. Qed.

(** What a run of [upsert_step] leaves in the collection. *)
Lemma upsert_step_outcome data (w w' : World float) r :
  upsert_step svc data w = (w', r) ->
  (exists e, r = inl e /\ stored w' "docs" = stored w "docs") \/
  (exists w1 vectors,
     embed_texts svc (cd_chunks data) 100 w = (w1, inr vectors) /\
     r = inr (len (cd_chunks data)) /\
     stored w' "docs" =
     writes (point_entry <$> zip_points (chunk_ids data) vectors (chunk_payloads data))
            (stored w "docs")).
Proof.
  intros Hrun.
  destruct (embed_texts svc (cd_chunks data) 100 w) as [w1 [e|vectors]] eqn:He.
  { unfold upsert_step in Hrun. erewrite bind_fail in Hrun by exact He.
    injection Hrun as <- <-. left. exists e. split; [done|].
    apply stored_engine. by apply embed_texts_calls in He as [? _]. }
  rewrite (upsert_step_embedded data w w1 vectors He) in Hrun.
  pose proof He as (_ & _ & _ & Heng & _)%embed_texts_returns.
  rewrite <- (stored_engine w w1 "docs" Heng).
  unfold QdrantStorage_default in Hrun.
  destruct (reachable (engine w1)) eqn:Hreach.
  - destruct (collections (engine w1) !! "docs") as [c|] eqn:Hc.
    + erewrite bind_run in Hrun by (by eapply init_present).
      unfold client_upsert, bind in Hrun. simpl collection in Hrun.
      rewrite engine_call_up in Hrun by exact Hreach. simpl in Hrun. rewrite Hc in Hrun.
      destruct (points_accepted c _).
      * injection Hrun as <- <-. right. exists w1, vectors. split; [done|]. split; [done|].
        unfold stored. simpl. rewrite lookup_insert_eq, Hc. simpl. apply fold_write_point.
      * injection Hrun as <- <-. left. eexists. split; [done|]. by apply stored_engine.
    + erewrite bind_run in Hrun by (by eapply init_absent).
      unfold client_upsert, bind in Hrun. simpl collection in Hrun.
      rewrite engine_call_up in Hrun by reflexivity. simpl in Hrun.
      rewrite lookup_insert_eq in Hrun.
      destruct (points_accepted _ _).
      * injection Hrun as <- <-. right. exists w1, vectors. split; [done|]. split; [done|].
        unfold stored. simpl. rewrite lookup_insert_eq, Hc. simpl. apply fold_write_point.
      * injection Hrun as <- <-. left. eexists. split; [done|].
        unfold stored. simpl. by rewrite lookup_insert_eq, Hc.
  - erewrite bind_fail in Hrun by (by eapply init_unreachable).
    injection Hrun as <- <-. left. eexists. split; [done|]. by apply stored_engine.
Qed.

Lemma load_step_pure (ev : IngestEvent) : exists g, pure (load_step svc ev) g.
Proof.
  unfold load_step, load_and_chunk_pdf.
  destruct (ev_pdf_path ev) as [pdf_path|]; [|by eexists; intros w].
  unfold bind, answer_of.
  destruct (path_resolve svc pdf_path) as [e|p]; [by eexists; intros w|].
  destruct (path_exists svc p) as [e|found]; [by eexists; intros w|].
  destruct (negb found); [by eexists; intros w|].
  destruct (negb _); [by eexists; intros w|].
  destruct (pdf_load_data svc _) as [e|docs]; [by eexists; intros w|].
  destruct (str_strip <$> _) as [|t texts]; [by eexists; intros w|].
  destruct (fold_left _ _ _) as [|c chunks]; by eexists; intros w.
Qed.

Lemma rag_ingest_pdf_inv (ev : IngestEvent) (w w' : World float) n :
  rag_ingest_pdf svc ev w = (w', inr n) ->
  exists data, pure (load_step svc ev) (inr data) /\ upsert_step svc data w = (w', inr n).
Proof.
  destruct (load_step_pure ev) as [g Hg]. unfold rag_ingest_pdf, step_run, bind.
  rewrite Hg. destruct g as [e|data]; [discriminate|]. eauto.
Qed.

(** C1 (idempotent ingestion).  After a run of the ingestion workflow
    that completed, the collection holds the ids derived from the source
    id and the chunk offsets next to what it held before; running the
    workflow again on the same event, whatever the second run does,
    leaves the same set of point ids, hence the same number of points,
    each with the same payload.  When the provider answers the second
    run with the vectors of the first, the collection is the same map. *)
Theorem ingestion_idempotent (ev : IngestEvent) (w w1 w2 : World float) (n : Z)
    (r2 : Exn + Z) :
  rag_ingest_pdf svc ev w = (w1, inr n) ->
  rag_ingest_pdf svc ev w1 = (w2, r2) ->
  exists data,
    load_step svc ev w = (w, inr data) /\
    n = len (cd_chunks data) /\
    dom (stored w1 "docs") = dom (stored w "docs") ∪ list_to_set (chunk_ids data) /\
    dom (stored w2 "docs") = dom (stored w1 "docs") /\
    base.size (stored w2 "docs") = base.size (stored w1 "docs") /\
    snd <$> stored w2 "docs" = snd <$> stored w1 "docs" /\
    (forall wa wb vectors,
       embed_texts svc (cd_chunks data) 100 w = (wa, inr vectors) ->
       embed_texts svc (cd_chunks data) 100 w1 = (wb, inr vectors) ->
       stored w2 "docs" = stored w1 "docs").
Proof.
  intros Hrun1 Hrun2.
  apply rag_ingest_pdf_inv in Hrun1 as (data & Hload & Hup1).
  exists data. split; [apply Hload|].
  assert (Hup2 : upsert_step svc data w1 = (w2, r2)).
  { unfold rag_ingest_pdf, step_run, bind in Hrun2. by rewrite Hload in Hrun2. }
  apply upsert_step_outcome in Hup1 as [(e & He & _)|(wa & v1 & He1 & Hn & Hs1)];
    [discriminate He|].
  injection Hn as ->. split; [reflexivity|].
  pose proof He1 as (_ & _ & _ & _ & Hl1 & _)%embed_texts_returns. unfold len in Hl1.
  assert (Hk1 : (point_entry <$> zip_points (chunk_ids data) v1 (chunk_payloads data)).*1
                = chunk_ids data).
  { rewrite point_entry_keys. apply zip_points_ids;
      rewrite chunk_ids_length, ?chunk_payloads_length; lia. }
  assert (Hd1 : dom (stored w1 "docs") = dom (stored w "docs") ∪ list_to_set (chunk_ids data)).
  { by rewrite Hs1, writes_dom, Hk1. }
  split; [exact Hd1|].
  apply upsert_step_outcome in Hup2 as [(e & _ & Hs2)|(wb & v2 & He2 & _ & Hs2)].
  { rewrite Hs2. repeat split; reflexivity. }
  pose proof He2 as (_ & _ & _ & _ & Hl2 & _)%embed_texts_returns. unfold len in Hl2.
  assert (Hk2 : (point_entry <$> zip_points (chunk_ids data) v2 (chunk_payloads data)).*1
                = chunk_ids data).
  { rewrite point_entry_keys. apply zip_points_ids;
      rewrite chunk_ids_length, ?chunk_payloads_length; lia. }
  assert (Hd2 : dom (stored w2 "docs") = dom (stored w1 "docs")).
  { rewrite Hs2, writes_dom, Hk2, Hd1. set_solver. }
  split; [exact Hd2|]. split; [by rewrite <- !size_dom, Hd2|]. split.
  - rewrite Hs2, Hs1, !snd_writes.
    rewrite (zip_points_labels (chunk_ids data) v2 v1)
      by (rewrite chunk_ids_length; lia).
    apply writes_twice.
  - intros wa' wb' vectors Ha Hb. rewrite He1 in Ha. rewrite He2 in Hb.
    injection Ha as _ <-. injection Hb as _ <-.
    rewrite Hs2, Hs1. apply writes_twice.
Qed.

(** C2, as the code has it.  In a run of [embed_texts] where every
    provider call returned and the vectors received number len(texts),
    the run raises the dimension-mismatch error when the first vector's
    length differs from [EMBED_DIM] and returns all the vectors when it
    does not; the other vectors are not looked at.  Whenever
    [embed_texts] fails inside [upsert_step], for any reason, the step
    fails with the same error, the engine is untouched and every call
    made went to the embedding provider: no upsert was attempted. *)
Theorem dimension_guard (texts : list string) (batch_size : Z) (w : World float)
    (datas : list (list (list float))) (first : list float) (rest : list (list float)) :
  texts <> [] -> batch_size <> 0 ->
  responses svc (trace w) (batches_of texts batch_size) = inr <$> datas ->
  len (concat datas) = len texts ->
  concat datas = first :: rest ->
  (len first <> EMBED_DIM ->
   (embed_texts svc texts batch_size w).2 = inl DimensionMismatch) /\
  (len first = EMBED_DIM ->
   (embed_texts svc texts batch_size w).2 = inr (first :: rest)) /\
  (forall data w0 w' e,
     embed_texts svc (cd_chunks data) 100 w0 = (w', inl e) ->
     upsert_step svc data w0 = (w', inl e) /\
     engine w' = engine w0 /\
     Forall (fun c => is_embedding_call c = true) (new_calls w0 w')).
Proof.
  intros Ht Hb Hresp Hlen Hc.
  rewrite (embed_texts_answered svc texts batch_size w datas Ht Hb Hresp).
  rewrite validate_run, Hlen, Z.eqb_refl, Hc. simpl negb. cbv iota.
  split; [|split].
  - intros Hd. by destruct (Z.eqb_spec (len first) EMBED_DIM).
  - intros Hd. by destruct (Z.eqb_spec (len first) EMBED_DIM).
  - intros data w0 w' e He. split; [|split].
    + unfold upsert_step. by erewrite bind_fail by exact He.
    + by apply embed_texts_calls in He as [? _].
    + apply embed_texts_calls in He as [_ [k Htr]].
      rewrite (new_calls_app _ _ _ Htr). apply Forall_fmap, Forall_forall. by intros b _.
Qed.


End Ingestion.

Lemma ingestion_idempotent_witness :
  base.size (stored (rag_ingest_pdf (uniform_provider 3072) ingest_doc1
                       (rag_ingest_pdf (uniform_provider 3072) ingest_doc1 world0).1).1 "docs")
  = base.size (stored (rag_ingest_pdf (uniform_provider 3072) ingest_doc1 world0).1 "docs").
Proof.
  destruct (ingestion_idempotent (uniform_provider 3072) ingest_doc1 world0
              (rag_ingest_pdf (uniform_provider 3072) ingest_doc1 world0).1
              (rag_ingest_pdf (uniform_provider 3072) ingest_doc1
                 (rag_ingest_pdf (uniform_provider 3072) ingest_doc1 world0).1).1
              2 (inr 2))
    as (data & _ & _ & _ & _ & Hsize & _).
  - vm_compute. reflexivity.
  - vm_compute. reflexivity.
  - exact Hsize.
Defined.

(** C2 as stated fails: the provider returns a second vector of length
    one, [embed_texts] returns both vectors, and the ingestion goes on to
    send an upsert. *)
Lemma dimension_guard_counterexample :
  exists vectors,
    (embed_texts ragged_provider ["alpha info"; "beta info"] 100 world0).2 = inr vectors /\
    (exists v, v ∈ vectors /\ len v <> EMBED_DIM) /\
    existsb is_upsert_call (trace (rag_ingest_pdf ragged_provider ingest_doc1 world0).1) = true.
Proof.
  eexists. split; [vm_compute; reflexivity|]. split.
  - exists [0]. split; [right; left | vm_compute; discriminate].
  - vm_compute. reflexivity.
Qed.

Lemma dimension_guard_witness :
  (embed_texts (uniform_provider 5) ["alpha info"] 100 world0).2 = inl DimensionMismatch.
Proof.
  refine (proj1 (dimension_guard (uniform_provider 5) ["alpha info"] 100 world0
                   [[repeat 0 5]] (repeat 0 5) [] _ _ _ _ _) _).
  - discriminate.
  - lia.
  - reflexivity.
  - reflexivity.
  - reflexivity.
  - vm_compute. discriminate.
Defined.

(** ** Claims about the identity scheme *)


(** * The rest of the program *)

(** ** Stripping *)

Section Strip.

Implicit Types (l : list (list ascii)) (b : list ascii) (s : string).

Lemma lstrip_head l : head_clear (lstrip l).
Proof.
  induction l as [|c l IH]; simpl; [exact I|].
  destruct (is_space c) eqn:E; [exact IH | exact E].
Qed.

Lemma lstrip_clear l : head_clear l -> lstrip l = l.
Proof. destruct l as [|c l]; simpl; [done|]. by intros ->. Qed.

Lemma lstrip_split l :
  exists pre, l = pre ++ lstrip l /\ Forall (fun c => is_space c = true) pre.
Proof.
  induction l as [|c l (pre & Hl & Hpre)]; simpl.
  - by exists [].
  - destruct (is_space c) eqn:E.
    + exists (c :: pre). split; [simpl; congruence | by constructor].
    + by exists [].
Qed.

Lemma lstrip_nil l : lstrip l = [] <-> Forall (fun c => is_space c = true) l.
Proof.
  split.
  - intros H. destruct (lstrip_split l) as (pre & Hl & Hpre).
    rewrite H, app_nil_r in Hl. by subst.
  - induction 1 as [|c l Hc _ IH]; simpl; [done|]. by rewrite Hc.
Qed.

(** *** Characters of a text *)

Lemma concat_characters b : concat (characters b) = b.
Proof.
  induction b as [|a b IH]; [reflexivity|]. simpl.
  destruct (characters b) as [|c cs].
  - simpl in *. by rewrite <- IH.
  - destruct (starts_cont c); simpl in *; by rewrite <- IH.
Qed.

Lemma characters_nil b : characters b = [] <-> b = [].
Proof.
  split; [|by intros ->]. intros H. by rewrite <- (concat_characters b), H.
Qed.

Lemma characters_grouped b : grouped (characters b).
Proof.
  unfold grouped. induction b as [|a b [HP HQ]]; [by split|]. simpl.
  destruct (characters b) as [|c cs]; [by repeat constructor|].
  apply Forall_cons in HP as [[Hc Ht] HP]. simpl in HQ.
  destruct (starts_cont c) eqn:E.
  - split; [|exact HQ]. constructor; [|exact HP]. split; [done|]. simpl.
    destruct c as [|b0 t]; [done|]. simpl in *. by rewrite E, Ht.
  - split; [|by constructor]. by repeat constructor.
Qed.

Lemma grouped_app l1 l2 : grouped (l1 ++ l2) -> grouped l1 /\ grouped l2.
Proof.
  unfold grouped. intros [HP HQ]. apply Forall_app in HP as [HP1 HP2].
  destruct l1 as [|c l1].
  - split; [by split|]. by split.
  - simpl in HQ. apply Forall_app in HQ as [HQ1 HQ2].
    split; [by split|]. split; [exact HP2|]. destruct l2; [done|].
    by apply Forall_cons in HQ2 as [_ ?].
Qed.

(** Continuation bytes in front of a text join into one character. *)
Lemma characters_cont (t : list ascii) b l :
  forallb is_cont t = true -> characters b = l ->
  match l with c :: _ => starts_cont c = false | [] => True end ->
  characters (t ++ b) = match t with [] => l | _ => t :: l end.
Proof.
  intros Ht Hb Hl. induction t as [|a t IH]; [exact Hb|].
  simpl in Ht. apply andb_true_iff in Ht as [Ha Ht]. specialize (IH Ht).
  simpl. rewrite IH. destruct t as [|a' t].
  - destruct l as [|c cs]; [reflexivity|]. by rewrite Hl.
  - simpl in Ht. apply andb_true_iff in Ht as [Ha' _]. simpl. by rewrite Ha'.
Qed.

Lemma characters_concat l : grouped l -> characters (concat l) = l.
Proof.
  unfold grouped. induction l as [|c l IH]; intros [HP HQ]; [reflexivity|].
  apply Forall_cons in HP as [[Hc Ht] HP]. simpl in HQ.
  destruct c as [|a t]; [done|]. simpl in Ht.
  assert (Hl : characters (concat l) = l).
  { apply IH. split; [exact HP|]. destruct l; [done|]. by apply Forall_cons in HQ as [_ ?]. }
  assert (Hhead : match l with c :: _ => starts_cont c = false | [] => True end).
  { destruct l; [done|]. by apply Forall_cons in HQ as [? _]. }
  change (concat ((a :: t) :: l)) with (a :: (t ++ concat l)). simpl.
  rewrite (characters_cont t (concat l) l Ht Hl Hhead).
  destruct t as [|a' t].
  - destruct l as [|c cs]; [reflexivity|]. by rewrite Hhead.
  - simpl in Ht. apply andb_true_iff in Ht as [Ha' _]. simpl. by rewrite Ha'.
Qed.

(** *** [strip] *)

Lemma stripped_grouped l : grouped l -> grouped (rev (lstrip (rev (lstrip l)))).
Proof.
  intros Hg. destruct (lstrip_split l) as (pre & Hl & _).
  rewrite Hl in Hg. apply grouped_app in Hg as [_ Hg].
  destruct (lstrip_split (rev (lstrip l))) as (pre' & Hr & _).
  apply (f_equal (@rev _)) in Hr. rewrite rev_involutive, rev_app_distr in Hr.
  rewrite Hr in Hg. by apply grouped_app in Hg as [Hg _].
Qed.

Lemma chars_strip s :
  characters (list_ascii_of_string (str_strip s))
  = rev (lstrip (rev (lstrip (characters (list_ascii_of_string s))))).
Proof.
  unfold str_strip. rewrite list_ascii_of_string_of_list_ascii.
  apply characters_concat, stripped_grouped, characters_grouped.
Qed.

(** The text left by [strip] is empty exactly for a blank text. *)
Lemma str_strip_empty s : str_strip s = "" <-> blank s.
Proof.
  unfold blank.
  assert (H : str_strip s = "" <-> characters (list_ascii_of_string (str_strip s)) = []).
  { rewrite characters_nil. split; [by intros ->|]. intros H. apply chars_inj. by rewrite H. }
  rewrite H, chars_strip. clear H.
  set (l := characters (list_ascii_of_string s)).
  rewrite <- lstrip_nil.
  split.
  - intros H. apply (f_equal (@rev _)) in H. rewrite rev_involutive in H. simpl in H.
    apply lstrip_nil in H. apply Forall_rev in H. rewrite rev_involutive in H.
    pose proof (lstrip_head l) as Hh.
    destruct (lstrip l) as [|c k]; [reflexivity|].
    inversion H as [|? ? Hc _]; subst. simpl in Hh. congruence.
  - intros ->. reflexivity.
Qed.

Lemma str_strip_trimmed s : trimmed (str_strip s).
Proof.
  unfold trimmed. rewrite chars_strip, rev_involutive. split; [|apply lstrip_head].
  set (l := lstrip (characters (list_ascii_of_string s))).
  assert (Hl : head_clear l) by apply lstrip_head.
  destruct (lstrip_split (rev l)) as (pre & Hsplit & _).
  apply (f_equal (@rev _)) in Hsplit. rewrite rev_involutive, rev_app_distr in Hsplit.
  destruct (rev (lstrip (rev l))) as [|c k]; [exact I|].
  rewrite Hsplit in Hl. exact Hl.
Qed.

Lemma str_strip_fixed s : trimmed s -> str_strip s = s.
Proof.
  intros [Hh Ht]. apply chars_inj. unfold str_strip.
  rewrite list_ascii_of_string_of_list_ascii.
  rewrite (lstrip_clear _ Hh), (lstrip_clear _ Ht), rev_involutive.
  apply concat_characters.
Qed.

End Strip.

(** ** The suffix test *)

Section Suffix.

Local Open Scope char_scope.

Lemma lower_dot a : lower_ascii a = "." -> a = ".".
Proof. destruct a as [[] [] [] [] [] [] [] []]; vm_compute; intros H; try discriminate H; auto. Qed.

Lemma lower_p a : lower_ascii a = "p" -> a = "p" \/ a = "P".
Proof. destruct a as [[] [] [] [] [] [] [] []]; vm_compute; intros H; try discriminate H; auto. Qed.

Lemma lower_d a : lower_ascii a = "d" -> a = "d" \/ a = "D".
Proof. destruct a as [[] [] [] [] [] [] [] []]; vm_compute; intros H; try discriminate H; auto. Qed.

Lemma lower_f a : lower_ascii a = "f" -> a = "f" \/ a = "F".
Proof. destruct a as [[] [] [] [] [] [] [] []]; vm_compute; intros H; try discriminate H; auto. Qed.

(** [s.lower() == ".pdf"] holds for the eight spellings of the suffix and
    for nothing else. *)
Lemma str_lower_pdf (s : string) : str_lower s = ".pdf"%string <-> In s pdf_suffixes.
Proof.
  split.
  - intros H. apply (f_equal list_ascii_of_string) in H.
    unfold str_lower in H. rewrite list_ascii_of_string_of_list_ascii in H.
    destruct s as [|a [|b [|c [|d [|e s]]]]]; try discriminate H.
    simpl in H. injection H as Ha Hb Hc Hd.
    apply lower_dot in Ha. apply lower_p in Hb. apply lower_d in Hc. apply lower_f in Hd.
    subst a. destruct Hb, Hc, Hd; subst; simpl; tauto.
  - simpl. intros H. repeat (destruct H as [<-|H]; [reflexivity|]). destruct H.
Qed.

End Suffix.

(** ** Loading and chunking *)

Section Loading.

Context {float : Type} (svc : Services float).

Lemma extend_all (split : string -> list string) (texts : list string) : forall acc,
  fold_left (fun chunks text => chunks ++ split text) texts acc
  = acc ++ concat (split <$> texts).
Proof.
  induction texts as [|t texts IH]; intros acc; simpl.
  - by rewrite app_nil_r.
  - by rewrite IH, app_assoc.
Qed.

Lemma kept_page (d : string) : ~ (d ≠ "" ∧ str_strip d ≠ "") <-> blank d.
Proof.
  rewrite <- str_strip_empty. split.
  - intros H. destruct (decide (str_strip d = "")) as [|Hs]; [assumption|].
    exfalso. apply H. split; [|exact Hs]. by intros ->.
  - intros -> [_ H]. by apply H.
Qed.

Lemma page_texts_nil docs : page_texts docs = [] <-> Forall blank docs.
Proof.
  unfold page_texts. induction docs as [|d docs IH].
  - split; [constructor | reflexivity].
  - destruct (decide (d ≠ "" ∧ str_strip d ≠ "")) as [Hk|Hk].
    + rewrite filter_cons_True by exact Hk. split; [discriminate|].
      intros H. inversion H as [|? ? Hb _]; subst. by apply kept_page in Hb.
    + rewrite filter_cons_False by exact Hk. rewrite IH. apply kept_page in Hk.
      split; [by constructor|]. by inversion 1.
Qed.

Lemma page_texts_trimmed docs :
  Forall (fun t => t ≠ "" /\ trimmed t /\ str_strip t = t) (page_texts docs).
Proof.
  unfold page_texts. apply Forall_fmap, Forall_forall. intros d Hd.
  apply list_elem_of_filter in Hd as [[_ Hs] _]. simpl.
  split; [exact Hs|]. split; [apply str_strip_trimmed|].
  apply str_strip_fixed, str_strip_trimmed.
Qed.

(** The outcome of [load_and_chunk_pdf] once the two path checks pass. *)
Lemma load_checked path pdf_path (w : World float) :
  path_resolve svc path = inr pdf_path ->
  path_exists svc pdf_path = inr true ->
  In (path_suffix svc pdf_path) pdf_suffixes ->
  load_and_chunk_pdf svc path w =
  (w, match pdf_load_data svc pdf_path with
      | inl e => inl e
      | inr docs =>
          match page_texts docs with
          | [] => inl (ValueError "No extractable text found in PDF")
          | _ =>
              match concat (split_text svc <$> page_texts docs) with
              | [] => inl (ValueError "Chunking produced no text")
              | chunks => inr chunks
              end
          end
      end).
Proof.
  intros Hp He Hs. apply str_lower_pdf in Hs. unfold load_and_chunk_pdf, bind, answer_of.
  rewrite Hp, He, Hs. simpl.
  destruct (pdf_load_data svc pdf_path) as [e|docs]; [reflexivity|].
  fold (page_texts docs). rewrite extend_all. simpl.
  destruct (page_texts docs) as [|t texts]; [reflexivity|].
  destruct (concat _); reflexivity.
Qed.

(** The checks a run of [load_and_chunk_pdf] that returns has passed. *)
Lemma load_returned path (w w' : World float) chunks :
  load_and_chunk_pdf svc path w = (w', inr chunks) ->
  exists pdf_path,
    path_resolve svc path = inr pdf_path /\
    path_exists svc pdf_path = inr true /\
    In (path_suffix svc pdf_path) pdf_suffixes.
Proof.
  unfold load_and_chunk_pdf, bind, answer_of. intros Hrun.
  destruct (path_resolve svc path) as [e|pdf_path] eqn:Hp; [discriminate Hrun|].
  destruct (path_exists svc pdf_path) as [e|[|]] eqn:He;
    [discriminate Hrun| |discriminate Hrun].
  exists pdf_path. split; [reflexivity|]. split; [exact He|].
  apply str_lower_pdf.
  destruct (String.eqb_spec (str_lower (path_suffix svc pdf_path)) ".pdf");
    [assumption | simpl in Hrun; discriminate Hrun].
Qed.

(** X1.  When [load_and_chunk_pdf] returns, the path resolved to a file
    that exists, the suffix of the resolved path is one of the eight
    spellings of [.pdf], and the chunks are, in page order, what the
    splitter makes of the stripped texts of the pages that are not
    blank; each text given to the splitter is non-empty, has no
    whitespace character at either end and is unchanged by stripping
    again.  The list returned is never empty, and nothing was sent to a
    provider or to the engine. *)
Theorem load_and_chunk_pdf_returns (path : string) (w w' : World float)
    (chunks : list string) :
  load_and_chunk_pdf svc path w = (w', inr chunks) ->
  w' = w /\ chunks <> [] /\
  exists pdf_path docs,
    path_resolve svc path = inr pdf_path /\
    path_exists svc pdf_path = inr true /\
    In (path_suffix svc pdf_path) pdf_suffixes /\
    pdf_load_data svc pdf_path = inr docs /\
    chunks = concat (split_text svc <$> page_texts docs) /\
    page_texts docs = str_strip <$> filter (fun d => ~ blank d) docs /\
    Forall (fun t => t ≠ "" /\ trimmed t /\ str_strip t = t) (page_texts docs).
Proof.
  intros Hrun.
  destruct (load_returned path w w' chunks Hrun) as (pdf_path & Hp & He & Hs).
  rewrite (load_checked path pdf_path w Hp He Hs) in Hrun.
  destruct (pdf_load_data svc pdf_path) as [e|docs] eqn:Hd; [discriminate Hrun|].
  destruct (page_texts docs) as [|t texts] eqn:Ht; [discriminate Hrun|].
  destruct (concat (split_text svc <$> t :: texts)) as [|c cs] eqn:Hc; [discriminate Hrun|].
  injection Hrun as <- <-.
  split; [reflexivity|]. split; [discriminate|].
  exists pdf_path, docs. split; [exact Hp|]. split; [exact He|]. split; [exact Hs|].
  split; [exact Hd|]. split; [by rewrite Ht, Hc|].
  split; [|apply page_texts_trimmed].
  unfold page_texts. f_equal. apply list_filter_iff. intros d.
  rewrite <- kept_page. split; [tauto|]. apply dec_stable.
Qed.

(** X2.  The checks of [load_and_chunk_pdf], in order.  What
    [expanduser] or [resolve] raises is raised unchanged, and so is an
    error [exists] lets through.  A resolved path that does not exist
    raises the file-not-found error, whatever its suffix; an existing
    file whose suffix is not one of the eight spellings of [.pdf] raises
    the not-a-PDF error; with such a suffix an error of the reader is
    raised unchanged.  In each case nothing is sent out. *)
Theorem load_and_chunk_pdf_path_checks (path : string) (w : World float) :
  (forall e, path_resolve svc path = inl e ->
     load_and_chunk_pdf svc path w = (w, inl e)) /\
  (forall pdf_path e,
     path_resolve svc path = inr pdf_path -> path_exists svc pdf_path = inl e ->
     load_and_chunk_pdf svc path w = (w, inl e)) /\
  (forall pdf_path,
     path_resolve svc path = inr pdf_path -> path_exists svc pdf_path = inr false ->
     load_and_chunk_pdf svc path w =
     (w, inl (FileNotFoundError ("PDF not found: " +:+ pdf_path)))) /\
  (forall pdf_path,
     path_resolve svc path = inr pdf_path -> path_exists svc pdf_path = inr true ->
     ~ In (path_suffix svc pdf_path) pdf_suffixes ->
     load_and_chunk_pdf svc path w =
     (w, inl (ValueError ("Not a PDF file: " +:+ pdf_path)))) /\
  (forall pdf_path e,
     path_resolve svc path = inr pdf_path -> path_exists svc pdf_path = inr true ->
     In (path_suffix svc pdf_path) pdf_suffixes ->
     pdf_load_data svc pdf_path = inl e ->
     load_and_chunk_pdf svc path w = (w, inl e)).
Proof.
  split; [|split; [|split; [|split]]].
  - intros e Hp. unfold load_and_chunk_pdf, bind, answer_of. by rewrite Hp.
  - intros p e Hp He. unfold load_and_chunk_pdf, bind, answer_of. by rewrite Hp, He.
  - intros p Hp He. unfold load_and_chunk_pdf, bind, answer_of. by rewrite Hp, He.
  - intros p Hp He Hs. unfold load_and_chunk_pdf, bind, answer_of. rewrite Hp, He. simpl.
    destruct (String.eqb_spec (str_lower (path_suffix svc p)) ".pdf") as [Hl|_]; [|reflexivity].
    by apply str_lower_pdf in Hl.
  - intros p e Hp He Hs Hr. by rewrite (load_checked path p w Hp He Hs), Hr.
Qed.

(** X3.  For an existing PDF the reader could open, [load_and_chunk_pdf]
    raises the no-extractable-text error exactly when every page text is
    blank (empty or made of whitespace characters only); otherwise at
    least one page is handed to the splitter. *)
Theorem load_and_chunk_pdf_blank (path pdf_path : string) (w : World float)
    (docs : list string) :
  path_resolve svc path = inr pdf_path ->
  path_exists svc pdf_path = inr true ->
  In (path_suffix svc pdf_path) pdf_suffixes ->
  pdf_load_data svc pdf_path = inr docs ->
  (load_and_chunk_pdf svc path w = (w, inl (ValueError "No extractable text found in PDF"))
   <-> Forall blank docs) /\
  (~ Forall blank docs -> page_texts docs <> []).
Proof.
  intros Hp He Hs Hr. rewrite (load_checked path pdf_path w Hp He Hs), Hr, <- page_texts_nil.
  split; [|tauto]. split.
  - intros H. destruct (page_texts docs) as [|t texts]; [reflexivity|].
    destruct (concat _); discriminate H.
  - by intros ->.
Qed.

End Loading.

Lemma load_and_chunk_pdf_returns_witness :
  world0 = world0 /\ ["alpha info"; "beta info"] <> [] /\
  exists pdf_path docs,
    path_resolve padded_provider "notes.pdf" = inr pdf_path /\
    path_exists padded_provider pdf_path = inr true /\
    In (path_suffix padded_provider pdf_path) pdf_suffixes /\
    pdf_load_data padded_provider pdf_path = inr docs /\
    ["alpha info"; "beta info"] = concat (split_text padded_provider <$> page_texts docs) /\
    page_texts docs = str_strip <$> filter (fun d => ~ blank d) docs /\
    Forall (fun t => t ≠ "" /\ trimmed t /\ str_strip t = t) (page_texts docs).
Proof.
  exact (load_and_chunk_pdf_returns padded_provider "notes.pdf" world0 world0
           ["alpha info"; "beta info"] ltac:(vm_compute; reflexivity)).
Defined.

Lemma load_and_chunk_pdf_path_checks_witness :
  load_and_chunk_pdf locked_provider "notes.pdf" world0
  = (world0, inl (OSError "Permission denied")).
Proof.
  exact (proj1 (proj2 (load_and_chunk_pdf_path_checks locked_provider "notes.pdf" world0))
           "notes.pdf" (OSError "Permission denied") eq_refl eq_refl).
Defined.

Lemma load_and_chunk_pdf_blank_witness :
  load_and_chunk_pdf scanned_provider "scan.pdf" world0
  = (world0, inl (ValueError "No extractable text found in PDF"))
  <-> Forall blank [""; nbsp; " " +:+ wide_space +:+ nl].
Proof.
  exact (proj1 (load_and_chunk_pdf_blank scanned_provider "scan.pdf" "scan.pdf" world0
                  [""; nbsp; " " +:+ wide_space +:+ nl] eq_refl eq_refl
                  ltac:(simpl; tauto) eq_refl)).
Defined.

(** ** More on the embedder *)

Section EmbedderMore.

Context {float : Type} (svc : Services float).

Lemma embed_loop_fail (done : list (list string)) : forall b rest acc (w : World float) datas e,
  responses svc (trace w) (done ++ [b]) = (inr <$> datas) ++ [inl e] ->
  embed_loop svc (done ++ b :: rest) acc w =
  (mkWorld (engine w) (trace w ++ (EmbeddingsCreate EMBED_MODEL <$> done ++ [b])), inl e).
Proof.
  induction done as [|d0 done IH]; intros b rest acc w datas e Hr.
  - simpl in Hr. destruct datas as [|d [|d' ds]]; try discriminate Hr.
    injection Hr as Hr. unfold embed_loop. simpl. unfold bind at 1. unfold bind at 1.
    unfold client_embeddings_create at 1. by rewrite Hr.
  - simpl in Hr. destruct datas as [|d ds].
    { destruct done; discriminate Hr. }
    injection Hr as Hd Hr.
    unfold embed_loop. simpl. unfold bind at 1. unfold bind at 1.
    unfold client_embeddings_create at 1. rewrite Hd. unfold ret at 1.
    fold (embed_loop svc (done ++ b :: rest) (acc ++ d)).
    rewrite (IH b rest (acc ++ d) (log (EmbeddingsCreate EMBED_MODEL d0) w) ds e Hr).
    simpl. by rewrite <- !app_assoc.
Qed.

(** X4.  A provider error stops [embed_texts] at once: when the provider
    answers the first batches and raises on the next one, the run raises
    that same error, the batches up to and including the failing one
    were sent in order, the later ones were never sent, and the engine
    is untouched. *)
Theorem embed_texts_provider_failure (texts : list string) (batch_size : Z)
    (w : World float) (done : list (list string)) (b : list string)
    (rest : list (list string)) (datas : list (list (list float))) (e : Exn) :
  texts <> [] -> batch_size <> 0 ->
  batches_of texts batch_size = done ++ b :: rest ->
  responses svc (trace w) (done ++ [b]) = (inr <$> datas) ++ [inl e] ->
  embed_texts svc texts batch_size w =
  (mkWorld (engine w) (trace w ++ (EmbeddingsCreate EMBED_MODEL <$> done ++ [b])), inl e).
Proof.
  intros Ht Hb Hbatches Hr. rewrite embed_texts_unfold by done. rewrite Hbatches.
  apply bind_fail. by eapply embed_loop_fail.
Qed.

Lemma batches_of_negative {A} (l : list A) bs : bs < 0 -> batches_of l bs = [].
Proof.
  intros Hb. unfold batches_of, batch_starts, range_len.
  destruct (Z.ltb_spec 0 bs) as [|_]; [lia|].
  replace (Z.to_nat ((0 - len l - bs - 1) / - bs)) with 0%nat; [reflexivity|].
  assert ((0 - len l - bs - 1) / - bs < 1); [|lia].
  apply Z.div_lt_upper_bound; unfold len; lia.
Qed.

(** X5.  A batch size that is not positive never reaches the provider:
    on a non-empty input, batch size zero raises the error of [range]
    and a negative batch size raises the count-mismatch error, in both
    cases with no call made. *)
Theorem embed_texts_bad_batch_size (texts : list string) (batch_size : Z)
    (w : World float) :
  texts <> [] -> batch_size <= 0 ->
  embed_texts svc texts batch_size w =
  (w, inl (if batch_size =? 0 then ValueError "range() arg 3 must not be zero"
           else CountMismatch)).
Proof.
  intros Ht Hb. destruct (Z.eqb_spec batch_size 0) as [->|Hne].
  - by destruct texts.
  - rewrite (embed_texts_answered svc texts batch_size w []) by
      (try done; by rewrite batches_of_negative by lia).
    rewrite batches_of_negative by lia. rewrite validate_run.
    simpl fmap. simpl concat. rewrite app_nil_r.
    destruct (Z.eqb_spec (len (@nil (list float))) (len texts)) as [Hl|_].
    { destruct texts; [done | discriminate Hl]. }
    by destruct w.
Qed.

Lemma batches_of_single {A} (l : list A) bs :
  l <> [] -> len l <= bs -> batches_of l bs = [l].
Proof.
  intros Hl Hb. assert (0 < len l) by (destruct l; [done | unfold len; simpl; lia]).
  rewrite batches_of_windows by lia.
  pose proof (range_len_ceil (len l) bs ltac:(lia) ltac:(lia)) as [_ [Hlo Hhi]].
  assert (Hone : range_len 0 (len l) bs = 1%nat) by nia.
  rewrite Hone. simpl. rewrite drop_0, take_ge; [reflexivity|]. unfold len in Hb. lia.
Qed.

Lemma embed_texts_one_batch (texts : list string) (batch_size : Z)
    (w w' : World float) (r : Exn + list (list float)) :
  texts <> [] -> len texts <= batch_size ->
  embed_texts svc texts batch_size w = (w', r) ->
  batches_of texts batch_size = [texts] /\
  new_calls w w' = [EmbeddingsCreate EMBED_MODEL texts] /\
  engine w' = engine w.
Proof.
  intros Ht Hb Hrun.
  assert (0 < len texts) by (destruct texts; [done | unfold len; simpl; lia]).
  pose proof (batches_of_single texts batch_size Ht Hb) as Hone.
  split; [exact Hone|].
  rewrite embed_texts_unfold in Hrun by (done || lia). rewrite Hone in Hrun.
  apply bind_inv in Hrun as [(e & Hloop & _)|(w1 & vs & Hloop & Hval)].
  - apply embed_loop_inv in Hloop as (He & n & datas & Hn & Htr & _).
    simpl in Hn. replace n with 0%nat in Htr by lia. simpl in Htr.
    split; [by apply new_calls_app | exact He].
  - apply embed_loop_inv in Hloop as (He & Htr & _).
    rewrite validate_run in Hval. injection Hval as <- _.
    split; [by apply new_calls_app | exact He].
Qed.

(** X6.  Texts that fit into one batch are sent whole in a single call:
    whatever the outcome, a run on a non-empty input no longer than the
    batch size makes exactly one provider call, with all the texts, and
    leaves the engine as it was. *)
Theorem embed_texts_single_batch (texts : list string) (batch_size : Z)
    (w w' : World float) (r : Exn + list (list float)) :
  texts <> [] -> len texts <= batch_size ->
  embed_texts svc texts batch_size w = (w', r) ->
  batches_of texts batch_size = [texts] /\
  new_calls w w' = [EmbeddingsCreate EMBED_MODEL texts] /\
  engine w' = engine w.
Proof. apply embed_texts_one_batch. Qed.

End EmbedderMore.

Lemma embed_texts_provider_failure_witness :
  (embed_texts flaky_provider ["a"; "b"; "c"] 1 world0).2
  = inl (ProviderError "rate limit").
Proof.
  rewrite (embed_texts_provider_failure flaky_provider ["a"; "b"; "c"] 1 world0
             [["a"]] ["b"] [["c"]] [[repeat 0 3072]] (ProviderError "rate limit")
             ltac:(discriminate) ltac:(lia) eq_refl eq_refl).
  reflexivity.
Defined.

Lemma embed_texts_bad_batch_size_witness :
  embed_texts (uniform_provider 3072) ["a"; "b"] (-3) world0 = (world0, inl CountMismatch).
Proof.
  exact (embed_texts_bad_batch_size (uniform_provider 3072) ["a"; "b"] (-3) world0
           ltac:(discriminate) ltac:(lia)).
Defined.

Lemma embed_texts_single_batch_witness :
  new_calls world0 (embed_texts (uniform_provider 3072) ["What is alpha?"] 100 world0).1
  = [EmbeddingsCreate EMBED_MODEL ["What is alpha?"]].
Proof.
  exact (proj1 (proj2 (embed_texts_single_batch (uniform_provider 3072) ["What is alpha?"] 100
                         world0 _ _ ltac:(discriminate) ltac:(unfold len; simpl; lia)
                         (surjective_pairing _)))).
Defined.

(** ** More on the vector store *)

Section StoreMore.

Context {float : Type} (svc : Services float).

Local Abbreviation Points := (gmap string (list float * option (gmap string string))).

(** The entry written last under a key is the one found afterwards. *)
Lemma writes_lookup_last {V} (l : list (string * V)) : forall (m : gmap string V) i k v,
  l !! i = Some (k, v) ->
  (forall j kv, (i < j)%nat -> l !! j = Some kv -> kv.1 ≠ k) ->
  writes l m !! k = Some v.
Proof.
  induction l as [|kv l IH]; intros m i k v Hi Hlast; [done|].
  rewrite writes_cons. destruct i as [|i].
  - injection Hi as ->. simpl. rewrite writes_lookup_other; [apply lookup_insert_eq|].
    intros Hin. apply list_elem_of_fmap in Hin as (kv & Hk & Hin).
    apply list_elem_of_lookup in Hin as [j Hj].
    apply (Hlast (S j) kv ltac:(lia) Hj). by rewrite Hk.
  - apply (IH _ i); [exact Hi|]. intros j kv' Hj Hl. apply (Hlast (S j) kv'); [lia | exact Hl].
Qed.

Lemma zip_points_take (ids : list string) (vectors : list (list float))
    (payloads : list (gmap string string)) :
  zip_points ids (take (length ids) vectors) (take (length ids) payloads)
  = zip_points ids vectors payloads.
Proof.
  apply list_eq. intros i. rewrite !zip_points_lookup. unfold point_at.
  destruct (ids !! i) eqn:Hi; simpl; [|reflexivity]. apply lookup_lt_Some in Hi.
  by rewrite !lookup_take_lt by exact Hi.
Qed.

(** X7.  [upsert] looks at no vector or payload beyond the number of its
    ids: giving it the lists cut to that number gives the same run. *)
Theorem upsert_drops_surplus (self : QdrantStorage) (ids : list string)
    (vectors : list (list float)) (payloads : list (gmap string string))
    (w : World float) :
  QdrantStorage_upsert self ids vectors payloads w =
  QdrantStorage_upsert self ids (take (length ids) vectors) (take (length ids) payloads) w.
Proof.
  unfold QdrantStorage_upsert.
  destruct (decide ((length ids <= length vectors)%nat
                    /\ (length ids <= length payloads)%nat)) as [[Hv Hp]|Hshort].
  - rewrite (bind_run _ _ w w _ (upsert_points_ok ids vectors payloads Hv Hp w)).
    assert (Hv' : (length ids <= length (take (length ids) vectors))%nat)
      by (rewrite length_take; lia).
    assert (Hp' : (length ids <= length (take (length ids) payloads))%nat)
      by (rewrite length_take; lia).
    rewrite (bind_run _ _ w w _ (upsert_points_ok ids _ _ Hv' Hp' w)).
    by rewrite zip_points_take.
  - assert (Hs : (length vectors < length ids)%nat \/ (length payloads < length ids)%nat)
      by lia.
    rewrite (bind_fail _ _ w w _ (upsert_points_short ids vectors payloads Hs w)).
    assert (Hs' : (length (take (length ids) vectors) < length ids)%nat
                  \/ (length (take (length ids) payloads) < length ids)%nat)
      by (rewrite !length_take; lia).
    by rewrite (bind_fail _ _ w w _ (upsert_points_short ids _ _ Hs' w)).
Qed.

Lemma upsert_inv (self : QdrantStorage) (ids : list string)
    (vectors : list (list float)) (payloads : list (gmap string string))
    (w w' : World float) (u : unit) :
  QdrantStorage_upsert self ids vectors payloads w = (w', inr u) ->
  (length ids <= length vectors)%nat /\ (length ids <= length payloads)%nat /\
  reachable (engine w) = true /\
  trace w' = trace w ++ [Upsert (collection self) (zip_points ids vectors payloads)] /\
  exists c,
    collections (engine w) !! collection self = Some c /\
    points_accepted c (zip_points ids vectors payloads) = true /\
    engine w' =
    mkEngine (reachable (engine w))
      (<[collection self :=
           mkCollection (config c)
             (writes (point_entry <$> zip_points ids vectors payloads) (points c))]>
         (collections (engine w))).
Proof.
  intros Hrun. unfold QdrantStorage_upsert in Hrun.
  destruct (decide ((length ids <= length vectors)%nat
                    /\ (length ids <= length payloads)%nat)) as [[Hv Hp]|Hshort].
  - erewrite bind_run in Hrun by apply (upsert_points_ok ids vectors payloads Hv Hp).
    unfold client_upsert, engine_call in Hrun.
    destruct (reachable (engine w)) eqn:Hr; [|discriminate Hrun].
    destruct (collections (engine w) !! collection self) as [c|] eqn:Hc; [|discriminate Hrun].
    destruct (points_accepted c _) eqn:Hok; [|discriminate Hrun].
    injection Hrun as <- _. rewrite fold_write_point.
    repeat split; try done. by exists c.
  - erewrite bind_fail in Hrun by (apply (upsert_points_short ids vectors payloads); lia).
    discriminate Hrun.
Qed.

(** X8.  After an [upsert] that returned, each id is found in the
    collection with the vector and payload of its index, the last index
    when an id occurs more than once; the ids in the collection are the
    earlier ones and the ids given; points under other ids and all other
    collections are as before. *)
Theorem upsert_round_trip (self : QdrantStorage) (ids : list string)
    (vectors : list (list float)) (payloads : list (gmap string string))
    (w w' : World float) (u : unit) :
  QdrantStorage_upsert self ids vectors payloads w = (w', inr u) ->
  (forall i id,
     ids !! i = Some id -> (forall j, (i < j)%nat -> ids !! j ≠ Some id) ->
     exists v p, vectors !! i = Some v /\ payloads !! i = Some p /\
                 stored w' (collection self) !! id = Some (v, Some p)) /\
  dom (stored w' (collection self)) = dom (stored w (collection self)) ∪ list_to_set ids /\
  (forall id, id ∉ ids ->
     stored w' (collection self) !! id = stored w (collection self) !! id) /\
  (forall name, name ≠ collection self ->
     collections (engine w') !! name = collections (engine w) !! name).
Proof.
  intros Hrun. apply upsert_inv in Hrun as (Hv & Hp & _ & _ & c & Hc & _ & He).
  assert (Hs : stored w' (collection self)
               = writes (point_entry <$> zip_points ids vectors payloads)
                   (stored w (collection self))).
  { unfold stored. rewrite He, Hc. simpl. by rewrite lookup_insert_eq. }
  assert (Hk : (point_entry <$> zip_points ids vectors payloads).*1 = ids).
  { rewrite point_entry_keys. by apply zip_points_ids. }
  split; [|split; [|split]].
  - intros i id Hi Hlast.
    destruct (lookup_lt_is_Some_2 vectors i) as [v Hvi];
      [apply lookup_lt_Some in Hi; lia|].
    destruct (lookup_lt_is_Some_2 payloads i) as [q Hpi];
      [apply lookup_lt_Some in Hi; lia|].
    exists v, q. split; [exact Hvi|]. split; [exact Hpi|].
    rewrite Hs. apply (writes_lookup_last _ _ i).
    + rewrite list_lookup_fmap, zip_points_lookup. unfold point_at.
      by rewrite Hi, Hvi, Hpi.
    + intros j kv Hj Hl Heq. apply (Hlast j Hj).
      apply (f_equal (fmap fst)) in Hl. rewrite <- list_lookup_fmap, Hk in Hl.
      rewrite Hl. simpl. by rewrite Heq.
  - by rewrite Hs, writes_dom, Hk.
  - intros id Hid. rewrite Hs. apply writes_lookup_other. by rewrite Hk.
  - intros name Hne. rewrite He. simpl. by apply lookup_insert_ne.
Qed.

Lemma init_inv url name dim (w w1 : World float) s :
  QdrantStorage_init url name dim w = (w1, inr s) ->
  s = mkStorage url name /\ reachable (engine w) = true /\ reachable (engine w1) = true /\
  exists c,
    collections (engine w1) !! name = Some c /\
    (forall other, other ≠ name ->
       collections (engine w1) !! other = collections (engine w) !! other) /\
    (collections (engine w) !! name = Some c \/
     collections (engine w) !! name = None /\ c = mkCollection (mkVectorParams dim COSINE) ∅).
Proof.
  intros Hrun. destruct (reachable (engine w)) eqn:Hr.
  - destruct (collections (engine w) !! name) as [c|] eqn:Hc.
    + rewrite (init_present url name dim w c Hr Hc) in Hrun. injection Hrun as <- <-.
      repeat split; try done. exists c. simpl. split; [exact Hc|]. split; [done | by left].
    + rewrite (init_absent url name dim w Hr Hc) in Hrun. injection Hrun as <- <-.
      repeat split; try done. eexists. simpl. split; [apply lookup_insert_eq|].
      split; [|by right]. intros other Hne. by apply lookup_insert_ne.
  - rewrite (init_unreachable url name dim w Hr) in Hrun. discriminate Hrun.
Qed.

(** X9.  Constructing the store creates the collection at most once.
    After a construction that returned, the collection exists: the one
    that was there, untouched, or a new empty one of the given size with
    the cosine distance.  Constructing again at the same url for the
    same name, with any size, makes the reachability call and the
    existence check only and leaves the engine as it is: the size is not
    compared with that of an existing collection. *)
Theorem store_open_once (url name : string) (dim : Z) (w w1 : World float)
    (s : QdrantStorage) :
  QdrantStorage_init url name dim w = (w1, inr s) ->
  (exists c,
     collections (engine w1) !! name = Some c /\
     (collections (engine w) !! name = Some c \/
      collections (engine w) !! name = None /\
      c = mkCollection (mkVectorParams dim COSINE) ∅)) /\
  (forall other, other ≠ name ->
     collections (engine w1) !! other = collections (engine w) !! other) /\
  (forall dim',
     QdrantStorage_init url name dim' w1 =
     (mkWorld (engine w1) (trace w1 ++ [GetCollections; CollectionExists name]),
      inr (mkStorage url name))).
Proof.
  intros Hrun. apply init_inv in Hrun as (_ & _ & Hr1 & c & Hc & Hother & Hcase).
  split; [by exists c|]. split; [exact Hother|].
  intros dim'. by apply (init_present url name dim' w1 c).
Qed.

Lemma search_effects (self : QdrantStorage) (query : list float) (top_k : Z)
    (w w' : World float) r :
  QdrantStorage_search svc self query top_k w = (w', r) ->
  engine w' = engine w /\
  trace w' = trace w ++ [QueryPoints (collection self) query top_k].
Proof.
  intros Hrun. unfold QdrantStorage_search in Hrun.
  assert (Hq : forall w1 x,
            client_query_points svc (collection self) query top_k w = (w1, x) ->
            engine w1 = engine w /\
            trace w1 = trace w ++ [QueryPoints (collection self) query top_k]).
  { intros w1 x Hq. unfold client_query_points, engine_call in Hq.
    destruct (reachable (engine w));
      [destruct (collections (engine w) !! collection self) as [c|];
         [destruct (top_k <? 1); [|destruct (negb (len query =? size (config c)))]|]|];
      injection Hq as <- _; by split. }
  apply bind_inv in Hrun as [(e & Hrun & _)|(w1 & pts & Hrun & Hret)].
  - by apply Hq in Hrun.
  - apply Hq in Hrun. destruct (fold_left search_visit pts ([], ∅)).
    by injection Hret as <- _.
Qed.

(** X10.  [search] only reads.  Whatever its outcome it makes exactly
    one call, the query, and leaves the engine as it was.  It returns
    when the engine is reachable, the collection exists, [top_k] is at
    least one and the query vector has the size of the collection; with
    a query vector of another size the engine refuses the query and
    [search] raises that error. *)
Theorem search_read_only (self : QdrantStorage) (query : list float) (top_k : Z)
    (w : World float) :
  (forall w' r, QdrantStorage_search svc self query top_k w = (w', r) ->
     engine w' = engine w /\
     new_calls w w' = [QueryPoints (collection self) query top_k]) /\
  (forall c,
     reachable (engine w) = true ->
     collections (engine w) !! collection self = Some c ->
     1 <= top_k ->
     (len query = size (config c) ->
      exists res,
        QdrantStorage_search svc self query top_k w
        = (log (QueryPoints (collection self) query top_k) w, inr res)) /\
     (len query <> size (config c) ->
      QdrantStorage_search svc self query top_k w
      = (log (QueryPoints (collection self) query top_k) w,
         inl (EngineError (BadRequest "vector"))))).
Proof.
  split.
  { intros w' r Hrun. apply search_effects in Hrun as [He Htr].
    split; [exact He | by apply new_calls_app]. }
  intros c Hr Hc Hk. unfold QdrantStorage_search, bind, client_query_points.
  rewrite engine_call_up by exact Hr. rewrite Hc.
  destruct (Z.ltb_spec top_k 1) as [|_]; [lia|].
  destruct (Z.eqb_spec (len query) (size (config c))) as [Hq|Hq]; simpl.
  - split; [|done]. intros _.
    destruct (fold_left search_visit _ _). eexists. unfold ret, log.
    by destruct (engine w).
  - split; [done|]. intros _. reflexivity.
Qed.

End StoreMore.

Lemma upsert_round_trip_witness :
  dom (stored (QdrantStorage_upsert default_store
                 [deriveId "doc1" 0; deriveId "doc1" 1; deriveId "doc1" 0]
                 [repeat 1 3072; repeat 2 3072; repeat 3 3072] [∅; ∅; ∅]
                 (QdrantStorage_init "http://localhost:6333" "docs" 3072 world0).1).1 "docs")
  = dom (stored (QdrantStorage_init "http://localhost:6333" "docs" 3072 world0).1 "docs")
    ∪ list_to_set [deriveId "doc1" 0; deriveId "doc1" 1; deriveId "doc1" 0].
Proof.
  exact (proj1 (proj2 (upsert_round_trip default_store
                         [deriveId "doc1" 0; deriveId "doc1" 1; deriveId "doc1" 0]
                         [repeat 1 3072; repeat 2 3072; repeat 3 3072] [∅; ∅; ∅]
                         (QdrantStorage_init "http://localhost:6333" "docs" 3072 world0).1
                         (QdrantStorage_upsert default_store
                            [deriveId "doc1" 0; deriveId "doc1" 1; deriveId "doc1" 0]
                            [repeat 1 3072; repeat 2 3072; repeat 3 3072] [∅; ∅; ∅]
                            (QdrantStorage_init "http://localhost:6333" "docs" 3072 world0).1).1
                         tt ltac:(vm_compute; reflexivity)))).
Defined.

Lemma search_read_only_witness :
  QdrantStorage_search (uniform_provider 3072) default_store [0] 5 world_doc1
  = (log (QueryPoints "docs" [0] 5) world_doc1, inl (EngineError (BadRequest "vector"))).
Proof.
  destruct (collections (engine world_doc1) !! "docs") as [c|] eqn:Hc;
    [|vm_compute in Hc; discriminate Hc].
  refine (proj2 (proj2 (search_read_only (uniform_provider 3072) default_store [0] 5 world_doc1)
                   c _ Hc _) _).
  - reflexivity.
  - lia.
  - assert (Hs : size (config c) = 3072).
    { vm_compute in Hc. injection Hc as <-. reflexivity. }
    rewrite Hs. vm_compute. discriminate.
Defined.

Lemma store_open_once_witness :
  QdrantStorage_init "http://localhost:6333" "docs" 768
    (QdrantStorage_init "http://localhost:6333" "docs" 3072 world0).1
  = (mkWorld (engine (QdrantStorage_init "http://localhost:6333" "docs" 3072 world0).1)
       (trace (QdrantStorage_init "http://localhost:6333" "docs" 3072 world0).1
          ++ [GetCollections; CollectionExists "docs"]),
     inr (mkStorage "http://localhost:6333" "docs")).
Proof.
  exact (proj2 (proj2 (store_open_once "http://localhost:6333" "docs" 3072 world0
                         (QdrantStorage_init "http://localhost:6333" "docs" 3072 world0).1
                         (mkStorage "http://localhost:6333" "docs") eq_refl))
           768).
Defined.

(** ** More on the ingestion workflow *)

Section IngestionMore.

Context {float : Type} (svc : Services float).

Lemma load_and_chunk_pdf_pure (path : string) :
  exists g, pure (load_and_chunk_pdf svc path) g /\
            forall chunks, g = inr chunks -> chunks <> [].
Proof.
  unfold load_and_chunk_pdf, bind, answer_of.
  destruct (path_resolve svc path) as [e|pdf_path];
    [eexists; split; [by intros w | discriminate]|].
  destruct (path_exists svc pdf_path) as [e|found];
    [eexists; split; [by intros w | discriminate]|].
  destruct (negb found); [eexists; split; [by intros w | discriminate]|].
  destruct (negb _); [eexists; split; [by intros w | discriminate]|].
  destruct (pdf_load_data svc _) as [e|docs];
    [eexists; split; [by intros w | discriminate]|].
  destruct (str_strip <$> _) as [|t texts];
    [eexists; split; [by intros w | discriminate]|].
  destruct (fold_left _ _ _) as [|c chunks];
    [eexists; split; [by intros w | discriminate]|].
  eexists. split; [by intros w|]. intros chunks0 Heq. injection Heq as <-. discriminate.
Qed.

(** X11.  [load_step] and what follows it.  An event without a
    ["pdf_path"] raises the key error.  When [load_step] returns, the
    chunks are not empty and the source id is the event's ["source_id"]
    or, without one, the ["pdf_path"] exactly as the event gives it.
    When [load_step] fails the workflow fails with the same error and
    the world is unchanged: no provider or engine call was made. *)
Theorem load_step_outcomes (ev : IngestEvent) (w : World float) :
  (ev_pdf_path ev = None -> load_step svc ev w = (w, inl (KeyError "pdf_path"))) /\
  (forall w' data, load_step svc ev w = (w', inr data) ->
     w' = w /\ cd_chunks data <> [] /\
     exists pdf_path,
       ev_pdf_path ev = Some pdf_path /\
       cd_source_id data = default pdf_path (ev_source_id ev) /\
       load_and_chunk_pdf svc pdf_path w = (w, inr (cd_chunks data))) /\
  (forall w' e, load_step svc ev w = (w', inl e) ->
     w' = w /\ rag_ingest_pdf svc ev w = (w, inl e)).
Proof.
  split; [|split].
  - intros H. unfold load_step. by rewrite H.
  - intros w' data Hrun. unfold load_step in Hrun.
    destruct (ev_pdf_path ev) as [pdf_path|]; [|discriminate Hrun].
    destruct (load_and_chunk_pdf_pure pdf_path) as (g & Hg & Hne).
    unfold bind in Hrun. rewrite Hg in Hrun. destruct g as [e|chunks]; [discriminate Hrun|].
    injection Hrun as <- <-. simpl. split; [reflexivity|]. split; [by apply Hne|].
    exists pdf_path. split; [reflexivity|]. split; [reflexivity|]. apply Hg.
  - intros w' e Hrun. destruct (load_step_pure svc ev) as [g Hg].
    rewrite Hg in Hrun. injection Hrun as <- ->. split; [reflexivity|].
    unfold rag_ingest_pdf, step_run, bind. by rewrite Hg.
Qed.

(** The collection configuration an ingestion ends up with. *)
Lemma upsert_step_success data (w w' : World float) n :
  upsert_step svc data w = (w', inr n) ->
  exists wa vectors,
    embed_texts svc (cd_chunks data) 100 w = (wa, inr vectors) /\
    n = len (cd_chunks data) /\
    reachable (engine w) = true /\
    w' = mkWorld
           (mkEngine true
              (<["docs" :=
                   mkCollection
                     (match collections (engine w) !! "docs" with
                      | Some c => config c
                      | None => mkVectorParams 3072 COSINE
                      end)
                     (writes (point_entry <$>
                                zip_points (chunk_ids data) vectors (chunk_payloads data))
                             (stored w "docs"))]>
                 (collections (engine w))))
           (trace wa ++ [GetCollections; CollectionExists "docs"]
              ++ match collections (engine w) !! "docs" with
                 | Some _ => []
                 | None => [CreateCollection "docs" (mkVectorParams 3072 COSINE)]
                 end
              ++ [Upsert "docs" (zip_points (chunk_ids data) vectors (chunk_payloads data))]).
Proof.
  intros Hrun.
  destruct (embed_texts svc (cd_chunks data) 100 w) as [wa [e|vectors]] eqn:He.
  { unfold upsert_step in Hrun. erewrite bind_fail in Hrun by exact He. discriminate Hrun. }
  rewrite (upsert_step_embedded svc data w wa vectors He) in Hrun.
  pose proof He as (_ & _ & _ & Heng & _)%embed_texts_returns.
  exists wa, vectors. split; [reflexivity|].
  unfold QdrantStorage_default in Hrun. unfold stored. rewrite <- Heng.
  destruct (reachable (engine wa)) eqn:Hreach.
  - destruct (collections (engine wa) !! "docs") as [c|] eqn:Hc.
    + erewrite bind_run in Hrun by (by eapply init_present).
      unfold client_upsert, bind in Hrun. simpl collection in Hrun.
      rewrite engine_call_up in Hrun by exact Hreach. simpl in Hrun. rewrite Hc in Hrun.
      destruct (points_accepted c _); [|discriminate Hrun].
      injection Hrun as <- <-. split; [reflexivity|]. split; [reflexivity|].
      rewrite fold_write_point, Hreach. f_equal. by rewrite <- !app_assoc.
    + erewrite bind_run in Hrun by (by eapply init_absent).
      unfold client_upsert, bind in Hrun. simpl collection in Hrun.
      rewrite engine_call_up in Hrun by reflexivity. simpl in Hrun.
      rewrite lookup_insert_eq in Hrun.
      destruct (points_accepted _ _); [|discriminate Hrun].
      injection Hrun as <- <-. split; [reflexivity|]. split; [reflexivity|].
      rewrite fold_write_point, insert_insert_eq. simpl. f_equal. by rewrite <- !app_assoc.
  - erewrite bind_fail in Hrun by (by eapply init_unreachable). discriminate Hrun.
Qed.

(** A failed [upsert_step] wrote no point: the engine is as before, or
    has the empty ["docs"] collection the store constructor created. *)
Lemma upsert_step_failure data (w w' : World float) e :
  upsert_step svc data w = (w', inl e) ->
  engine w' = engine w \/ engine w' = with_docs (engine w).
Proof.
  intros Hrun.
  destruct (embed_texts svc (cd_chunks data) 100 w) as [wa [e'|vectors]] eqn:He.
  { unfold upsert_step in Hrun. erewrite bind_fail in Hrun by exact He.
    injection Hrun as <- _. left. by apply embed_texts_calls in He as [? _]. }
  rewrite (upsert_step_embedded svc data w wa vectors He) in Hrun.
  pose proof He as (_ & _ & _ & Heng & _)%embed_texts_returns. rewrite <- Heng.
  unfold QdrantStorage_default in Hrun.
  destruct (reachable (engine wa)) eqn:Hreach.
  - destruct (collections (engine wa) !! "docs") as [c|] eqn:Hc.
    + erewrite bind_run in Hrun by (by eapply init_present).
      unfold client_upsert, bind in Hrun. simpl collection in Hrun.
      rewrite engine_call_up in Hrun by exact Hreach. simpl in Hrun. rewrite Hc in Hrun.
      destruct (points_accepted c _); [discriminate Hrun|].
      injection Hrun as <- _. by left.
    + erewrite bind_run in Hrun by (by eapply init_absent).
      unfold client_upsert, bind in Hrun. simpl collection in Hrun.
      rewrite engine_call_up in Hrun by reflexivity. simpl in Hrun.
      rewrite lookup_insert_eq in Hrun.
      destruct (points_accepted _ _); [discriminate Hrun|].
      injection Hrun as <- _. right. unfold with_docs. by rewrite Hc, Hreach.
  - erewrite bind_fail in Hrun by (by eapply init_unreachable).
    injection Hrun as <- _. by left.
Qed.

Lemma chunk_ids_lookup data i :
  (i < length (cd_chunks data))%nat ->
  chunk_ids data !! i = Some (deriveId (cd_source_id data) i).
Proof. intros Hi. unfold chunk_ids. rewrite list_lookup_fmap, lookup_seq_lt by exact Hi. done. Qed.

(** X12.  What an ingestion stores can be read back.  After a run that
    returned, the count returned is the number of chunks, at least one;
    and under the id derived from the source id and an offset the
    collection holds the vector the provider gave for that chunk and the
    payload with the chunk as ["text"] and the source id as ["source"],
    unless a later offset of the run derived the same id. *)
Theorem ingestion_round_trip (ev : IngestEvent) (w w1 : World float) (n : Z) :
  rag_ingest_pdf svc ev w = (w1, inr n) ->
  exists data vectors,
    load_step svc ev w = (w, inr data) /\
    (exists wa, embed_texts svc (cd_chunks data) 100 w = (wa, inr vectors)) /\
    n = len (cd_chunks data) /\ 1 <= n /\
    forall i chunk,
      cd_chunks data !! i = Some chunk ->
      (forall j, (i < j < length (cd_chunks data))%nat ->
                 deriveId (cd_source_id data) j ≠ deriveId (cd_source_id data) i) ->
      exists v,
        vectors !! i = Some v /\
        stored w1 "docs" !! deriveId (cd_source_id data) i
        = Some (v, Some {[ "text" := chunk; "source" := cd_source_id data ]}).
Proof.
  intros Hrun. apply rag_ingest_pdf_inv in Hrun as (data & Hload & Hup).
  apply upsert_step_success in Hup as (wa & vectors & He & -> & _ & ->).
  exists data, vectors. split; [apply Hload|]. split; [by exists wa|].
  pose proof He as (Hne & _ & _ & _ & Hlen & _)%embed_texts_returns.
  split; [reflexivity|].
  split; [destruct (cd_chunks data); [done | unfold len; simpl; lia]|].
  intros i chunk Hi Hlast. pose proof (lookup_lt_Some _ _ _ Hi) as Hlt.
  unfold len in Hlen.
  destruct (lookup_lt_is_Some_2 vectors i ltac:(lia)) as [v Hv].
  exists v. split; [exact Hv|].
  unfold stored at 1. simpl. rewrite lookup_insert_eq. simpl.
  apply (writes_lookup_last _ _ i).
  - rewrite list_lookup_fmap, zip_points_lookup. unfold point_at.
    rewrite chunk_ids_lookup by exact Hlt. rewrite Hv. unfold chunk_payloads.
    rewrite list_lookup_fmap, Hi. reflexivity.
  - intros j kv Hj Hl Heq.
    rewrite list_lookup_fmap, zip_points_lookup in Hl. unfold point_at in Hl.
    destruct (chunk_ids data !! j) as [idj|] eqn:Hidj; [|discriminate Hl].
    pose proof (lookup_lt_Some _ _ _ Hidj) as Hjlt. rewrite chunk_ids_length in Hjlt.
    rewrite chunk_ids_lookup in Hidj by exact Hjlt. injection Hidj as <-.
    simpl in Hl. destruct (vectors !! j); [|discriminate Hl]. simpl in Hl.
    destruct (chunk_payloads data !! j); [|discriminate Hl]. simpl in Hl.
    injection Hl as <-. simpl in Heq. apply (Hlast j); [lia | exact Heq].
Qed.

(** X13.  What an ingestion leaves alone.  Whatever its outcome, a run
    keeps the engine reachable as it was, every collection other than
    ["docs"] as it was, the configuration of an existing ["docs"]
    collection as it was, every point id already stored, and the point
    stored under any id that is not derived from the loaded chunks. *)
Theorem ingestion_frame (ev : IngestEvent) (w w1 : World float) (r : Exn + Z) :
  rag_ingest_pdf svc ev w = (w1, r) ->
  reachable (engine w1) = reachable (engine w) /\
  (forall name, name ≠ "docs" ->
     collections (engine w1) !! name = collections (engine w) !! name) /\
  (forall c, collections (engine w) !! "docs" = Some c ->
     exists c', collections (engine w1) !! "docs" = Some c' /\ config c' = config c) /\
  dom (stored w "docs") ⊆ dom (stored w1 "docs") /\
  (forall id,
     (forall data, load_step svc ev w = (w, inr data) -> id ∉ chunk_ids data) ->
     stored w1 "docs" !! id = stored w "docs" !! id).
Proof.
  intros Hrun.
  assert (Hsame : engine w1 = engine w \/ engine w1 = with_docs (engine w) ->
            reachable (engine w1) = reachable (engine w) /\
            (forall name, name ≠ "docs" ->
               collections (engine w1) !! name = collections (engine w) !! name) /\
            (forall c, collections (engine w) !! "docs" = Some c ->
               exists c', collections (engine w1) !! "docs" = Some c' /\ config c' = config c) /\
            dom (stored w "docs") ⊆ dom (stored w1 "docs") /\
            (forall id,
               (forall data, load_step svc ev w = (w, inr data) -> id ∉ chunk_ids data) ->
               stored w1 "docs" !! id = stored w "docs" !! id)).
  { intros [He|He]; unfold stored; rewrite He.
    { repeat split; try done. intros c Hc. by exists c. }
    unfold with_docs. destruct (collections (engine w) !! "docs") as [c0|] eqn:Hc0.
    { rewrite Hc0. repeat split; try done. intros c Hc. by exists c. }
    simpl. rewrite lookup_insert_eq. simpl.
    split; [done|]. split; [intros name Hne; by apply lookup_insert_ne|].
    split; [intros c Hc; discriminate Hc|]. split; [done|]. done. }
  destruct (load_step_pure svc ev) as [g Hg].
  unfold rag_ingest_pdf, step_run, bind in Hrun. rewrite Hg in Hrun.
  destruct g as [e|data]; [injection Hrun as <- _; apply Hsame; by left|].
  destruct r as [e|n]; [by apply Hsame, (upsert_step_failure data w w1 e)|].
  apply upsert_step_success in Hrun as (wa & vectors & He & _ & Hr & ->).
  pose proof He as (_ & _ & _ & _ & Hlen & _)%embed_texts_returns. unfold len in Hlen.
  assert (Hk : (point_entry <$> zip_points (chunk_ids data) vectors (chunk_payloads data)).*1
               = chunk_ids data).
  { rewrite point_entry_keys. apply zip_points_ids;
      rewrite chunk_ids_length, ?chunk_payloads_length; lia. }
  simpl. split; [by rewrite Hr|]. split; [|split; [|split]].
  - intros name Hne. by apply lookup_insert_ne.
  - intros c Hc. rewrite lookup_insert_eq, Hc. eauto.
  - unfold stored at 2. simpl. rewrite lookup_insert_eq. simpl. rewrite writes_dom.
    set_solver.
  - intros id Hid. unfold stored at 1. simpl. rewrite lookup_insert_eq. simpl.
    apply writes_lookup_other. rewrite Hk. apply Hid, Hg.
Qed.

(** X14.  The calls of an ingestion that returned, in order: one
    embedding call per batch of at most 100 chunks, the reachability
    call, the existence check, the creation of ["docs"] with size 3072
    and the cosine distance when it did not exist, and then a single
    upsert carrying one point per chunk. *)
Theorem ingestion_calls (ev : IngestEvent) (w w1 : World float) (n : Z) :
  rag_ingest_pdf svc ev w = (w1, inr n) ->
  exists data vectors,
    load_step svc ev w = (w, inr data) /\
    new_calls w w1 =
      (EmbeddingsCreate EMBED_MODEL <$> batches_of (cd_chunks data) 100)
      ++ [GetCollections; CollectionExists "docs"]
      ++ match collections (engine w) !! "docs" with
         | Some _ => []
         | None => [CreateCollection "docs" (mkVectorParams 3072 COSINE)]
         end
      ++ [Upsert "docs" (zip_points (chunk_ids data) vectors (chunk_payloads data))] /\
    ps_id <$> zip_points (chunk_ids data) vectors (chunk_payloads data) = chunk_ids data /\
    len (zip_points (chunk_ids data) vectors (chunk_payloads data)) = n.
Proof.
  intros Hrun. apply rag_ingest_pdf_inv in Hrun as (data & Hload & Hup).
  apply upsert_step_success in Hup as (wa & vectors & He & -> & _ & ->).
  exists data, vectors. split; [apply Hload|].
  pose proof He as (_ & _ & Htr & _ & Hlen & _)%embed_texts_returns. unfold len in Hlen.
  split; [|split].
  - apply new_calls_app. simpl. rewrite Htr. by rewrite <- !app_assoc.
  - apply zip_points_ids; rewrite chunk_ids_length, ?chunk_payloads_length; lia.
  - unfold len. rewrite zip_points_length, chunk_ids_length;
      rewrite ?chunk_ids_length, ?chunk_payloads_length; lia.
Qed.

End IngestionMore.

Lemma ingestion_round_trip_witness :
  exists data vectors,
    load_step (uniform_provider 3072) ingest_doc1 world0 = (world0, inr data) /\
    (exists wa, embed_texts (uniform_provider 3072) (cd_chunks data) 100 world0
                = (wa, inr vectors)) /\
    2 = len (cd_chunks data) /\ 1 <= 2 /\
    forall i chunk,
      cd_chunks data !! i = Some chunk ->
      (forall j, (i < j < length (cd_chunks data))%nat ->
                 deriveId (cd_source_id data) j ≠ deriveId (cd_source_id data) i) ->
      exists v,
        vectors !! i = Some v /\
        stored (rag_ingest_pdf (uniform_provider 3072) ingest_doc1 world0).1 "docs"
          !! deriveId (cd_source_id data) i
        = Some (v, Some {[ "text" := chunk; "source" := cd_source_id data ]}).
Proof.
  exact (ingestion_round_trip (uniform_provider 3072) ingest_doc1 world0
           (rag_ingest_pdf (uniform_provider 3072) ingest_doc1 world0).1 2
           ltac:(vm_compute; reflexivity)).
Defined.

Lemma ingestion_frame_witness :
  dom (stored world_unnamed "docs")
  ⊆ dom (stored (rag_ingest_pdf (uniform_provider 3072) ingest_doc1 world_unnamed).1 "docs").
Proof.
  exact (proj1 (proj2 (proj2 (proj2
    (ingestion_frame (uniform_provider 3072) ingest_doc1 world_unnamed
       (rag_ingest_pdf (uniform_provider 3072) ingest_doc1 world_unnamed).1 (inr 2)
       ltac:(vm_compute; reflexivity)))))).
Defined.

Lemma ingestion_calls_witness :
  exists data vectors,
    load_step (uniform_provider 3072) ingest_doc1 world0 = (world0, inr data) /\
    new_calls world0 (rag_ingest_pdf (uniform_provider 3072) ingest_doc1 world0).1 =
      (EmbeddingsCreate EMBED_MODEL <$> batches_of (cd_chunks data) 100)
      ++ [GetCollections; CollectionExists "docs"]
      ++ match collections (engine world0) !! "docs" with
         | Some _ => []
         | None => [CreateCollection "docs" (mkVectorParams 3072 COSINE)]
         end
      ++ [Upsert "docs" (zip_points (chunk_ids data) vectors (chunk_payloads data))] /\
    ps_id <$> zip_points (chunk_ids data) vectors (chunk_payloads data) = chunk_ids data /\
    len (zip_points (chunk_ids data) vectors (chunk_payloads data)) = 2.
Proof.
  exact (ingestion_calls (uniform_provider 3072) ingest_doc1 world0
           (rag_ingest_pdf (uniform_provider 3072) ingest_doc1 world0).1 2
           ltac:(vm_compute; reflexivity)).
Defined.

(** ** More on the query workflow *)

Section QueryMore.

Context {float : Type} (svc : Services float).

Lemma default_open_down (w : World float) :
  reachable (engine w) = false ->
  QdrantStorage_default w = (log GetCollections w, inl StoreUnreachable).
Proof. apply init_unreachable. Qed.

Lemma default_open_up (w : World float) :
  reachable (engine w) = true ->
  QdrantStorage_default w =
  (mkWorld (with_docs (engine w)) (trace w ++ default_open_calls w), inr default_store).
Proof.
  intros Hr. unfold QdrantStorage_default, with_docs, default_open_calls.
  destruct (collections (engine w) !! "docs") as [c|] eqn:Hc.
  - by rewrite (init_present _ _ _ w c Hr Hc).
  - rewrite (init_absent _ _ _ w Hr Hc). by rewrite Hr.
Qed.

Lemma stored_with_docs (e : Engine float) tr tr' name :
  stored (mkWorld (with_docs e) tr) name = stored (mkWorld e tr') name.
Proof.
  unfold stored, with_docs. simpl.
  destruct (collections e !! "docs") as [c|] eqn:Hc; [reflexivity|]. simpl.
  destruct (decide (name = "docs")) as [->|Hne].
  - by rewrite lookup_insert_eq, Hc.
  - by rewrite lookup_insert_ne.
Qed.

Lemma with_docs_reachable (e : Engine float) : reachable (with_docs e) = reachable e.
Proof. unfold with_docs. by destruct (collections e !! "docs"). Qed.

Lemma with_docs_has (e : Engine float) : is_Some (collections (with_docs e) !! "docs").
Proof.
  unfold with_docs. destruct (collections e !! "docs") eqn:Hc; [by rewrite Hc|].
  simpl. by rewrite lookup_insert_eq.
Qed.

(** The single vector [embed_texts] returns for a single text. *)
Lemma embed_question question (w wa : World float) vecs :
  embed_texts svc [question] 100 w = (wa, inr vecs) ->
  exists v, vecs = [v] /\ len v = EMBED_DIM.
Proof.
  intros He. apply embed_texts_returns in He as (_ & _ & _ & _ & Hlen & (v & rest & -> & Hd) & _).
  exists v. split; [|exact Hd]. destruct rest; [reflexivity|].
  unfold len in Hlen. simpl in Hlen. lia.
Qed.

(** The run of [search_step], case by case. *)
Lemma search_step_cases question top_k (w w' : World float) r :
  search_step svc question top_k w = (w', r) ->
  exists wa,
    new_calls w wa = [EmbeddingsCreate EMBED_MODEL [question]] /\
    engine wa = engine w /\
    ((exists e, embed_texts svc [question] 100 w = (wa, inl e) /\ w' = wa /\ r = inl e) \/
     (exists v,
        embed_texts svc [question] 100 w = (wa, inr [v]) /\ len v = EMBED_DIM /\
        (reachable (engine w) = false /\ w' = log GetCollections wa /\
         r = inl StoreUnreachable
         \/
         reachable (engine w) = true /\
         QdrantStorage_search svc default_store v top_k
           (mkWorld (with_docs (engine w)) (trace wa ++ default_open_calls w)) = (w', r)))).
Proof.
  intros Hrun. unfold search_step in Hrun.
  destruct (embed_texts svc [question] 100 w) as [wa ra] eqn:He.
  exists wa.
  destruct (embed_texts_one_batch svc [question] 100 w wa ra
              ltac:(discriminate) ltac:(unfold len; simpl; lia) He) as (_ & Hcalls & Heng).
  split; [exact Hcalls|]. split; [exact Heng|].
  destruct ra as [e|vecs].
  - left. exists e. erewrite bind_fail in Hrun by exact He.
    injection Hrun as <- <-. done.
  - right. destruct (embed_question question w wa vecs He) as (v & -> & Hd).
    exists v. split; [reflexivity|]. split; [exact Hd|].
    erewrite bind_run in Hrun by exact He.
    erewrite bind_run in Hrun by (apply (pure_py_index (float:=float) [v] 0)).
    rewrite <- Heng.
    destruct (reachable (engine wa)) eqn:Hr.
    + right. split; [reflexivity|].
      erewrite bind_run in Hrun by (by apply default_open_up).
      unfold default_open_calls in *. by rewrite <- Heng.
    + left. erewrite bind_fail in Hrun by (by apply default_open_down).
      injection Hrun as <- <-. done.
Qed.

(** X15.  The order of the calls of [search_step].  The question is
    embedded alone, in one call.  When that call fails nothing else is
    called and the error is raised.  Otherwise the engine is contacted
    with the reachability call; when it cannot be reached the step
    fails there, and when it can the existence check, the creation of a
    missing ["docs"] collection and one query for the returned vector
    with limit [top_k] follow. *)
Theorem search_step_order (question : string) (top_k : Z) (w w' : World float)
    (r : Exn + SearchResult) :
  search_step svc question top_k w = (w', r) ->
  exists wa,
    new_calls w wa = [EmbeddingsCreate EMBED_MODEL [question]] /\
    ((exists e, embed_texts svc [question] 100 w = (wa, inl e) /\ w' = wa /\ r = inl e) \/
     (exists v,
        embed_texts svc [question] 100 w = (wa, inr [v]) /\ len v = EMBED_DIM /\
        (reachable (engine w) = false /\ new_calls wa w' = [GetCollections] /\
         r = inl StoreUnreachable
         \/
         reachable (engine w) = true /\
         new_calls wa w' = default_open_calls w ++ [QueryPoints "docs" v top_k]))).
Proof.
  intros Hrun. apply search_step_cases in Hrun as (wa & Hcalls & Heng & Hcase).
  exists wa. split; [exact Hcalls|].
  destruct Hcase as [Hfail|(v & He & Hd & Hcase)]; [by left|].
  right. exists v. split; [exact He|]. split; [exact Hd|].
  destruct Hcase as [(Hr & -> & ->)|(Hr & Hsearch)].
  - left. split; [exact Hr|]. split; [by apply new_calls_app | reflexivity].
  - right. split; [exact Hr|].
    apply search_effects in Hsearch as [_ Hq]. simpl in Hq.
    apply new_calls_app. by rewrite Hq, <- app_assoc.
Qed.

Lemma client_responses_create_run model input max_tokens (w : World float) :
  client_responses_create svc model input max_tokens w =
  (log (ResponsesCreate model input max_tokens) w,
   responses_create svc (trace w) model input max_tokens).
Proof. reflexivity. Qed.

(** [rag_query_pdf] once its search step has returned. *)
Lemma rag_query_pdf_searched (data : QueryEvent) question (w w1 : World float) sr :
  ev_question data = Some question -> question <> "" ->
  search_step svc question (default 5 (ev_top_k data)) w = (w1, inr sr) ->
  rag_query_pdf svc data w =
  match contexts sr with
  | [] => (w1, inr (mkQueryAnswer FALLBACK_ANSWER [] 0))
  | _ =>
      (log (ResponsesCreate "gpt-4o-mini" (synthesis_input (contexts sr) question) 512) w1,
       match responses_create svc (trace w1) "gpt-4o-mini"
               (synthesis_input (contexts sr) question) 512 with
       | inl e => inl e
       | inr output_text =>
           inr (mkQueryAnswer (str_strip output_text) (sources sr) (len (contexts sr)))
       end)
  end.
Proof.
  intros Hq Hne Hs. unfold rag_query_pdf. rewrite Hq.
  destruct question as [|a question]; [done|].
  unfold step_run. erewrite bind_run by exact Hs.
  destruct (contexts sr) as [|c cs]; [reflexivity|].
  unfold bind. rewrite client_responses_create_run.
  fold (synthesis_input (c :: cs) (String a question)).
  by destruct (responses_create svc _ _ _ _).
Qed.

Lemma rag_query_pdf_inv (data : QueryEvent) (w w' : World float) r :
  rag_query_pdf svc data w = (w', r) ->
  (w' = w /\ r = inl MissingQuestion /\
   (ev_question data = None \/ ev_question data = Some "")) \/
  exists question,
    ev_question data = Some question /\ question <> "" /\
    ((exists e, search_step svc question (default 5 (ev_top_k data)) w = (w', inl e)
                /\ r = inl e) \/
     (exists w1 sr, search_step svc question (default 5 (ev_top_k data)) w = (w1, inr sr))).
Proof.
  intros Hrun. destruct (ev_question data) as [question|] eqn:Hq.
  - destruct (decide (question = "")) as [->|Hne].
    + left. unfold rag_query_pdf in Hrun. rewrite Hq in Hrun. injection Hrun as <- <-. auto.
    + right. exists question. split; [reflexivity|]. split; [exact Hne|].
      destruct (search_step svc question (default 5 (ev_top_k data)) w) as [w1 [e|sr]] eqn:Hs.
      * left. exists e. unfold rag_query_pdf in Hrun. rewrite Hq in Hrun.
        destruct question as [|a question]; [done|].
        unfold step_run in Hrun. erewrite bind_fail in Hrun by exact Hs.
        by injection Hrun as <- <-.
      * right. by exists w1, sr.
  - left. unfold rag_query_pdf in Hrun. rewrite Hq in Hrun. injection Hrun as <- <-. auto.
Qed.

Lemma search_step_returns question top_k (w w1 : World float) sr :
  search_step svc question top_k w = (w1, inr sr) ->
  1 <= top_k /\ len (contexts sr) <= top_k /\ NoDup (sources sr) /\
  engine w1 = with_docs (engine w) /\ reachable (engine w) = true.
Proof.
  intros Hrun. apply search_step_cases in Hrun as (wa & _ & _ & Hcase).
  destruct Hcase as [(e & _ & _ & He)|(v & _ & _ & Hcase)]; [discriminate He|].
  destruct Hcase as [(_ & _ & He)|(Hr & Hsearch)]; [discriminate He|].
  pose proof (search_effects svc _ _ _ _ _ _ Hsearch) as [Heng _].
  apply search_inv in Hsearch as (matched & Hq & Hc & Hs).
  apply query_points_inv in Hq as (_ & Hk & Hlen & _ & _).
  split; [exact Hk|]. split.
  - rewrite Hc. unfold len in *. pose proof (omap_length_le (kept_field "text") matched). lia.
  - split; [rewrite Hs; apply NoDup_elements|]. by split.
Qed.

(** X16.  The synthesis of an answer.  When the search step returned
    contexts, [rag_query_pdf] makes one call to the generative model, the
    last call of the run, with model ["gpt-4o-mini"], an output budget of
    512 and an input built from the contexts and the question.  An error
    of that call is raised unchanged; otherwise the answer is the output
    stripped, so without whitespace at either end, the sources are those
    of the search and the context count is the number of contexts. *)
Theorem query_synthesis (data : QueryEvent) (question : string) (w w1 : World float)
    (sr : SearchResult) :
  ev_question data = Some question -> question <> "" ->
  search_step svc question (default 5 (ev_top_k data)) w = (w1, inr sr) ->
  contexts sr <> [] ->
  (rag_query_pdf svc data w).1
  = log (ResponsesCreate "gpt-4o-mini" (synthesis_input (contexts sr) question) 512) w1 /\
  (forall e,
     responses_create svc (trace w1) "gpt-4o-mini"
       (synthesis_input (contexts sr) question) 512 = inl e ->
     (rag_query_pdf svc data w).2 = inl e) /\
  (forall output_text,
     responses_create svc (trace w1) "gpt-4o-mini"
       (synthesis_input (contexts sr) question) 512 = inr output_text ->
     (rag_query_pdf svc data w).2
     = inr (mkQueryAnswer (str_strip output_text) (sources sr) (len (contexts sr))) /\
     trimmed (str_strip output_text) /\ 1 <= len (contexts sr)).
Proof.
  intros Hq Hne Hs Hc. rewrite (rag_query_pdf_searched data question w w1 sr Hq Hne Hs).
  destruct (contexts sr) as [|c cs] eqn:Hctx; [done|].
  split; [reflexivity|]. split.
  - by intros e ->.
  - intros out ->. split; [reflexivity|]. split; [apply str_strip_trimmed|].
    unfold len. simpl. lia.
Qed.

(** X17.  What every answer of [rag_query_pdf] satisfies.  The question
    was not empty; the context count is between zero and [top_k] (5 when
    the event gives none); the sources have no duplicates; a count of
    zero comes with the fixed answer, no sources and no call to the
    generative model, and a positive count with exactly one such call,
    made last, and an answer without whitespace at either end. *)
Theorem query_answer_invariant (data : QueryEvent) (w w' : World float)
    (ans : QueryAnswer) :
  rag_query_pdf svc data w = (w', inr ans) ->
  (exists question, ev_question data = Some question /\ question <> "") /\
  0 <= num_contexts ans <= default 5 (ev_top_k data) /\
  NoDup (qa_sources ans) /\
  (num_contexts ans = 0 ->
   answer ans = FALLBACK_ANSWER /\ qa_sources ans = [] /\
   Forall (fun c => is_generate_call c = false) (new_calls w w')) /\
  (0 < num_contexts ans ->
   trimmed (answer ans) /\
   exists before model input budget,
     new_calls w w' = before ++ [ResponsesCreate model input budget] /\
     Forall (fun c => is_generate_call c = false) before).
Proof.
  intros Hrun.
  destruct (rag_query_pdf_inv data w w' (inr ans) Hrun)
    as [(_ & He & _)|(question & Hq & Hne & [(e & _ & He)|(w1 & sr & Hs)])];
    try discriminate He.
  split; [by exists question|].
  rewrite (rag_query_pdf_searched data question w w1 sr Hq Hne Hs) in Hrun.
  pose proof (search_step_returns _ _ _ _ _ Hs) as (Hk & Hlen & Hnd & _).
  pose proof (calls_only_search_step svc _ _ _ _ _ Hs) as (cs & Htr & Hcs).
  destruct (contexts sr) as [|c ctx] eqn:Hctx.
  - injection Hrun as <- <-. simpl.
    split; [lia|]. split; [constructor|]. split.
    + intros _. split; [reflexivity|]. split; [reflexivity|].
      by rewrite (new_calls_app _ _ _ Htr).
    + lia.
  - destruct (responses_create svc _ _ _ _) as [e|out]; [discriminate Hrun|].
    injection Hrun as <- <-. simpl.
    split; [unfold len in *; simpl in *; lia|]. split; [exact Hnd|]. split.
    + unfold len. simpl. lia.
    + intros _. split; [apply str_strip_trimmed|].
      exists cs, "gpt-4o-mini", (synthesis_input (c :: ctx) question), 512.
      split; [|exact Hcs]. apply new_calls_app. simpl. by rewrite Htr, <- app_assoc.
Qed.

(** X18.  A query only reads.  Whatever its outcome, [rag_query_pdf]
    sends no upsert and leaves the points of every collection as they
    were; the engine is as before or differs only by a new, empty
    ["docs"] collection, created when it was missing. *)
Theorem query_read_only (data : QueryEvent) (w w' : World float) (r : Exn + QueryAnswer) :
  rag_query_pdf svc data w = (w', r) ->
  (engine w' = engine w \/ engine w' = with_docs (engine w)) /\
  (forall name, stored w' name = stored w name) /\
  Forall (fun c => is_upsert_call c = false) (new_calls w w').
Proof.
  intros Hrun.
  assert (Hsearch : forall question top_k w1 x,
            search_step svc question top_k w = (w1, x) ->
            (engine w1 = engine w \/ engine w1 = with_docs (engine w)) /\
            Forall (fun c => is_upsert_call c = false) (new_calls w w1)).
  { intros question top_k w1 x Hs. split.
    - apply search_step_cases in Hs as (wa & _ & Heng & Hcase).
      destruct Hcase as [(e & _ & -> & _)|(v & _ & _ & [(_ & -> & _)|(_ & Hq)])].
      + by left.
      + by left.
      + right. by apply search_effects in Hq as [-> _].
    - assert (Hc : calls_only (fun c => is_upsert_call c = false)
                     (search_step svc question top_k)).
      { unfold search_step.
        apply calls_only_bind; [by apply calls_only_embed_texts|]. intros vecs.
        apply calls_only_bind; [apply calls_only_py_index|]. intros vector.
        apply calls_only_bind; [by apply calls_only_init|]. intros store.
        by apply calls_only_search. }
      apply Hc in Hs as (cs & Htr & Hcs). by rewrite (new_calls_app _ _ _ Htr). }
  assert (Hst : forall w1 : World float,
            engine w1 = engine w \/ engine w1 = with_docs (engine w) ->
            forall name, stored w1 name = stored w name).
  { intros w1 [He|He] name.
    - unfold stored. by rewrite He.
    - destruct w1 as [e1 t1]. simpl in He. subst e1.
      rewrite (stored_with_docs _ t1 (trace w)). by destruct w. }
  destruct (rag_query_pdf_inv data w w' r Hrun)
    as [(-> & _ & _)|(question & Hq & Hne & [(e & Hs & _)|(w1 & sr & Hs)])].
  - split; [by left|]. split; [done|]. unfold new_calls. by rewrite drop_all.
  - apply Hsearch in Hs as [He Hc]. split; [exact He|]. split; [by apply Hst | exact Hc].
  - rewrite (rag_query_pdf_searched data question w w1 sr Hq Hne Hs) in Hrun.
    pose proof (calls_only_search_step svc _ _ _ _ _ Hs) as (cs & Htr & _).
    apply Hsearch in Hs as [He Hc]. rewrite (new_calls_app _ _ _ Htr) in Hc.
    destruct (contexts sr) as [|c ctx].
    + injection Hrun as <- _. split; [exact He|]. split; [by apply Hst|].
      by rewrite (new_calls_app _ _ _ Htr).
    + injection Hrun as <- _. simpl. split; [exact He|]. split; [by apply (Hst (log _ w1))|].
      rewrite (new_calls_app w _ (cs ++ [ResponsesCreate "gpt-4o-mini"
                 (synthesis_input (c :: ctx) question) 512]))
        by (simpl; by rewrite Htr, <- app_assoc).
      apply Forall_app. split; [exact Hc | by repeat constructor].
Qed.

End QueryMore.

Lemma search_step_order_witness :
  exists wa,
    new_calls world_doc1 wa = [EmbeddingsCreate EMBED_MODEL ["What is alpha?"]].
Proof.
  destruct (search_step_order (uniform_provider 3072) "What is alpha?" 5 world_doc1 _ _
              (surjective_pairing _)) as (wa & Hcalls & _).
  exists wa. exact Hcalls.
Defined.

Lemma query_synthesis_witness :
  (rag_query_pdf padded_provider query_alpha world_doc1).2
  = inr (mkQueryAnswer "An answer." ["doc1"] 2).
Proof.
  exact (proj1 (proj2 (proj2
    (query_synthesis padded_provider query_alpha "What is alpha?" world_doc1
       (search_step padded_provider "What is alpha?" 5 world_doc1).1
       (mkSearchResult ["alpha info"; "beta info"] ["doc1"])
       eq_refl ltac:(discriminate) ltac:(vm_compute; reflexivity) ltac:(discriminate)))
    (nbsp +:+ "An answer." +:+ wide_space +:+ nl) eq_refl)).
Defined.

Lemma query_answer_invariant_witness :
  0 <= num_contexts (mkQueryAnswer "An answer." ["doc1"] 2) <= default 5 (ev_top_k query_alpha).
Proof.
  exact (proj1 (proj2
    (query_answer_invariant (uniform_provider 3072) query_alpha world_doc1
       (rag_query_pdf (uniform_provider 3072) query_alpha world_doc1).1
       (mkQueryAnswer "An answer." ["doc1"] 2) ltac:(vm_compute; reflexivity)))).
Defined.

Lemma query_read_only_witness :
  engine (rag_query_pdf (uniform_provider 3072) query_alpha world0).1 = engine world0
  \/ engine (rag_query_pdf (uniform_provider 3072) query_alpha world0).1
     = with_docs (engine world0).
Proof.
  exact (proj1 (query_read_only (uniform_provider 3072) query_alpha world0 _ _
                  (surjective_pairing _))).
Defined.

(** ** The shape of an id *)

Section IdShape.

Local Open Scope char_scope.

Lemma hex_digit_in d : 0 <= d < 16 -> In (Uuid.hex_digit d) hex_chars.
Proof.
  intros Hd.
  assert (Hcases : d = 0 \/ d = 1 \/ d = 2 \/ d = 3 \/ d = 4 \/ d = 5 \/ d = 6 \/ d = 7 \/
                   d = 8 \/ d = 9 \/ d = 10 \/ d = 11 \/ d = 12 \/ d = 13 \/ d = 14 \/ d = 15)
    by lia.
  repeat (destruct Hcases as [->|Hcases]; [vm_compute; tauto|]).
  subst d. vm_compute. tauto.
Qed.

Lemma hex_lookup u : forall n k,
  (k < n)%nat ->
  Uuid.hex n u !! k = Some (Uuid.hex_digit ((u / 16 ^ Z.of_nat (n - 1 - k)) mod 16)).
Proof.
  induction n as [|n IH]; intros k Hk; [lia|].
  destruct k as [|k].
  - replace (S n - 1 - 0)%nat with n by lia. reflexivity.
  - replace (S n - 1 - S k)%nat with (n - 1 - k)%nat by lia.
    change (Uuid.hex n u !! k = Some (Uuid.hex_digit ((u / 16 ^ Z.of_nat (n - 1 - k)) mod 16))).
    apply IH. lia.
Qed.

Lemma hex_all u n : Forall (fun c => In c hex_chars) (Uuid.hex n u).
Proof.
  induction n as [|n IH]; simpl; constructor; [|exact IH].
  apply hex_digit_in, Z.mod_pos_bound. lia.
Qed.

(** Four bits of a number, read as a hexadecimal digit. *)
Lemma nibble_bits u k :
  0 <= k ->
  forall j, 0 <= j < 4 -> Z.testbit ((u / 2 ^ k) mod 16) j = Z.testbit u (j + k).
Proof.
  intros Hk j Hj. change 16 with (2 ^ 4).
  rewrite Z.mod_pow2_bits_low by lia. apply Z.div_pow2_bits; lia.
Qed.

Lemma of_bytes_bit b n :
  Z.testbit (Uuid.of_bytes b 5) n =
  (((Z.testbit (Sha1.from_be b) n && Z.testbit (Z.lnot (Z.shiftl 0xc000 48)) n)
    || Z.testbit (Z.shiftl 0x8000 48) n)
   && Z.testbit (Z.lnot (Z.shiftl 0xf000 64)) n)
  || Z.testbit (Z.shiftl 5 76) n.
Proof.
  unfold Uuid.of_bytes.
  rewrite Z.lor_spec, Z.land_spec, Z.lor_spec, Z.land_spec. reflexivity.
Qed.

Lemma nibble_from_bits x b0 b1 b2 b3 :
  0 <= x < 16 ->
  Z.testbit x 0 = b0 -> Z.testbit x 1 = b1 -> Z.testbit x 2 = b2 -> Z.testbit x 3 = b3 ->
  x = Z.b2z b0 + 2 * Z.b2z b1 + 4 * Z.b2z b2 + 8 * Z.b2z b3.
Proof.
  intros Hx.
  assert (Hcases : x = 0 \/ x = 1 \/ x = 2 \/ x = 3 \/ x = 4 \/ x = 5 \/ x = 6 \/ x = 7 \/
                   x = 8 \/ x = 9 \/ x = 10 \/ x = 11 \/ x = 12 \/ x = 13 \/ x = 14 \/ x = 15)
    by lia.
  repeat (destruct Hcases as [->|Hcases]; [intros <- <- <- <-; reflexivity|]).
  subst x. intros <- <- <- <-. reflexivity.
Qed.

(** The version digit of a [uuid5] value. *)
Lemma uuid5_version ns name : (Uuid.uuid5 ns name / 16 ^ 19) mod 16 = 5.
Proof.
  unfold Uuid.uuid5. cbv zeta. set (b := take 16 _). change (16 ^ 19) with (2 ^ 76).
  rewrite (nibble_from_bits _ true false true false); [reflexivity | | | | |].
  - apply Z.mod_pos_bound. lia.
  - rewrite nibble_bits, of_bytes_bit by lia.
    destruct (Z.testbit (Sha1.from_be b) _); reflexivity.
  - rewrite nibble_bits, of_bytes_bit by lia.
    destruct (Z.testbit (Sha1.from_be b) _); reflexivity.
  - rewrite nibble_bits, of_bytes_bit by lia.
    destruct (Z.testbit (Sha1.from_be b) _); reflexivity.
  - rewrite nibble_bits, of_bytes_bit by lia.
    destruct (Z.testbit (Sha1.from_be b) _); reflexivity.
Qed.

(** The variant digit of a [uuid5] value. *)
Lemma uuid5_variant ns name :
  8 <= (Uuid.uuid5 ns name / 16 ^ 15) mod 16 <= 11.
Proof.
  unfold Uuid.uuid5. cbv zeta. set (b := take 16 _). change (16 ^ 15) with (2 ^ 60).
  rewrite (nibble_from_bits ((Uuid.of_bytes b 5 / 2 ^ 60) mod 16)
             (Z.testbit (Sha1.from_be b) 60) (Z.testbit (Sha1.from_be b) 61) false true).
  - destruct (Z.testbit (Sha1.from_be b) 60), (Z.testbit (Sha1.from_be b) 61);
      unfold Z.b2z; lia.
  - apply Z.mod_pos_bound. lia.
  - rewrite nibble_bits, of_bytes_bit by lia.
    destruct (Z.testbit (Sha1.from_be b) _); reflexivity.
  - rewrite nibble_bits, of_bytes_bit by lia.
    destruct (Z.testbit (Sha1.from_be b) _); reflexivity.
  - rewrite nibble_bits, of_bytes_bit by lia.
    destruct (Z.testbit (Sha1.from_be b) _); reflexivity.
  - rewrite nibble_bits, of_bytes_bit by lia.
    destruct (Z.testbit (Sha1.from_be b) _); reflexivity.
Qed.

(** X19.  Every derived id is a canonical version-5 UUID text: 36
    characters, hyphens at positions 8, 13, 18 and 23 and lower-case
    hexadecimal digits elsewhere, the version digit 5 at position 14 and
    a variant digit 8, 9, a or b at position 19. *)
Theorem deriveId_format (source_id : string) (i : nat) :
  length (list_ascii_of_string (deriveId source_id i)) = 36%nat /\
  Forall (fun kc => if bool_decide (kc.1 ∈ [8; 13; 18; 23]%nat) then kc.2 = "-"
                    else In kc.2 hex_chars)
         (imap pair (list_ascii_of_string (deriveId source_id i))) /\
  list_ascii_of_string (deriveId source_id i) !! 14%nat = Some "5" /\
  exists c, list_ascii_of_string (deriveId source_id i) !! 19%nat = Some c /\
            In c ["8"; "9"; "a"; "b"].
Proof.
  unfold deriveId, Uuid.str. cbv zeta.
  rewrite list_ascii_of_string_of_list_ascii.
  set (u := Uuid.uuid5 Uuid.NAMESPACE_URL (id_name source_id i)).
  pose proof (hex_length 32 u) as Hlen.
  pose proof (hex_all u 32) as Hall.
  pose proof (hex_lookup u 32 12 ltac:(lia)) as H12.
  pose proof (hex_lookup u 32 16 ltac:(lia)) as H16.
  change (Z.of_nat (32 - 1 - 12)) with 19 in H12.
  change (Z.of_nat (32 - 1 - 16)) with 15 in H16.
  unfold u in H12 at 2. rewrite uuid5_version in H12.
  pose proof (uuid5_variant Uuid.NAMESPACE_URL (id_name source_id i)) as Hvar. fold u in Hvar.
  assert (Hv : In (Uuid.hex_digit ((u / 16 ^ 15) mod 16)) ["8"; "9"; "a"; "b"]).
  { assert (Hc : (u / 16 ^ 15) mod 16 = 8 \/ (u / 16 ^ 15) mod 16 = 9 \/
                 (u / 16 ^ 15) mod 16 = 10 \/ (u / 16 ^ 15) mod 16 = 11) by lia.
    destruct Hc as [-> | [-> | [-> | ->]]]; vm_compute; tauto. }
  revert Hlen Hall H12 H16 Hv. generalize (Uuid.hex_digit ((u / 16 ^ 15) mod 16)).
  generalize (Uuid.hex 32 u). intros h c Hlen Hall H12 H16 Hv.
  do 32 (destruct h as [|? h]; [discriminate Hlen|]).
  destruct h; [|discriminate Hlen].
  simpl in H12, H16. injection H12 as ->. injection H16 as ->.
  split; [reflexivity|]. split.
  - repeat (apply Forall_cons in Hall as [? Hall]).
    simpl. repeat (constructor; [simpl; first [reflexivity | assumption]|]). constructor.
  - split; [reflexivity|]. exists c. split; [reflexivity | exact Hv].
Qed.

End IdShape.

(** ** The page: waiting for a run *)

Section PageProps.

Context {J : Type}.
Variable truthy : J -> bool.
Variable empty_dict : J.

Local Abbreviation wait_loop := (wait_loop truthy empty_dict).
Local Abbreviation wait_for_output := (wait_for_output truthy empty_dict).
Local Abbreviation output_or_empty := (output_or_empty truthy empty_dict).

(** One turn of the loop. *)
Lemma wait_loop_cons (p : Poll (J:=J)) polls last_status :
  wait_loop (p :: polls) last_status =
  if pending p then wait_loop polls (seen last_status p) else wait_loop [p] last_status.
Proof.
  unfold pending, waiting, seen. simpl.
  destruct (fetched p) as [e|[|run runs]]; simpl;
    [reflexivity | destruct (late p); reflexivity |].
  destruct (status_in (run_status run) STATUS_DONE); [reflexivity|].
  destruct (status_in (run_status run) STATUS_FAILED); [reflexivity|].
  destruct (late p); reflexivity.
Qed.

Lemma wait_loop_pending (pre rest : list (Poll (J:=J))) : forall last_status,
  Forall (fun p => pending p = true) pre ->
  wait_loop (pre ++ rest) last_status = wait_loop rest (last_seen pre last_status).
Proof.
  induction pre as [|p pre IH]; intros ls Hall; [reflexivity|].
  apply Forall_cons in Hall as [Hp Hall].
  rewrite <- app_comm_cons, wait_loop_cons, Hp. by apply IH.
Qed.

(** The loop goes round until the first turn that is not pending. *)
Lemma wait_loop_split (polls : list (Poll (J:=J))) : forall last_status,
  (Forall (fun p => pending p = true) polls /\ wait_loop polls last_status = None) \/
  exists pre p post,
    polls = pre ++ p :: post /\ Forall (fun p => pending p = true) pre /\
    pending p = false /\
    wait_loop polls last_status = wait_loop [p] (last_seen pre last_status).
Proof.
  induction polls as [|p polls IH]; intros ls; [by left|].
  rewrite wait_loop_cons. destruct (pending p) eqn:Hp.
  - destruct (IH (seen ls p)) as [[Hall Hnone]|(pre & q & post & -> & Hall & Hq & Hrun)].
    + left. split; [by constructor | exact Hnone].
    + right. exists (p :: pre), q, post. split; [reflexivity|].
      split; [by constructor|]. split; [exact Hq | exact Hrun].
  - right. exists [], p, polls. split; [reflexivity|]. split; [constructor|].
    split; [exact Hp | reflexivity].
Qed.

(** The turn that ends the loop, case by case. *)
Lemma wait_loop_last (p : Poll (J:=J)) last_status :
  pending p = false ->
  (exists e, fetched p = inl e /\ wait_loop [p] last_status = Some (inl (RequestError e))) \/
  (exists run runs,
     fetched p = inr (run :: runs) /\ status_in (run_status run) STATUS_DONE = true /\
     wait_loop [p] last_status = Some (inr (output_or_empty run))) \/
  (exists run runs,
     fetched p = inr (run :: runs) /\ status_in (run_status run) STATUS_DONE = false /\
     status_in (run_status run) STATUS_FAILED = true /\
     wait_loop [p] last_status = Some (inl (UiRuntimeError (failure_message (run_status run))))) \/
  (waiting p = true /\ late p = true /\
   wait_loop [p] last_status = Some (inl (TimeoutError (timeout_message (seen last_status p))))).
Proof.
  unfold pending, waiting, seen. simpl. intros Hp.
  destruct (fetched p) as [e|[|run runs]].
  - left. by exists e.
  - do 3 right. destruct (late p); [done | discriminate Hp].
  - destruct (status_in (run_status run) STATUS_DONE) eqn:Hd.
    { right. left. by exists run, runs. }
    destruct (status_in (run_status run) STATUS_FAILED) eqn:Hf.
    { right. right. left. by exists run, runs. }
    do 3 right. destruct (late p); [done | discriminate Hp].
Qed.

Lemma last_seen_snoc (pre : list (Poll (J:=J))) p last_status :
  last_seen (pre ++ [p]) last_status = seen (last_seen pre last_status) p.
Proof. unfold last_seen. by rewrite fold_left_app. Qed.

Lemma done_not_pending (p : Poll (J:=J)) run runs :
  fetched p = inr (run :: runs) -> status_in (run_status run) STATUS_DONE = true ->
  pending p = false.
Proof. intros Hf Hd. unfold pending, waiting. by rewrite Hf, Hd. Qed.

(** The two status lists share no status. *)
Lemma failed_not_done status :
  status_in status STATUS_FAILED = true -> status_in status STATUS_DONE = false.
Proof.
  destruct status as [s|]; [|done]. simpl. intros Hf%bool_decide_eq_true.
  apply bool_decide_eq_false. unfold STATUS_FAILED in Hf. unfold STATUS_DONE.
  set_solver.
Qed.

(** X20.  [wait_for_output] returns exactly when, after turns that all
    went round again (request answered, first run absent or with a status
    outside both lists, deadline not passed), a turn sees a first run
    whose status is Completed, Succeeded, Success or Finished; it returns
    that run's output, or the empty dict when the output is missing or
    falsy.  The deadline is not looked at on that turn and later turns
    are not made. *)
Theorem wait_for_output_returns (polls : list (Poll (J:=J))) (out : J) :
  wait_for_output polls = Some (inr out) <->
  exists pre p post run runs,
    polls = pre ++ p :: post /\ Forall (fun p => pending p = true) pre /\
    fetched p = inr (run :: runs) /\
    status_in (run_status run) STATUS_DONE = true /\
    out = output_or_empty run.
Proof.
  unfold wait_for_output. split.
  - intros Hrun.
    destruct (wait_loop_split polls None) as [[_ Hnone]|(pre & p & post & -> & Hall & Hp & Hlast)].
    { rewrite Hnone in Hrun. discriminate Hrun. }
    rewrite Hlast in Hrun.
    destruct (wait_loop_last p (last_seen pre None) Hp)
      as [(e & _ & Hr)|[(run & runs & Hf & Hd & Hr)|[(run & runs & _ & _ & _ & Hr)|(_ & _ & Hr)]]];
      rewrite Hr in Hrun; try discriminate Hrun.
    injection Hrun as <-. by exists pre, p, post, run, runs.
  - intros (pre & p & post & run & runs & -> & Hall & Hf & Hd & ->).
    rewrite wait_loop_pending by exact Hall. simpl. by rewrite Hf, Hd.
Qed.

(** X21.  [wait_for_output] raises the timeout error exactly when, after
    turns that all went round again, a turn decides nothing and finds the
    deadline passed; the message reports the last non-empty status among
    the first runs seen up to and including that turn, or None when
    there was none. *)
Theorem wait_for_output_timeout (polls : list (Poll (J:=J))) (msg : string) :
  wait_for_output polls = Some (inl (TimeoutError msg)) <->
  exists pre p post,
    polls = pre ++ p :: post /\ Forall (fun p => pending p = true) pre /\
    waiting p = true /\ late p = true /\
    msg = timeout_message (last_seen (pre ++ [p]) None).
Proof.
  unfold wait_for_output. split.
  - intros Hrun.
    destruct (wait_loop_split polls None) as [[_ Hnone]|(pre & p & post & -> & Hall & Hp & Hlast)].
    { rewrite Hnone in Hrun. discriminate Hrun. }
    rewrite Hlast in Hrun. exists pre, p, post. split; [reflexivity|]. split; [exact Hall|].
    destruct (wait_loop_last p (last_seen pre None) Hp)
      as [(e & Hf & Hr)|[(run & runs & _ & _ & Hr)|[(run & runs & _ & _ & _ & Hr)|(Hw & Hl & Hr)]]];
      rewrite Hr in Hrun; try discriminate Hrun.
    injection Hrun as <-. by rewrite last_seen_snoc.
  - intros (pre & p & post & -> & Hall & Hw & Hl & ->).
    rewrite wait_loop_pending by exact Hall.
    assert (Hp : pending p = false) by (unfold pending; by rewrite Hw, Hl).
    rewrite wait_loop_cons, Hp.
    destruct (wait_loop_last p (last_seen pre None) Hp)
      as [(e & Hf & _)|[(run & runs & Hf & Hd & _)|[(run & runs & Hf & _ & Hd & _)|(_ & _ & Hr)]]].
    + unfold waiting in Hw. rewrite Hf in Hw. discriminate Hw.
    + unfold waiting in Hw. rewrite Hf, Hd in Hw. discriminate Hw.
    + unfold waiting in Hw. rewrite Hf, Hd in Hw. simpl in Hw.
      by rewrite andb_false_r in Hw.
    + by rewrite Hr, last_seen_snoc.
Qed.

(** X22.  [wait_for_output] raises the run-failed error exactly when,
    after turns that all went round again, a turn sees a first run whose
    status is Failed or Cancelled; the message names that status. *)
Theorem wait_for_output_failed (polls : list (Poll (J:=J))) (msg : string) :
  wait_for_output polls = Some (inl (UiRuntimeError msg)) <->
  exists pre p post,
    polls = pre ++ p :: post /\ Forall (fun p => pending p = true) pre /\
    exists run runs status,
      fetched p = inr (run :: runs) /\ run_status run = Some status /\
      In status STATUS_FAILED /\ msg = "Inngest run failed: " +:+ status.
Proof.
  unfold wait_for_output. split.
  - intros Hrun.
    destruct (wait_loop_split polls None) as [[_ Hnone]|(pre & p & post & -> & Hall & Hp & Hlast)].
    { rewrite Hnone in Hrun. discriminate Hrun. }
    rewrite Hlast in Hrun. exists pre, p, post. split; [reflexivity|]. split; [exact Hall|].
    destruct (wait_loop_last p (last_seen pre None) Hp)
      as [(e & Hf & Hr)|[(run & runs & _ & _ & Hr)|[(run & runs & Hf & _ & Hd & Hr)|(Hw & Hl & Hr)]]];
      rewrite Hr in Hrun; try discriminate Hrun.
    injection Hrun as <-.
    destruct (run_status run) as [status|] eqn:Hs; [|discriminate Hd].
    exists run, runs, status. split; [exact Hf|]. split; [exact Hs|].
    split; [|reflexivity]. simpl in Hd. apply bool_decide_eq_true in Hd.
    by apply list_elem_of_In.
  - intros (pre & p & post & -> & Hall & run & runs & status & Hf & Hs & Hin & ->).
    rewrite wait_loop_pending by exact Hall. simpl. rewrite Hf, Hs.
    assert (Hb : status_in (Some status) STATUS_FAILED = true).
    { simpl. apply bool_decide_eq_true. by apply list_elem_of_In. }
    by rewrite (failed_not_done _ Hb), Hb.
Qed.

(** X23.  [wait_for_output] is still in its loop after a series of turns
    exactly when every one of them went round again: no status outside
    the two lists ends the wait, only the deadline does. *)
Theorem wait_for_output_waits (polls : list (Poll (J:=J))) :
  wait_for_output polls = None <-> Forall (fun p => pending p = true) polls.
Proof.
  unfold wait_for_output. split.
  - intros Hrun.
    destruct (wait_loop_split polls None) as [[Hall _]|(pre & p & post & -> & Hall & Hp & Hlast)];
      [exact Hall|].
    rewrite Hlast in Hrun.
    destruct (wait_loop_last p (last_seen pre None) Hp)
      as [(e & _ & Hr)|[(run & runs & _ & _ & Hr)|[(run & runs & _ & _ & _ & Hr)|(_ & _ & Hr)]]];
      rewrite Hr in Hrun; discriminate Hrun.
  - intros Hall. rewrite <- (app_nil_r polls), wait_loop_pending by exact Hall. reflexivity.
Qed.

End PageProps.

(** ** The page: sending a question *)

Section PageQuery.

Context {float : Type} (svc : Services float).

(** The search step starts with the embedding of its question. *)
Lemma search_step_trace question top_k (w w' : World float) r :
  search_step svc question top_k w = (w', r) ->
  exists calls, trace w' = trace w ++ EmbeddingsCreate EMBED_MODEL [question] :: calls.
Proof.
  intros Hrun. apply search_step_cases in Hrun as (wa & Hcalls & _ & Hcase).
  assert (Hwa : trace wa = trace w ++ [EmbeddingsCreate EMBED_MODEL [question]]).
  { assert (He : exists ra, embed_texts svc [question] 100 w = (wa, ra)).
    { destruct Hcase as [(e & He & _)|(v & He & _)]; eauto. }
    destruct He as (ra & He).
    apply embed_texts_calls in He as (_ & n & Htr).
    rewrite (new_calls_app _ _ _ Htr) in Hcalls. by rewrite Htr, Hcalls. }
  destruct Hcase as [(e & _ & -> & _)|(v & _ & _ & [(_ & -> & _)|(_ & Hsearch)])].
  - exists []. exact Hwa.
  - exists [GetCollections]. simpl. by rewrite Hwa, <- app_assoc.
  - apply search_effects in Hsearch as [_ Htr]. simpl in Htr.
    exists (default_open_calls w ++ [QueryPoints "docs" v top_k]).
    rewrite Htr, Hwa, <- !app_assoc. reflexivity.
Qed.

(** A query with a question starts with the embedding of the question. *)
Lemma rag_query_pdf_trace (data : QueryEvent) question (w : World float) :
  ev_question data = Some question -> question <> "" ->
  exists calls,
    trace (rag_query_pdf svc data w).1
    = trace w ++ EmbeddingsCreate EMBED_MODEL [question] :: calls.
Proof.
  intros Hq Hne.
  destruct (rag_query_pdf svc data w) as [w' r] eqn:Hrun. simpl.
  pose proof Hrun as Hinv.
  apply rag_query_pdf_inv in Hinv
    as [(_ & _ & [Hn|He])|(q & Hq' & _ & [(e & Hs & _)|(w1 & sr & Hs)])].
  - rewrite Hq in Hn. discriminate Hn.
  - rewrite Hq in He. by injection He as ->.
  - rewrite Hq in Hq'. injection Hq' as <-. by apply search_step_trace in Hs.
  - rewrite Hq in Hq'. injection Hq' as <-.
    rewrite (rag_query_pdf_searched svc data question w w1 sr Hq Hne Hs) in Hrun.
    apply search_step_trace in Hs as (calls & Htr).
    destruct (contexts sr) as [|c ctx].
    + injection Hrun as <- _. by exists calls.
    + injection Hrun as <- _. simpl. rewrite Htr, <- app_assoc. simpl. eauto.
Qed.

(** X24.  A question sent from the page passes the question check of the
    query run.  The page sends an event only for a submitted form whose
    question is not blank; the event carries the question stripped and
    the slider's [top_k]; and [rag_query_pdf] on that event, whatever its
    collaborators and the world, starts with the embedding call for the
    stripped question rather than raising "Missing question". *)
Theorem ui_query_reaches_search (submit : bool) (user_question : string) (top_k : Z)
    (ev : QueryEvent) (w : World float) :
  ui_query_event submit user_question top_k = Some ev ->
  submit = true /\ ~ blank user_question /\
  ev = mkQueryEvent (Some (str_strip user_question)) (Some top_k) /\
  exists calls,
    trace (rag_query_pdf svc ev w).1
    = trace w ++ EmbeddingsCreate EMBED_MODEL [str_strip user_question] :: calls.
Proof.
  unfold ui_query_event. intros Hev.
  destruct submit; [|discriminate Hev]. simpl in Hev.
  destruct (String.eqb (str_strip user_question) "") eqn:Hb; [discriminate Hev|].
  apply String.eqb_neq in Hb. injection Hev as <-.
  split; [reflexivity|]. split; [by rewrite <- str_strip_empty|]. split; [reflexivity|].
  by apply rag_query_pdf_trace.
Qed.

End PageQuery.

Lemma ui_query_reaches_search_witness :
  exists calls,
    trace (rag_query_pdf (uniform_provider 3072)
             (mkQueryEvent (Some "What is alpha?") (Some 5)) world_doc1).1
    = trace world_doc1 ++ EmbeddingsCreate EMBED_MODEL ["What is alpha?"] :: calls.
Proof.
  exact (proj2 (proj2 (proj2
    (ui_query_reaches_search (uniform_provider 3072) true
       (nbsp +:+ " What is alpha? " +:+ wide_space) 5
       (mkQueryEvent (Some "What is alpha?") (Some 5)) world_doc1 eq_refl)))).
Defined.
